(** * cato-logger: a shallow embedding of the ingestion-and-delivery pipeline

    The Go packages [marker], [api], [cef], [syslog], [processor] and the
    scheduler loop of [main] are rendered as Rocq functions.  Everything the
    program obtains from outside (file system, HTTP round trips, the socket,
    the clock, the cancellation channel) is supplied by an environment of
    total functions indexed by the number of earlier calls of the same kind;
    each component keeps that call count, together with a record of the
    effects it produced, in its state.

    Conventions
    - Go [string]s are byte strings: [String.string].
    - Go [int], [int64] and [time.Duration] are [Z]; where an operation can
      leave the 64-bit range in the source, the wrap-around is written out
      ([wrap64]).
    - A Go [map[string]string] is an association list with pairwise distinct
      keys; the order of the list stands for the order in which the runtime
      happens to iterate over the map.
    - A Go [error] result is an [option] of an error value ([None] is [nil]).
    - A panic is the [Panic] constructor of [Res]. *)

From Stdlib Require Import ZArith List String Ascii Bool Lia Permutation.
From Stdlib Require Import DecimalString.
Import ListNotations.

Local Open Scope string_scope.
Local Open Scope Z_scope.

(** ** Machine integers and durations *)

Definition wrap64 (z : Z) : Z := (z + 2 ^ 63) mod 2 ^ 64 - 2 ^ 63.

Definition maxInt64 : Z := 2 ^ 63 - 1.
Definition minInt64 : Z := - 2 ^ 63.

(** [time.Second], in the nanoseconds of [time.Duration]. *)
Definition Second : Z := 1000000000.

(** ** Go maps with string keys and values *)

Definition StrMap := list (string * string).

Fixpoint lookup (k : string) (m : StrMap) : option string :=
  match m with
  | [] => None
  | (k', v) :: m' => if String.eqb k' k then Some v else lookup k m'
  end.

(** [m[k] = v]: overwrite in place when the key is there, add it otherwise. *)
Fixpoint assign (k v : string) (m : StrMap) : StrMap :=
  match m with
  | [] => [(k, v)]
  | (k', v') :: m' =>
      if String.eqb k' k then (k', v) :: m' else (k', v') :: assign k v m'
  end.

(** [delete(m, k)]. *)
Fixpoint remove_key (k : string) (m : StrMap) : StrMap :=
  match m with
  | [] => []
  | (k', v') :: m' =>
      if String.eqb k' k then remove_key k m' else (k', v') :: remove_key k m'
  end.

Definition keys (m : StrMap) : list string := map fst m.

Definition nonempty (s : string) : bool := negb (String.eqb s "").

(** ** Package marker *)

Module Marker.

(** What one trip of [Save] to the file system meets: [os.MkdirAll] fails,
    or it succeeds and [os.WriteFile] fails, or both succeed. *)
Inductive FsOutcome := MkdirFails | WriteFails | WriteOk.

Inductive SaveError := ErrCreateDir | ErrWriteFile.

(** [Manager.marker] is the in-memory cursor.  [fsCalls] counts the trips to
    the file system so far and [persisted] lists, most recent first, the
    values [os.WriteFile] has written successfully. *)
Record Manager := mkManager {
  marker : string;
  fsCalls : nat;
  persisted : list string
}.

Section WithFileSystem.

Variable fs : nat -> FsOutcome.

Definition Save (new : string) (m : Manager) : option SaveError * Manager :=
  if String.eqb new "" then (None, m)
  else
    match fs (fsCalls m) with
    | MkdirFails =>
        (Some ErrCreateDir, mkManager (marker m) (S (fsCalls m)) (persisted m))
    | WriteFails =>
        (Some ErrWriteFile, mkManager (marker m) (S (fsCalls m)) (persisted m))
    | WriteOk =>
        (None, mkManager new (S (fsCalls m)) (new :: persisted m))
    end.

Definition Get (m : Manager) : string := marker m.

Definition Update (new : string) (m : Manager) : option SaveError * Manager :=
  if String.eqb new "" || String.eqb new (marker m) then (None, m)
  else Save new m.

End WithFileSystem.

End Marker.

(** ** Package api *)

Module Api.

Record Account := mkAccount {
  ID : string;
  ErrorString : string;
  Records : list StrMap
}.

(** The decoded response body.  [Marker] is a [*string]: [None] is JSON
    [null] or an absent member.  [Errors] keeps the [message] of each entry
    of the top-level [errors] list. *)
Record EventsFeedResponse := mkResponse {
  Marker : option string;
  FetchedCount : Z;
  Accounts : list Account;
  Errors : list string
}.

Record EventsPage := mkPage {
  Events : list StrMap;
  NewMarker : string;
  HasMore : bool
}.

(** What one call of [FetchEventsPage] meets.  [CannotSend]: no response
    was obtained (the request could not be built or [client.Do] failed);
    [ReadFails]: the body could not be read; [Reply status body]: a response
    whose body was read in full, with [body = None] when [json.Unmarshal]
    rejects it. *)
Inductive HttpOutcome :=
| CannotSend
| ReadFails
| Reply (status : Z) (body : option EventsFeedResponse).

Inductive HTTPError :=
| AuthFailed
| Forbidden
| RateLimited
| ServerError (status : Z)
| OtherStatus (status : Z).

Inductive FetchError :=
| ErrRequest
| ErrReadBody
| ErrHTTP (e : HTTPError)
| ErrParseJSON
| ErrGraphQL (message : string).

(** [calls] counts the calls of [FetchEventsPage] so far, each of which
    makes at most one round trip; [requests] lists, most recent first, the
    [marker] variable of each request ([None]: left out). *)
Record Client := mkClient {
  calls : nat;
  requests : list (option string)
}.

Definition handleHTTPError (statusCode : Z) : HTTPError :=
  if statusCode =? 401 then AuthFailed
  else if statusCode =? 403 then Forbidden
  else if statusCode =? 429 then RateLimited
  else if (statusCode =? 500) || (statusCode =? 502)
          || (statusCode =? 503) || (statusCode =? 504)
       then ServerError statusCode
  else OtherStatus statusCode.

Definition extractEvents (response : EventsFeedResponse) : list StrMap :=
  flat_map
    (fun account =>
       if nonempty (ErrorString account) then [] else Records account)
    (Accounts response).

(** The part of [FetchEventsPage] after the round trip. *)
Definition parsePage (o : HttpOutcome) : EventsPage + FetchError :=
  match o with
  | CannotSend => inr ErrRequest
  | ReadFails => inr ErrReadBody
  | Reply status body =>
      if negb (status =? 200) then inr (ErrHTTP (handleHTTPError status))
      else
        match body with
        | None => inr ErrParseJSON
        | Some response =>
            match Errors response with
            | message :: _ => inr (ErrGraphQL message)
            | [] =>
                let events := extractEvents response in
                match Marker response with
                | Some m =>
                    inl (mkPage events m
                           ((0 <? Z.of_nat (List.length events)) && nonempty m))
                | None => inl (mkPage events "" false)
                end
            end
        end
  end.

Definition buildRequest (marker : string) : option string :=
  if nonempty marker then Some marker else None.

Section WithServer.

Variable http : nat -> HttpOutcome.

Definition FetchEventsPage (marker : string) (c : Client)
  : (EventsPage + FetchError) * Client :=
  (parsePage (http (calls c)),
   mkClient (S (calls c)) (buildRequest marker :: requests c)).

(** The [for attempt := 0; attempt < maxAttempts; attempt++] loop, with
    [left] attempts still to go; the pauses between attempts are left
    out. *)
Fixpoint retryLoop (left : nat) (marker : string) (lastErr : option FetchError)
    (c : Client) : (EventsPage + option FetchError) * Client :=
  match left with
  | O => (inr lastErr, c)
  | S left' =>
      match FetchEventsPage marker c with
      | (inl page, c') => (inl page, c')
      | (inr err, c') => retryLoop left' marker (Some err) c'
      end
  end.

(** The error result carries the last underlying error ([None] when no
    attempt was made at all). *)
Definition FetchWithRetry (marker : string) (maxAttempts : Z) (c : Client)
  : (EventsPage + option FetchError) * Client :=
  retryLoop (Z.to_nat maxAttempts) marker None c.

End WithServer.

End Api.

(** ** Package cef *)

Module Cef.

Record Formatter := mkFormatter {
  vendor : string;
  product : string;
  version : string;
  fieldMappings : StrMap;
  orderedFields : list string
}.

(** [strings.ReplaceAll] for a pattern of one byte. *)
Fixpoint replaceAll (old : ascii) (new : string) (s : string) : string :=
  match s with
  | EmptyString => EmptyString
  | String c s' =>
      if Ascii.eqb c old then new ++ replaceAll old new s'
      else String c (replaceAll old new s')
  end.

Definition backslash : ascii := "\"%char.
Definition LF : ascii := "010"%char.
Definition CR : ascii := "013"%char.

Definition sanitizeValue (value : string) : string :=
  let value := replaceAll backslash "\\" value in
  let value := replaceAll "="%char "\=" value in
  let value := replaceAll "|"%char "\|" value in
  let value := replaceAll LF "\n" value in
  let value := replaceAll CR "\r" value in
  value.

Definition isMappedField (fieldName : string) (fieldMappings : StrMap) : bool :=
  match lookup fieldName fieldMappings with Some _ => true | None => false end.

Definition severityMap : list (string * Z) :=
  [ ("Threat", 10); ("Malware", 10); ("Attack", 9); ("Intrusion", 9);
    ("Security", 8); ("Policy Violation", 7); ("Warning", 6); ("Alert", 6);
    ("Connectivity", 5); ("Network", 4); ("Traffic", 3); ("Info", 2);
    ("Debug", 1) ].

Definition mapEventTypeToSeverity (eventType : string) : Z :=
  match find (fun e => String.eqb (fst e) eventType) severityMap with
  | Some (_, severity) => severity
  | None => 5
  end.

Definition getMapValue (m : StrMap) (key defaultVal : string) : string :=
  match lookup key m with
  | Some val => if nonempty val then val else defaultVal
  | None => defaultVal
  end.

(** [%d] *)
Definition decimal (z : Z) : string := NilZero.string_of_int (Z.to_int z).

Fixpoint insertSorted (s : string) (l : list string) : list string :=
  match l with
  | [] => [s]
  | t :: l' => if String.leb s t then s :: l else t :: insertSorted s l'
  end.

(** [sort.Strings]: ascending byte-wise order. *)
Definition sortStrings (l : list string) : list string :=
  fold_right insertSorted [] l.

(** [m[k]] read as a value: the zero value when the key is missing. *)
Definition valueOf (k : string) (m : StrMap) : string :=
  match lookup k m with Some v => v | None => "" end.

Definition header (f : Formatter) (fieldsMap : StrMap) : string :=
  let signature := getMapValue fieldsMap "event_type" "Unknown" in
  let name := signature ++ " - " ++ getMapValue fieldsMap "event_sub_type" "Unknown" in
  let severity := mapEventTypeToSeverity signature in
  "CEF:0|" ++ vendor f ++ "|" ++ product f ++ "|" ++ version f ++ "|"
    ++ signature ++ "|" ++ name ++ "|" ++ decimal severity ++ "|".

(** First loop of [Format]: the rename table, in its iteration order. *)
Definition applyMappings (mappings fieldsMap : StrMap) (extensions : StrMap) : StrMap :=
  fold_left
    (fun ext st =>
       match lookup (fst st) fieldsMap with
       | Some value =>
           if nonempty value then assign (snd st) (sanitizeValue value) ext else ext
       | None => ext
       end)
    mappings extensions.

(** Second loop: the fields the rename table does not mention. *)
Definition addUnmapped (mappings fieldsMap : StrMap) (extensions : StrMap) : StrMap :=
  fold_left
    (fun ext kv =>
       if negb (isMappedField (fst kv) mappings) && nonempty (snd kv)
       then assign (fst kv) (sanitizeValue (snd kv)) ext else ext)
    fieldsMap extensions.

Definition pair_text (field value : string) : string := field ++ "=" ++ value.

(** Third loop: the ordered fields, each taken out of [extensions] once
    emitted. *)
Definition emitOrdered (ordered : list string) (extensions : StrMap)
  : list string * StrMap :=
  fold_left
    (fun acc field =>
       match lookup field (snd acc) with
       | Some value =>
           ((fst acc ++ [pair_text field value])%list, remove_key field (snd acc))
       | None => acc
       end)
    ordered ([], extensions).

(** The keys still in [extensions], collected in the order the list has
    them, are sorted before they are emitted. *)
Definition emitRemaining (extensions : StrMap) : list string :=
  let remaining := sortStrings (keys extensions) in
  map (fun field => pair_text field (valueOf field extensions)) remaining.

Definition Format (f : Formatter) (fieldsMap : StrMap) : string :=
  let extensions := applyMappings (fieldMappings f) fieldsMap [] in
  let extensions := addUnmapped (fieldMappings f) fieldsMap extensions in
  let (parts, extensions) := emitOrdered (orderedFields f) extensions in
  let parts := (parts ++ emitRemaining extensions)%list in
  header f fieldsMap ++ String.concat " " parts.

End Cef.

(** ** Package syslog *)

Module Syslog.

(** [timestamp] is [time.Now().Format("Jan  2 15:04:05")], read from the
    environment by the caller. *)
Definition FormatMessage (timestamp hostname message : string) : string :=
  let priority := "134" in
  "<" ++ priority ++ ">" ++ timestamp ++ " " ++ hostname ++ " " ++ message.

Fixpoint firstPresent (candidates : list string) (fieldsMap : StrMap) : string :=
  match candidates with
  | [] => ""
  | field :: rest =>
      match lookup field fieldsMap with
      | Some ip => if nonempty ip then ip else firstPresent rest fieldsMap
      | None => firstPresent rest fieldsMap
      end
  end.

Definition ExtractSourceIP (fieldsMap : StrMap) : string :=
  firstPresent ["client_ip"; "src_ip"; "source_ip"; "host_ip"; "user_ip"] fieldsMap.

(** [osHostname] is the result of [os.Hostname()], [None] when it fails. *)
Definition DetermineHostname (osHostname : option string) (useEventIP : bool)
    (customSourceIP : string) (fieldsMap : StrMap) : string :=
  if useEventIP then
    let sourceIP := ExtractSourceIP fieldsMap in
    if nonempty sourceIP then sourceIP else "unknown-host"
  else if nonempty customSourceIP then customSourceIP
  else match osHostname with
       | Some hostname => hostname
       | None => "cato-forwarder"
       end.

(** A non-nil [net.Conn]: usable, or one on which [Close] has been called. *)
Inductive Conn := Live | Closed.

Inductive WriteError := ErrNoConnection | ErrWriteFailed.

Inductive ReconnectError := ErrRateLimited | ErrMaxReconnects | ErrDialFailed.

(** [time.Time] is the number of nanoseconds since the zero [time.Time];
    [lastReconnect = 0] is [time.Time{}].  The last five fields record the
    traffic with the outside: how many writes reached the socket, how many
    dials and closes were made, how often the clock was read, and the lines
    the collector accepted (most recent first). *)
Record Writer := mkWriter {
  conn : option Conn;
  reconnectCount : Z;
  lastReconnect : Z;
  maxReconnects : Z;
  reconnectDelay : Z;
  writes : nat;
  dials : nat;
  closes : nat;
  clockReads : nat;
  delivered : list string
}.

Record Net := mkNet {
  writeOk : nat -> bool;
  dialOk : nat -> bool;
  now : nat -> Z
}.

(** [NewWriter] after its first dial has succeeded. *)
Definition NewWriter : Writer :=
  mkWriter (Some Live) 0 0 10 (5 * Second) 0 0 0 0 [].

(** [t.Sub(u)]: the difference, held at the largest or smallest
    [Duration] when it does not fit. *)
Definition Sub (t u : Z) : Z := Z.max minInt64 (Z.min maxInt64 (t - u)).

Definition newline : string := String "010"%char EmptyString.

Section WithNet.

Variable net : Net.

(** [fmt.Fprintln(w.conn, message)]: nothing reaches the network without a
    usable connection. *)
Definition Write (message : string) (w : Writer) : option WriteError * Writer :=
  match conn w with
  | None => (Some ErrNoConnection, w)
  | Some Closed => (Some ErrWriteFailed, w)
  | Some Live =>
      if writeOk net (writes w) then
        (None,
         mkWriter (conn w) (reconnectCount w) (lastReconnect w) (maxReconnects w)
           (reconnectDelay w) (S (writes w)) (dials w) (closes w) (clockReads w)
           ((message ++ newline) :: delivered w))
      else
        (Some ErrWriteFailed,
         mkWriter (conn w) (reconnectCount w) (lastReconnect w) (maxReconnects w)
           (reconnectDelay w) (S (writes w)) (dials w) (closes w) (clockReads w)
           (delivered w))
  end.

(** [reconnectCount] stays below [maxReconnects] before each increment, so
    the increment cannot leave the range of [int]. *)
Definition Reconnect (w : Writer) : option ReconnectError * Writer :=
  let since := Sub (now net (clockReads w)) (lastReconnect w) in
  let reads := S (clockReads w) in
  if since <? reconnectDelay w then
    (Some ErrRateLimited,
     mkWriter (conn w) (reconnectCount w) (lastReconnect w) (maxReconnects w)
       (reconnectDelay w) (writes w) (dials w) (closes w) reads (delivered w))
  else if reconnectCount w >=? maxReconnects w then
    (Some ErrMaxReconnects,
     mkWriter (conn w) (reconnectCount w) (lastReconnect w) (maxReconnects w)
       (reconnectDelay w) (writes w) (dials w) (closes w) reads (delivered w))
  else
    let closed := match conn w with Some _ => Some Closed | None => None end in
    let nclose := match conn w with Some _ => S (closes w) | None => closes w end in
    if dialOk net (dials w) then
      (None,
       mkWriter (Some Live) 0 (now net reads) (maxReconnects w)
         (reconnectDelay w) (writes w) (S (dials w)) nclose (S reads) (delivered w))
    else
      (Some ErrDialFailed,
       mkWriter closed (reconnectCount w + 1) 0 (maxReconnects w)
         (reconnectDelay w) (writes w) (S (dials w)) nclose reads (delivered w)).

End WithNet.

End Syslog.

(** ** Package processor *)

Module Processor.

(** The members of [config.Config] the pipeline and the scheduler read. *)
Record Config := mkConfig {
  MaxMsgSize : Z;
  UseEventIP : bool;
  CustomSourceIP : string;
  FetchInterval : Z;
  MaxPagination : Z;
  RetryAttempts : Z;
  RetryDelay : Z;
  MaxBackoffDelay : Z
}.

Record Stats := mkStats {
  TotalEventsForwarded : Z;
  TotalAPIRequests : Z;
  FailedAPIRequests : Z
}.

Definition NewStats : Stats := mkStats 0 0 0.

Definition IncrementEventsForwarded (count : Z) (s : Stats) : Stats :=
  mkStats (wrap64 (TotalEventsForwarded s + count)) (TotalAPIRequests s)
    (FailedAPIRequests s).

Definition IncrementAPIRequests (s : Stats) : Stats :=
  mkStats (TotalEventsForwarded s) (wrap64 (TotalAPIRequests s + 1))
    (FailedAPIRequests s).

Definition IncrementFailedAPIRequests (s : Stats) : Stats :=
  mkStats (TotalEventsForwarded s) (TotalAPIRequests s)
    (wrap64 (FailedAPIRequests s + 1)).

Definition GetTotalEvents (s : Stats) : Z := TotalEventsForwarded s.

(** A computation either returns or panics. *)
Inductive Res (A : Type) : Type :=
| Ret (a : A)
| Panic.
Arguments Ret {A} a.
Arguments Panic {A}.

(** Everything a cycle obtains from outside.  [ctxDone k] tells whether the
    k-th poll of [ctx.Done()] finds the context cancelled; [timestamp k] is
    the k-th formatted reading of the clock by [FormatMessage]. *)
Record Env := mkEnv {
  fs : nat -> Marker.FsOutcome;
  http : nat -> Api.HttpOutcome;
  net : Syslog.Net;
  ctxDone : nat -> bool;
  timestamp : nat -> string;
  osHostname : option string
}.

(** The objects a [Processor] points to.  [fetches] counts the calls of
    [FetchWithRetry], [donePolls] the polls of the context and [stamps] the
    timestamps taken. *)
Record World := mkWorld {
  markerManager : Marker.Manager;
  apiClient : Api.Client;
  syslogWriter : Syslog.Writer;
  stats : Stats;
  fetches : nat;
  donePolls : nat;
  stamps : nat
}.

Definition withManager (m : Marker.Manager) (w : World) : World :=
  mkWorld m (apiClient w) (syslogWriter w) (stats w) (fetches w) (donePolls w) (stamps w).

(** The client after a call of [FetchWithRetry]. *)
Definition afterFetch (c : Api.Client) (w : World) : World :=
  mkWorld (markerManager w) c (syslogWriter w) (stats w) (S (fetches w)) (donePolls w)
    (stamps w).

Definition withWriter (wr : Syslog.Writer) (w : World) : World :=
  mkWorld (markerManager w) (apiClient w) wr (stats w) (fetches w) (donePolls w) (stamps w).

Definition withStats (s : Stats) (w : World) : World :=
  mkWorld (markerManager w) (apiClient w) (syslogWriter w) s (fetches w) (donePolls w)
    (stamps w).

Definition polled (w : World) : World :=
  mkWorld (markerManager w) (apiClient w) (syslogWriter w) (stats w) (fetches w)
    (S (donePolls w)) (stamps w).

Definition stamped (w : World) : World :=
  mkWorld (markerManager w) (apiClient w) (syslogWriter w) (stats w) (fetches w)
    (donePolls w) (S (stamps w)).

Inductive ForwardError :=
| ErrReconnect (e : Syslog.ReconnectError)
| ErrWriteAfterReconnect (e : Syslog.WriteError).

(** The local variables of [ProcessEvents].  The counters that go up by one
    per pass are bounded by the number of passes and kept as [nat]; the
    event total is an [int] sum. *)
Record Locals := mkLocals {
  totalEventsProcessed : Z;
  paginationCount : nat;
  currentMarker : string;
  markerUpdates : nat;
  numErrors : nat
}.

(** [Completed] is the [return nil] at the end, with the values the cycle
    summary logs; [Cancelled] is the early error return. *)
Inductive CycleResult :=
| Cancelled
| Completed (summary : Locals).

(** [syslogMessage[:MaxMsgSize]] under its guard: a negative bound
    panics. *)
Definition truncate (maxMsgSize : Z) (syslogMessage : string) : Res string :=
  if Z.of_nat (String.length syslogMessage) >? maxMsgSize then
    if maxMsgSize <? 0 then Panic
    else Ret (substring 0 (Z.to_nat maxMsgSize) syslogMessage)
  else Ret syslogMessage.

Section WithProcessor.

Variable env : Env.
Variable cfg : Config.
Variable cefFormatter : Cef.Formatter.

(** Write, and on failure reconnect once and write once more. *)
Definition send (syslogMessage : string) (wr : Syslog.Writer)
  : option ForwardError * Syslog.Writer :=
  match Syslog.Write (net env) syslogMessage wr with
  | (None, wr1) => (None, wr1)
  | (Some _, wr1) =>
      match Syslog.Reconnect (net env) wr1 with
      | (Some reconnectErr, wr2) => (Some (ErrReconnect reconnectErr), wr2)
      | (None, wr2) =>
          match Syslog.Write (net env) syslogMessage wr2 with
          | (Some err, wr3) => (Some (ErrWriteAfterReconnect err), wr3)
          | (None, wr3) => (None, wr3)
          end
      end
  end.

Fixpoint forwardLoop (events : list StrMap) (forwardedCount : nat) (w : World)
  : Res (nat * option ForwardError) * World :=
  match events with
  | [] => (Ret (forwardedCount, None), w)
  | fieldsMap :: rest =>
      let hostname :=
        Syslog.DetermineHostname (osHostname env) (UseEventIP cfg)
          (CustomSourceIP cfg) fieldsMap in
      let cefMessage := Cef.Format cefFormatter fieldsMap in
      let syslogMessage :=
        Syslog.FormatMessage (timestamp env (stamps w)) hostname cefMessage in
      let w := stamped w in
      match truncate (MaxMsgSize cfg) syslogMessage with
      | Panic => (Panic, w)
      | Ret syslogMessage =>
          match send syslogMessage (syslogWriter w) with
          | (Some err, wr) => (Ret (forwardedCount, Some err), withWriter wr w)
          | (None, wr) => forwardLoop rest (S forwardedCount) (withWriter wr w)
          end
      end
  end.

Definition forwardEvents (events : list StrMap) (w : World)
  : Res (nat * option ForwardError) * World :=
  forwardLoop events O w.

(** The marker step of one pass. *)
Definition updateMarker (page : Api.EventsPage) (l : Locals) (w : World)
  : Locals * World :=
  if nonempty (Api.NewMarker page)
     && negb (String.eqb (Api.NewMarker page) (currentMarker l))
  then
    let current := Api.NewMarker page in
    match Marker.Update (fs env) current (markerManager w) with
    | (Some _, m) =>
        (mkLocals (totalEventsProcessed l) (paginationCount l) current
           (markerUpdates l) (S (numErrors l)),
         withManager m w)
    | (None, m) =>
        (mkLocals (totalEventsProcessed l) (paginationCount l) current
           (S (markerUpdates l)) (numErrors l),
         withManager m w)
    end
  else (l, w).

Definition failed (l : Locals) : Locals :=
  mkLocals (totalEventsProcessed l) (paginationCount l) (currentMarker l)
    (markerUpdates l) (S (numErrors l)).

Definition fetched (l : Locals) : Locals :=
  mkLocals (totalEventsProcessed l) (S (paginationCount l)) (currentMarker l)
    (markerUpdates l) (numErrors l).

Definition counted (forwarded : nat) (l : Locals) : Locals :=
  mkLocals (wrap64 (totalEventsProcessed l + Z.of_nat forwarded)) (paginationCount l)
    (currentMarker l) (markerUpdates l) (numErrors l).

(** How one pass through the loop body ends: by leaving the loop ([break]
    or [return]) or by going back to the guard ([continue] or the end of the
    body). *)
Inductive Step :=
| Stop (r : CycleResult)
| Again (l : Locals).

(** The rest of a pass once the events, if any, have been forwarded. *)
Definition finishPass (page : Api.EventsPage) (l : Locals) (w : World)
  : Res Step * World :=
  let (l, w) := updateMarker page l w in
  if negb (Api.HasMore page) then (Ret (Stop (Completed l)), w)
  else (Ret (Again l), w).

(** The body of the [for paginationCount < MaxPagination] loop. *)
Definition pass (l : Locals) (w : World) : Res Step * World :=
  let cancelled := ctxDone env (donePolls w) in
  let w := polled w in
  if cancelled then (Ret (Stop Cancelled), w)
  else
    match
      Api.FetchWithRetry (http env) (currentMarker l) (RetryAttempts cfg)
        (apiClient w)
    with
    | (inr _, c) => (Ret (Stop (Completed (failed l))), afterFetch c w)
    | (inl page, c) =>
        let w := afterFetch c w in
        let l := fetched l in
        if 0 <? Z.of_nat (List.length (Api.Events page)) then
          match forwardEvents (Api.Events page) w with
          | (Panic, w) => (Panic, w)
          | (Ret (_, Some _), w) => (Ret (Again (failed l)), w)
          | (Ret (forwarded, None), w) =>
              let l := counted forwarded l in
              let w :=
                withStats
                  (IncrementEventsForwarded (Z.of_nat forwarded) (stats w)) w in
              finishPass page l w
          end
        else finishPass page l w
    end.

(** The loop itself.  [remaining] stands for
    [MaxPagination - paginationCount]: the guard holds exactly while it is
    positive, and every pass that goes back to the guard has incremented
    [paginationCount] once. *)
Fixpoint pageLoop (remaining : nat) (l : Locals) (w : World)
  : Res CycleResult * World :=
  match remaining with
  | O => (Ret (Completed l), w)
  | S remaining' =>
      match pass l w with
      | (Panic, w') => (Panic, w')
      | (Ret (Stop r), w') => (Ret r, w')
      | (Ret (Again l'), w') => pageLoop remaining' l' w'
      end
  end.

(** The elapsed time and the events-per-second figure of the summary are
    left out: they are only logged. *)
Definition ProcessEvents (w : World) : Res CycleResult * World :=
  let current := Marker.Get (markerManager w) in
  let w := withStats (IncrementAPIRequests (stats w)) w in
  pageLoop (Z.to_nat (MaxPagination cfg)) (mkLocals 0 O current O O) w.

(** A recovered panic leaves the unnamed [bool] result at its zero value. *)
Definition ProcessWithRecovery (w : World) : bool * World :=
  match ProcessEvents w with
  | (Panic, w') => (false, withStats (IncrementFailedAPIRequests (stats w')) w')
  | (Ret Cancelled, w') =>
      (false, withStats (IncrementFailedAPIRequests (stats w')) w')
  | (Ret (Completed _), w') => (true, w')
  end.

End WithProcessor.

End Processor.

(** ** Package main: the service loop *)

Module Main.

Import Processor.

(** [backoffDelay] is the variable of that name; [period] is the period the
    ticker was last given by [time.NewTicker] or [ticker.Reset]. *)
Record Scheduler := mkScheduler {
  backoffDelay : Z;
  period : Z
}.

Definition maxBackoff (cfg : Config) : Z := wrap64 (MaxBackoffDelay cfg * Second).

Definition fetchInterval (cfg : Config) : Z := wrap64 (FetchInterval cfg * Second).

(** [time.NewTicker] and [ticker.Reset] panic on a period that is not
    positive; nothing in [main] recovers from that. *)
Definition resetTicker (d : Z) (backoff : Z) : Res Scheduler :=
  if d <=? 0 then Panic else Ret (mkScheduler backoff d).

(** The state when the loop is entered. *)
Definition start (cfg : Config) : Res Scheduler :=
  resetTicker (fetchInterval cfg) (1 * Second).

(** The [case <-ticker.C] branch after the cycle has returned [success]. *)
Definition onCycle (cfg : Config) (success : bool) (s : Scheduler) : Res Scheduler :=
  if success then resetTicker (fetchInterval cfg) (1 * Second)
  else
    let doubled := wrap64 (backoffDelay s * 2) in
    resetTicker (backoffDelay s)
      (if doubled >? maxBackoff cfg then maxBackoff cfg else doubled).

(** The scheduler driven by the results of the timer's cycles, oldest
    first. *)
Fixpoint schedule (cfg : Config) (outcomes : list bool) (s : Scheduler)
  : Res Scheduler :=
  match outcomes with
  | [] => Ret s
  | success :: rest =>
      match onCycle cfg success s with
      | Panic => Panic
      | Ret s' => schedule cfg rest s'
      end
  end.

Section WithProcessor.

Variable env : Env.
Variable cfg : Config.
Variable cefFormatter : Cef.Formatter.

(** [ticks] firings of the timer, each running one cycle; the results of
    the cycles are listed oldest first. *)
Fixpoint timerCycles (ticks : nat) (s : Scheduler) (w : World)
  : Res Scheduler * list bool * World :=
  match ticks with
  | O => (Ret s, [], w)
  | S ticks' =>
      let (success, w') := ProcessWithRecovery env cfg cefFormatter w in
      match onCycle cfg success s with
      | Panic => (Panic, [success], w')
      | Ret s' =>
          let '(r, outcomes, w'') := timerCycles ticks' s' w' in
          (r, success :: outcomes, w'')
      end
  end.

(** [main] from the first cycle on: the cycle run at once, whose result is
    only logged, then the timer's cycles. *)
Definition serve (ticks : nat) (w : World) : Res Scheduler * list bool * World :=
  match start cfg with
  | Panic => (Panic, [], w)
  | Ret s =>
      let (_, w') := ProcessWithRecovery env cfg cefFormatter w in
      timerCycles ticks s w'
  end.

End WithProcessor.

End Main.

(** ** Go's strings.TrimSpace *)

Module GoStrings.

Definition asciiSpace (c : ascii) : bool :=
  Ascii.eqb c "009"%char || Ascii.eqb c "010"%char || Ascii.eqb c "011"%char
  || Ascii.eqb c "012"%char || Ascii.eqb c "013"%char || Ascii.eqb c " "%char.

(** [c < utf8.RuneSelf] *)
Definition isASCII (c : ascii) : bool := (N_of_ascii c <? 128)%N.

Section TrimSpace.

(** The Unicode-aware fallbacks [TrimFunc(s, unicode.IsSpace)] and
    [TrimRightFunc(s, unicode.IsSpace)] of the library are left abstract. *)
Variable trimUnicode : string -> string.
Variable trimRightUnicode : string -> string.

(** The first loop: [inl rest] when it stops at an ASCII byte that is not a
    space (or at the end), [inr result] when it meets a byte that is not
    ASCII and falls back. *)
Fixpoint trimLeft (s : string) : string + string :=
  match s with
  | EmptyString => inl EmptyString
  | String c s' =>
      if negb (isASCII c) then inr (trimUnicode s)
      else if asciiSpace c then trimLeft s'
      else inl s
  end.

(** The second loop, over the bytes of [s[start:]] from the last one
    backwards; [reversed] holds them last byte first. *)
Fixpoint trimRight (reversed : list ascii) : string :=
  match reversed with
  | [] => EmptyString
  | c :: rest =>
      if negb (isASCII c) then
        trimRightUnicode (string_of_list_ascii (rev reversed))
      else if asciiSpace c then trimRight rest
      else string_of_list_ascii (rev reversed)
  end.

Definition TrimSpace (s : string) : string :=
  match trimLeft s with
  | inr result => result
  | inl rest => trimRight (rev (list_ascii_of_string rest))
  end.

End TrimSpace.

End GoStrings.

(** ** The marker file: loading at start-up, and the pre-flight check *)

Module MarkerFile.

(** The marker file on disk: its content, [None] when there is no file. *)
Definition File := option string.

Inductive ReadOutcome :=
| NotExist
| ReadError
| Content (data : string).

(** [os.ReadFile] on the marker file; [readable] tells whether reading an
    existing file succeeds. *)
Definition ReadFile (readable : bool) (file : File) : ReadOutcome :=
  match file with
  | None => NotExist
  | Some data => if readable then Content data else ReadError
  end.

(** [os.WriteFile]: the data is on disk, or the write failed and left the
    file as [residue]. *)
Inductive WriteOutcome :=
| Written
| WriteFailed (residue : File).

Definition WriteFile (o : WriteOutcome) (data : string) : File :=
  match o with
  | Written => Some data
  | WriteFailed residue => residue
  end.

Section WithTrim.

Variable trimUnicode : string -> string.
Variable trimRightUnicode : string -> string.

(** [Manager.Load]: the error of [os.ReadFile], if any; otherwise the
    trimmed content becomes the cursor. *)
Definition Load (r : ReadOutcome) (m : Marker.Manager)
  : option ReadOutcome * Marker.Manager :=
  match r with
  | Content data =>
      (None,
       Marker.mkManager (GoStrings.TrimSpace trimUnicode trimRightUnicode data)
         (Marker.fsCalls m) (Marker.persisted m))
  | err => (Some err, m)
  end.

(** [marker.New]: [None] is the error return. *)
Definition New (r : ReadOutcome) : option Marker.Manager :=
  let m := Marker.mkManager "" O [] in
  match Load r m with
  | (Some NotExist, m') => Some m'
  | (Some _, _) => None
  | (None, m') => Some m'
  end.

End WithTrim.

End MarkerFile.

(** ** Package preflight *)

Module Preflight.

Import MarkerFile.

Inductive CheckError :=
| ErrOS
| ErrMismatch (wrote read : string)
| ErrHTTP (status : Z)
| ErrGraphQL (message : string)
| ErrFetchedCount (count : Z).

Record CheckResult := mkResult {
  Name : string;
  Passed : bool;
  Message : string;
  Error : option CheckError
}.

(** What the four file-system calls of [CheckMarkerFileAccess] meet. *)
Record MarkerIO := mkMarkerIO {
  mkdirOk : bool;
  writeTest : WriteOutcome;
  readable : bool;
  writeClear : WriteOutcome
}.

Definition testData : string := "preflight-test".

(** [dir] is [filepath.Dir(markerFile)].  The result comes with the marker
    file as the check leaves it.  Nothing else writes the file meanwhile, so
    the read returns what the test write stored. *)
Definition CheckMarkerFileAccess (dir markerFile : string) (io : MarkerIO)
    (file : File) : CheckResult * File :=
  let name := "Marker File Access" in
  if negb (mkdirOk io) then
    (mkResult name false ("cannot create marker directory: " ++ dir) (Some ErrOS),
     file)
  else
    match writeTest io with
    | WriteFailed residue =>
        (mkResult name false ("cannot write to marker file: " ++ markerFile)
           (Some ErrOS),
         residue)
    | Written =>
        let file := WriteFile Written testData in
        match ReadFile (readable io) file with
        | Content data =>
            if negb (String.eqb data testData) then
              (mkResult name false "marker file read/write mismatch"
                 (Some (ErrMismatch testData data)),
               file)
            else
              (mkResult name true
                 ("marker file is readable and writable: " ++ markerFile) None,
               WriteFile (writeClear io) "")
        | _ =>
            (mkResult name false ("cannot read from marker file: " ++ markerFile)
               (Some ErrOS),
             file)
        end
    end.

(** What the request of [CheckAPIConnectivity] meets; the body of a 200
    response is decoded into the errors' messages and [fetchedCount]. *)
Inductive ApiOutcome :=
| CannotMarshal
| CannotBuild
| CannotConnect
| CannotRead
| Status (code : Z) (body : option (list string * Z)).

Definition CheckAPIConnectivity (apiURL accountID : string) (o : ApiOutcome)
  : CheckResult :=
  let name := "Cato API Connectivity" in
  match o with
  | CannotMarshal => mkResult name false "failed to marshal API request" (Some ErrOS)
  | CannotBuild => mkResult name false "failed to create API request" (Some ErrOS)
  | CannotConnect =>
      mkResult name false ("cannot connect to Cato API at " ++ apiURL) (Some ErrOS)
  | CannotRead => mkResult name false "failed to read API response" (Some ErrOS)
  | Status code body =>
      if code =? 401 then
        mkResult name false "API authentication failed - check your API key"
          (Some (ErrHTTP 401))
      else if code =? 403 then
        mkResult name false
          "API access forbidden - ensure Events Integration is enabled and API key has eventsFeed permissions"
          (Some (ErrHTTP 403))
      else if negb (code =? 200) then
        mkResult name false
          ("API returned unexpected status: " ++ Cef.decimal code)
          (Some (ErrHTTP code))
      else
        match body with
        | None => mkResult name false "failed to parse API response" (Some ErrOS)
        | Some (errMsg :: _, _) =>
            mkResult name false ("API GraphQL error: " ++ errMsg)
              (Some (ErrGraphQL errMsg))
        | Some ([], fetchedCount) =>
            if fetchedCount <? 0 then
              mkResult name false "API returned invalid data structure"
                (Some (ErrFetchedCount fetchedCount))
            else
              mkResult name true
                ("Cato API is accessible and authenticated (account: "
                 ++ accountID ++ ")") None
        end
  end.

(** What [CheckSyslogConnectivity] meets: the dial, setting the write
    deadline, the write of the test message. *)
Inductive SyslogOutcome :=
| DialFails
| DeadlineFails
| TestWriteFails
| TestWritten.

Definition CheckSyslogConnectivity (protocol address : string) (o : SyslogOutcome)
  : CheckResult :=
  let name := "Syslog Connectivity" in
  let target := protocol ++ "://" ++ address in
  match o with
  | DialFails =>
      mkResult name false ("cannot connect to syslog server at " ++ target)
        (Some ErrOS)
  | DeadlineFails =>
      mkResult name false "cannot set write deadline on syslog connection"
        (Some ErrOS)
  | TestWriteFails =>
      mkResult name false ("cannot write to syslog server at " ++ target)
        (Some ErrOS)
  | TestWritten =>
      mkResult name true ("syslog server is reachable at " ++ target) None
  end.

Record Checks := mkChecks {
  markerIO : MarkerIO;
  syslogOutcome : SyslogOutcome;
  apiOutcome : ApiOutcome
}.

(** [RunAll]: the three results in the order they are run, and the marker
    file afterwards. *)
Definition RunAll (apiURL accountID syslogProtocol syslogAddress : string)
    (dir markerFile : string) (checks : Checks) (file : File)
  : list CheckResult * File :=
  let (markerResult, file') :=
    CheckMarkerFileAccess dir markerFile (markerIO checks) file in
  ([ markerResult;
     CheckSyslogConnectivity syslogProtocol syslogAddress (syslogOutcome checks);
     CheckAPIConnectivity apiURL accountID (apiOutcome checks) ],
   file').

Fixpoint HasFailures (results : list CheckResult) : bool :=
  match results with
  | [] => false
  | result :: rest => if negb (Passed result) then true else HasFailures rest
  end.

(** [joinStrings]: the loop over [strs[1:]] appends to [result]. *)
Definition joinStrings (strs : list string) (sep : string) : string :=
  match strs with
  | [] => ""
  | first :: rest => fold_left (fun result s => result ++ sep ++ s) rest first
  end.

Definition failureLines (results : list CheckResult) : list string :=
  flat_map
    (fun result =>
       if negb (Passed result)
       then ["  - " ++ Name result ++ ": " ++ Message result] else [])
    results.

Definition FormatFailures (results : list CheckResult) : string :=
  let failures := failureLines results in
  match failures with
  | [] => ""
  | _ :: _ =>
      "Pre-flight checks failed:" ++ Syslog.newline
        ++ joinStrings failures Syslog.newline
  end.

End Preflight.

(** ** Package logging: levels and formats *)

Module Logging.

(** [Level] is an [int]. *)
Definition Level := Z.

Definition DEBUG : Level := 0.
Definition INFO : Level := 1.
Definition WARN : Level := 2.
Definition ERROR : Level := 3.

Definition levelString (l : Level) : string :=
  if l =? DEBUG then "debug"
  else if l =? INFO then "info"
  else if l =? WARN then "warn"
  else if l =? ERROR then "error"
  else "unknown".

(** The second component tells whether the error is [nil]. *)
Definition ParseLevel (s : string) : Level * bool :=
  if String.eqb s "debug" then (DEBUG, true)
  else if String.eqb s "info" then (INFO, true)
  else if String.eqb s "warn" then (WARN, true)
  else if String.eqb s "error" then (ERROR, true)
  else (INFO, false).

Inductive Format := JSON | TEXT.

Definition ParseFormat (s : string) : Format * bool :=
  if String.eqb s "json" then (JSON, true)
  else if String.eqb s "text" then (TEXT, true)
  else (TEXT, false).

Inductive Output := Stdout | Stderr | LogFile (path : string).

Record Logger := mkLogger {
  level : Level;
  format : Format;
  output : Output
}.

(** [New]; [opens] tells whether the log file can be opened. *)
Definition New (levelStr formatStr outputStr : string) (opens : bool)
  : option Logger :=
  let level := if snd (ParseLevel levelStr) then fst (ParseLevel levelStr) else INFO in
  let format :=
    if snd (ParseFormat formatStr) then fst (ParseFormat formatStr) else TEXT in
  if String.eqb outputStr "stdout" || String.eqb outputStr "" then
    Some (mkLogger level format Stdout)
  else if String.eqb outputStr "stderr" then Some (mkLogger level format Stderr)
  else if opens then Some (mkLogger level format (LogFile outputStr))
  else None.

(** Whether [Debug], [Info], [Warn] or [Error], called at [messageLevel],
    writes a record. *)
Definition writes (l : Logger) (messageLevel : Level) : bool :=
  level l <=? messageLevel.

End Logging.

(** ** Package config *)

Module Configuration.

Record Config := mkConfig {
  CatoAPIURL : string;
  CatoAPIKey : string;
  CatoAccountID : string;
  SyslogServer : string;
  SyslogPort : Z;
  SyslogProtocol : string;
  MaxMsgSize : Z;
  UseEventIP : bool;
  CustomSourceIP : string;
  CEFVendor : string;
  CEFProduct : string;
  CEFVersion : string;
  FieldMappings : StrMap;
  OrderedFields : list string;
  FetchInterval : Z;
  MaxEvents : Z;
  MaxPagination : Z;
  RetryAttempts : Z;
  RetryDelay : Z;
  MaxBackoffDelay : Z;
  ConnTimeout : Z;
  MarkerFile : string;
  LogLevel : string;
  LogFormat : string;
  LogOutput : string;
  Verbose : bool;
  ConfigPath : string
}.

Inductive ValidateError :=
| ErrMissing (fields : list string)
| ErrLogLevel (given : string)
| ErrLogFormat (given : string)
| ErrProtocol (given : string)
| ErrFetchInterval (given : Z)
| ErrMaxEvents (given : Z)
| ErrMaxPagination (given : Z)
| ErrRetryAttempts (given : Z)
| ErrConnTimeout (given : Z).

(** [missing = append(missing, name)] under its condition. *)
Definition appendIf (cond : bool) (name : string) (missing : list string)
  : list string :=
  if cond then (missing ++ [name])%list else missing.

Definition missingFields (c : Config) : list string :=
  let missing := [] in
  let missing := appendIf (String.eqb (CatoAPIKey c) "") "cato.api_key" missing in
  let missing := appendIf (String.eqb (CatoAccountID c) "") "cato.account_id" missing in
  let missing := appendIf (String.eqb (SyslogServer c) "") "syslog.server" missing in
  let missing := appendIf (SyslogPort c <=? 0) "syslog.port" missing in
  let missing := appendIf (String.eqb (SyslogProtocol c) "") "syslog.protocol" missing in
  let missing :=
    appendIf (Nat.eqb (List.length (FieldMappings c)) 0) "cef.field_mappings" missing in
  missing.

(** A [map[string]bool] literal whose values are all [true], read at a
    key. *)
Definition isTrueIn (valid : list string) (key : string) : bool :=
  existsb (String.eqb key) valid.

Definition Validate (c : Config) : option ValidateError :=
  let missing := missingFields c in
  if 0 <? Z.of_nat (List.length missing) then Some (ErrMissing missing)
  else if negb (isTrueIn ["debug"; "info"; "warn"; "error"] (LogLevel c)) then
    Some (ErrLogLevel (LogLevel c))
  else if negb (isTrueIn ["json"; "text"] (LogFormat c)) then
    Some (ErrLogFormat (LogFormat c))
  else if negb (isTrueIn ["tcp"; "udp"] (SyslogProtocol c)) then
    Some (ErrProtocol (SyslogProtocol c))
  else if FetchInterval c <? 10 then Some (ErrFetchInterval (FetchInterval c))
  else if (MaxEvents c <? 1) || (MaxEvents c >? 5000) then
    Some (ErrMaxEvents (MaxEvents c))
  else if MaxPagination c <? 1 then Some (ErrMaxPagination (MaxPagination c))
  else if RetryAttempts c <? 0 then Some (ErrRetryAttempts (RetryAttempts c))
  else if ConnTimeout c <? 1 then Some (ErrConnTimeout (ConnTimeout c))
  else None.

(** The end of [loadFromJSON]: the limit put on [MaxEvents]. *)
Definition enforceMaxEvents (c : Config) : Config :=
  if MaxEvents c >? 5000 then
    mkConfig (CatoAPIURL c) (CatoAPIKey c) (CatoAccountID c) (SyslogServer c)
      (SyslogPort c) (SyslogProtocol c) (MaxMsgSize c) (UseEventIP c)
      (CustomSourceIP c) (CEFVendor c) (CEFProduct c) (CEFVersion c)
      (FieldMappings c) (OrderedFields c) (FetchInterval c) 5000
      (MaxPagination c) (RetryAttempts c) (RetryDelay c) (MaxBackoffDelay c)
      (ConnTimeout c) (MarkerFile c) (LogLevel c) (LogFormat c) (LogOutput c)
      (Verbose c) (ConfigPath c)
  else c.

Definition SyslogAddress (c : Config) : string :=
  SyslogServer c ++ ":" ++ Cef.decimal (SyslogPort c).

(** What [main] hands to the processor and to [cef.NewFormatter]. *)
Definition processorConfig (c : Config) : Processor.Config :=
  Processor.mkConfig (MaxMsgSize c) (UseEventIP c) (CustomSourceIP c)
    (FetchInterval c) (MaxPagination c) (RetryAttempts c) (RetryDelay c)
    (MaxBackoffDelay c).

Definition NewFormatter (c : Config) : Cef.Formatter :=
  Cef.mkFormatter (CEFVendor c) (CEFProduct c) (CEFVersion c) (FieldMappings c)
    (OrderedFields c).

End Configuration.

(** ** Package main: start-up *)

Module Startup.

Import Configuration.

Section WithTrim.

Variable trimUnicode : string -> string.
Variable trimRightUnicode : string -> string.

(** [main] from the validation of the configuration to the marker manager:
    [None] is an [os.Exit(1)].  [dir] is the directory of the marker file,
    [readable] tells whether [marker.New] can read the file, and the marker
    file is threaded through. *)
Definition initialize (c : Config) (dir : string) (checks : Preflight.Checks)
    (readable : bool) (file : MarkerFile.File)
  : option Marker.Manager * MarkerFile.File :=
  match Validate c with
  | Some _ => (None, file)
  | None =>
      let (results, file') :=
        Preflight.RunAll (CatoAPIURL c) (CatoAccountID c) (SyslogProtocol c)
          (SyslogAddress c) dir (MarkerFile c) checks file in
      if Preflight.HasFailures results then (None, file')
      else
        (MarkerFile.New trimUnicode trimRightUnicode
           (MarkerFile.ReadFile readable file'),
         file')
  end.

End WithTrim.

End Startup.

(** * The vocabulary of the statements *)

Module Spec.

Import Processor.

(** The number of lines the collector has accepted. *)
Definition deliveredCount (w : World) : nat :=
  List.length (Syslog.delivered (syslogWriter w)).

(** The round trip answers 200 with a well-formed body that carries a
    non-empty marker and at least one event. *)
Definition hasMoreData (o : Api.HttpOutcome) : Prop :=
  exists response m,
    o = Api.Reply 200 (Some response)
    /\ Api.Errors response = []
    /\ Api.Marker response = Some m /\ m <> ""
    /\ Api.extractEvents response <> [].

Section OverCycle.

Variable env : Env.
Variable cfg : Config.
Variable cefFormatter : Cef.Formatter.

(** [Tracked w0 w]: since [w0], the values written to the marker file
    ([saved], most recent first) are non-empty markers of pages returned by
    round trips made since [w0], and the cursor in memory is the most recent
    of them, or the cursor of [w0] when nothing was written. *)
Definition Tracked (w0 w : World) : Prop :=
  (Api.calls (apiClient w0) <= Api.calls (apiClient w))%nat
  /\ exists saved,
       Marker.persisted (markerManager w)
       = (saved ++ Marker.persisted (markerManager w0))%list
       /\ Marker.marker (markerManager w)
          = hd (Marker.marker (markerManager w0)) saved
       /\ forall x, In x saved ->
            x <> ""
            /\ exists k page,
                 (Api.calls (apiClient w0) <= k < Api.calls (apiClient w))%nat
                 /\ Api.parsePage (http env k) = inl page
                 /\ Api.NewMarker page = x.

(** The ways through one pass. *)
Inductive PassCase (l : Locals) (w : World) : Res Step * World -> Prop :=
| PassCancelled :
    ctxDone env (donePolls w) = true ->
    PassCase l w (Ret (Stop Cancelled), polled w)
| PassFetchFailed lastErr c :
    ctxDone env (donePolls w) = false ->
    Api.FetchWithRetry (http env) (currentMarker l) (RetryAttempts cfg) (apiClient w)
    = (inr lastErr, c) ->
    PassCase l w (Ret (Stop (Completed (failed l))), afterFetch c (polled w))
| PassEmptyPage page c :
    ctxDone env (donePolls w) = false ->
    Api.FetchWithRetry (http env) (currentMarker l) (RetryAttempts cfg) (apiClient w)
    = (inl page, c) ->
    Api.Events page = [] ->
    PassCase l w (finishPass env page (fetched l) (afterFetch c (polled w)))
| PassPanic page c w2 :
    ctxDone env (donePolls w) = false ->
    Api.FetchWithRetry (http env) (currentMarker l) (RetryAttempts cfg) (apiClient w)
    = (inl page, c) ->
    Api.Events page <> [] ->
    forwardEvents env cfg cefFormatter (Api.Events page) (afterFetch c (polled w))
    = (Panic, w2) ->
    PassCase l w (Panic, w2)
| PassForwardFailed page c k err w2 :
    ctxDone env (donePolls w) = false ->
    Api.FetchWithRetry (http env) (currentMarker l) (RetryAttempts cfg) (apiClient w)
    = (inl page, c) ->
    Api.Events page <> [] ->
    forwardEvents env cfg cefFormatter (Api.Events page) (afterFetch c (polled w))
    = (Ret (k, Some err), w2) ->
    PassCase l w (Ret (Again (failed (fetched l))), w2)
| PassForwarded page c k w2 :
    ctxDone env (donePolls w) = false ->
    Api.FetchWithRetry (http env) (currentMarker l) (RetryAttempts cfg) (apiClient w)
    = (inl page, c) ->
    Api.Events page <> [] ->
    forwardEvents env cfg cefFormatter (Api.Events page) (afterFetch c (polled w))
    = (Ret (k, None), w2) ->
    PassCase l w
      (finishPass env page (counted k (fetched l))
         (withStats (IncrementEventsForwarded (Z.of_nat k) (stats w2)) w2)).

End OverCycle.

Section OverNet.

Import Syslog.

Variable net : Net.

(** A sequence of calls on the writer: the only two methods that change it
    between construction and shutdown. *)
Inductive Call :=
| CallWrite (message : string)
| CallReconnect.

Definition call (w : Writer) (c : Call) : Writer :=
  match c with
  | CallWrite message => snd (Write net message w)
  | CallReconnect => snd (Reconnect net w)
  end.

Definition after (cs : list Call) (w : Writer) : Writer := fold_left call cs w.

(** Nothing moved but the count of clock readings. *)
Definition onlyClockRead (w w' : Writer) : Prop :=
  w' = mkWriter (conn w) (reconnectCount w) (lastReconnect w) (maxReconnects w)
         (reconnectDelay w) (writes w) (dials w) (closes w) (S (clockReads w))
         (delivered w).

Definition sinceLast (w : Writer) : Z :=
  Sub (now net (clockReads w)) (lastReconnect w).

End OverNet.

(** The number of failures since the last success (or since the start). *)
Definition streak (outcomes : list bool) : nat :=
  fold_left (fun k success => if (success : bool) then O else S k) outcomes O.

(** The delay the k-th failure in a row finds in [backoffDelay], counting
    from zero: the base doubled k times, held at the ceiling. *)
Definition delayAfter (cfg : Config) (k : nat) : Z :=
  Z.min (Second * 2 ^ Z.of_nat k) (Main.maxBackoff cfg).

(** Two association lists are the same map. *)
Definition MapEq (m m' : StrMap) : Prop := forall k, lookup k m = lookup k m'.

Section OverAssignments.

Variable A : Type.
Variables (key val : A -> string) (cond : A -> bool).

(** One conditional assignment [extensions[key x] = val x]. *)
Definition put (e : StrMap) (x : A) : StrMap :=
  if cond x then assign (key x) (val x) e else e.

End OverAssignments.

(** The extension map built by the first two loops. *)
Definition extensionsOf (table fields : StrMap) : StrMap :=
  Cef.addUnmapped table fields (Cef.applyMappings table fields []).

(** One step of the loop over the ordered fields. *)
Definition emitStep (acc : list string * StrMap) (field : string)
  : list string * StrMap :=
  match lookup field (snd acc) with
  | Some value =>
      ((fst acc ++ [Cef.pair_text field value])%list, remove_key field (snd acc))
  | None => acc
  end.

End Spec.

Import Spec.

(** * Scenarios

    Concrete configurations, environments and states on which the
    statements below are exercised. *)

Module Scenario.

Import Processor.

(** A reading of the clock in 2026, in nanoseconds since the zero time. *)
Definition year2026 : Z := 63900000000 * Second.

Definition cfg : Config := mkConfig 8192 false "collector" 60 10 3 2 300.

Definition formatter : Cef.Formatter :=
  Cef.mkFormatter "Cato" "SASE" "1.0" [("src_ip", "src")] ["src"].

Definition threat : StrMap :=
  [("event_type", "Threat"); ("event_sub_type", "Login"); ("src_ip", "1.2.3.4")].

Definition reply (marker : option string) (events : list StrMap) : Api.HttpOutcome :=
  Api.Reply 200
    (Some (Api.mkResponse marker (Z.of_nat (List.length events))
             [Api.mkAccount "1714" "" events] [])).

(** A collector that takes every line, and one that is gone. *)
Definition goodNet : Syslog.Net :=
  Syslog.mkNet (fun _ => true) (fun _ => true)
    (fun k => year2026 + Z.of_nat k * Second).

Definition deadNet : Syslog.Net :=
  Syslog.mkNet (fun _ => false) (fun _ => false) (fun k => year2026 + Z.of_nat k).

(** The service right after start-up, with [cursor] loaded from the marker
    file. *)
Definition fresh (cursor : string) : World :=
  mkWorld (Marker.mkManager cursor O []) (Api.mkClient O []) Syslog.NewWriter
    NewStats O O O.

(** Every round trip returns one event and a fresh one-letter marker
    ("A", "B", ...). *)
Definition busyServer (k : nat) : Api.HttpOutcome :=
  reply (Some (String (ascii_of_nat (65 + k mod 26)) "")) [threat].

Definition stamp (_ : nat) : string := "Oct 30 12:00:00".

(** The rename table and the ordered fields of the configuration example in
    the repository's README, and an event that has both a sub-type and an
    action. *)
Definition readmeMappings : StrMap :=
  [ ("event_type", "cat"); ("event_sub_type", "act"); ("src_ip", "src");
    ("dst_ip", "dst"); ("src_port", "spt"); ("dst_port", "dpt");
    ("protocol", "proto"); ("action", "act"); ("app", "app");
    ("timestamp", "start") ].

Definition readmeOrdered : list string :=
  ["start"; "end"; "src"; "dst"; "spt"; "dpt"; "proto"; "act"; "app"; "cat"].

Definition blocked : StrMap :=
  [ ("event_type", "Security"); ("event_sub_type", "Internet Firewall");
    ("action", "Block"); ("src_ip", "10.0.0.7") ].

Definition env (fs : nat -> Marker.FsOutcome) (http : nat -> Api.HttpOutcome)
    (net : Syslog.Net) (done : nat -> bool) : Env :=
  mkEnv fs http net done stamp (Some "forwarder-1").

End Scenario.

(** * Further vocabulary *)

From Stdlib Require Import Sorted.

Module Notions.

(** What [sanitizeValue] makes of one byte. *)
Definition escape (c : ascii) : string :=
  if Ascii.eqb c Cef.backslash then "\\"
  else if Ascii.eqb c "="%char then "\="
  else if Ascii.eqb c "|"%char then "\|"
  else if Ascii.eqb c Cef.LF then "\n"
  else if Ascii.eqb c Cef.CR then "\r"
  else String c EmptyString.

Fixpoint escapeAll (s : string) : string :=
  match s with
  | EmptyString => EmptyString
  | String c s' => escape c ++ escapeAll s'
  end.

(** The byte an escape pair stands for, given its second byte. *)
Definition escaped (d : ascii) : ascii :=
  if Ascii.eqb d "n"%char then Cef.LF
  else if Ascii.eqb d "r"%char then Cef.CR
  else d.

(** A reader of sanitized values. *)
Fixpoint unescape (s : string) : string :=
  match s with
  | EmptyString => EmptyString
  | String c s' =>
      if Ascii.eqb c Cef.backslash then
        match s' with
        | EmptyString => String c EmptyString
        | String d s'' => String (escaped d) (unescape s'')
        end
      else String c (unescape s')
  end.

(** The [key=value] pieces of a message, in the order they are joined. *)
Definition partsOf (f : Cef.Formatter) (fields : StrMap) : list string :=
  let r := fold_left emitStep (Cef.orderedFields f)
             ([], extensionsOf (Cef.fieldMappings f) fields) in
  (fst r ++ Cef.emitRemaining (snd r))%list.

(** Byte-wise order on strings, as [sort.Strings] uses it. *)
Definition ascending (a b : string) : Prop := String.leb a b = true.

(** [k] is a key of [m]. *)
Definition present (m : StrMap) (k : string) : bool :=
  match lookup k m with Some _ => true | None => false end.

(** [k] occurs in [l]. *)
Definition listed (l : list string) (k : string) : bool :=
  existsb (String.eqb k) l.

(** [l] without repetitions: each element is kept where it first occurs. *)
Fixpoint firstOccurrences (l : list string) : list string :=
  match l with
  | [] => []
  | x :: l' => x :: filter (fun y => negb (String.eqb y x)) (firstOccurrences l')
  end.

(** The index of the first successful round trip among [left] attempts
    starting at call [k], if any. *)
Fixpoint firstSuccess (http : nat -> Api.HttpOutcome) (k left : nat) : option nat :=
  match left with
  | O => None
  | S left' =>
      match Api.parsePage (http k) with
      | inl _ => Some k
      | inr _ => firstSuccess http (S k) left'
      end
  end.

(** The bytes of a string. *)
Definition bytes (s : string) : list ascii := list_ascii_of_string s.

(** The writer's failure counter is within its bounds. *)
Definition countInRange (w : Syslog.Writer) : Prop :=
  0 <= Syslog.reconnectCount w <= Syslog.maxReconnects w.

(** What a run of passes adds to the event total, against what it adds to
    the collector's lines: never more, and as much when no error was
    counted. *)
Definition accounted (l l' : Processor.Locals) (w w' : Processor.World) : Prop :=
  let sent := Z.of_nat (deliveredCount w') - Z.of_nat (deliveredCount w) in
  let counted :=
    Processor.totalEventsProcessed l' - Processor.totalEventsProcessed l in
  0 <= counted <= sent
  /\ (Processor.numErrors l <= Processor.numErrors l')%nat
  /\ (Processor.numErrors l' = Processor.numErrors l -> counted = sent).

(** A line of at most [MaxMsgSize] bytes and its line feed. *)
Definition fits (cfg : Processor.Config) (line : string) : Prop :=
  exists message,
    line = message ++ Syslog.newline
    /\ (String.length message <= Z.to_nat (Processor.MaxMsgSize cfg))%nat.

(** The lines of [w'] are those of [w] with lines that fit put on top. *)
Definition addsFitting (cfg : Processor.Config) (w w' : Processor.World) : Prop :=
  exists new,
    Syslog.delivered (Processor.syslogWriter w')
    = (new ++ Syslog.delivered (Processor.syslogWriter w))%list
    /\ Forall (fits cfg) new.



(** The configuration example of the repository's README. *)
Definition readmeConfig : Configuration.Config :=
  Configuration.mkConfig
    "https://api.catonetworks.com/api/v1/graphql2" "your_api_key_here"
    "your_account_id" "syslog.example.com" 514 "tcp" 8192 false ""
    "Cato Networks" "SASE Platform" "1.0" Scenario.readmeMappings
    Scenario.readmeOrdered 60 1000 10 3 2 300 30
    "/etc/cato-logger/last_marker.txt" "info" "json" "stdout" false
    "/etc/cato-logger/config.json".

(** The same with [max_backoff_delay_seconds] and [max_message_size] left
    out of the file, so that both are zero. *)
Definition sparseConfig : Configuration.Config :=
  Configuration.mkConfig
    "https://api.catonetworks.com/api/v1/graphql2" "your_api_key_here"
    "your_account_id" "syslog.example.com" 514 "tcp" 0 false ""
    "Cato Networks" "SASE Platform" "1.0" Scenario.readmeMappings
    Scenario.readmeOrdered 60 1000 10 3 2 0 30
    "/etc/cato-logger/last_marker.txt" "info" "json" "stdout" false
    "/etc/cato-logger/config.json".

(** The conditions [Validate] puts on a configuration. *)
Definition wellFormed (c : Configuration.Config) : Prop :=
  Configuration.CatoAPIKey c <> ""
  /\ Configuration.CatoAccountID c <> ""
  /\ Configuration.SyslogServer c <> ""
  /\ 0 < Configuration.SyslogPort c
  /\ Configuration.FieldMappings c <> []
  /\ In (Configuration.LogLevel c) ["debug"; "info"; "warn"; "error"]
  /\ In (Configuration.LogFormat c) ["json"; "text"]
  /\ In (Configuration.SyslogProtocol c) ["tcp"; "udp"]
  /\ 10 <= Configuration.FetchInterval c
  /\ 1 <= Configuration.MaxEvents c <= 5000
  /\ 1 <= Configuration.MaxPagination c
  /\ 0 <= Configuration.RetryAttempts c
  /\ 1 <= Configuration.ConnTimeout c.

End Notions.

Import Notions.

(** * Properties *)

(** ** Strings *)

Lemma nonempty_true (s : string) : nonempty s = true <-> s <> "".
Proof.
  unfold nonempty. destruct (String.eqb_spec s ""); simpl; split; congruence.
Qed.

Lemma nonempty_false (s : string) : nonempty s = false <-> s = "".
Proof.
  unfold nonempty. destruct (String.eqb_spec s ""); simpl; split; congruence.
Qed.

(** ** The marker store *)

Section MarkerStore.

Import Marker.

Variable fs : nat -> FsOutcome.

Lemma Update_noop (new : string) (m : Manager) :
  new = "" \/ new = marker m -> Update fs new m = (None, m).
Proof.
  intros [E | E]; subst new; unfold Update.
  - reflexivity.
  - rewrite String.eqb_refl, orb_true_r. reflexivity.
Qed.

Lemma Update_reaches_Save (new : string) (m : Manager) :
  new <> "" -> new <> marker m -> Update fs new m = Save fs new m.
Proof.
  intros Hne Hdiff. unfold Update.
  destruct (String.eqb_spec new ""); [contradiction|].
  destruct (String.eqb_spec new (marker m)); [contradiction|]. reflexivity.
Qed.

Lemma Update_written (new : string) (m : Manager) :
  new <> "" -> new <> marker m -> fs (fsCalls m) = WriteOk ->
  Update fs new m = (None, mkManager new (S (fsCalls m)) (new :: persisted m)).
Proof.
  intros Hne Hdiff Hok. rewrite Update_reaches_Save by assumption.
  unfold Save. destruct (String.eqb_spec new ""); [contradiction|].
  rewrite Hok. reflexivity.
Qed.

Lemma Update_write_failure (new : string) (m : Manager) :
  new <> "" -> new <> marker m -> fs (fsCalls m) <> WriteOk ->
  exists err,
    Update fs new m = (Some err, mkManager (marker m) (S (fsCalls m)) (persisted m)).
Proof.
  intros Hne Hdiff Hbad. rewrite Update_reaches_Save by assumption.
  unfold Save. destruct (String.eqb_spec new ""); [contradiction|].
  destruct (fs (fsCalls m)); [eexists; reflexivity .. | contradiction].
Qed.

(** Whatever [Update] does, the cursor afterwards is the old one with
    nothing written, or the new one, written. *)
Lemma Update_cases (new : string) (m : Manager) :
  let m' := snd (Update fs new m) in
  (marker m' = marker m /\ persisted m' = persisted m)
  \/ (new <> "" /\ marker m' = new /\ persisted m' = new :: persisted m).
Proof.
  destruct (String.eqb_spec new "") as [E|Hne].
  { left. rewrite Update_noop by auto. auto. }
  destruct (String.eqb_spec new (marker m)) as [E|Hdiff].
  { left. rewrite Update_noop by auto. auto. }
  destruct (fs (fsCalls m)) eqn:Hfs.
  - left. destruct (Update_write_failure new m Hne Hdiff) as [e ->]; [congruence|auto].
  - left. destruct (Update_write_failure new m Hne Hdiff) as [e ->]; [congruence|auto].
  - right. rewrite Update_written by assumption. auto.
Qed.

End MarkerStore.

(** ** The fetcher *)

Section Fetcher.

Import Api.

Variable http : nat -> HttpOutcome.

Lemma retryLoop_calls (left : nat) :
  forall marker lastErr c,
    let c' := snd (retryLoop http left marker lastErr c) in
    (calls c <= calls c' <= calls c + left)%nat.
Proof.
  induction left as [|left IH]; intros marker lastErr c; simpl.
  - lia.
  - destruct (parsePage (http (calls c))) as [page|err]; simpl.
    + lia.
    + specialize (IH marker (Some err) (mkClient (S (calls c)) (buildRequest marker :: requests c))).
      simpl in IH. lia.
Qed.

(** The page [FetchWithRetry] returns came from one of its round trips. *)
Lemma retryLoop_page (left : nat) :
  forall marker lastErr c page c',
    retryLoop http left marker lastErr c = (inl page, c') ->
    exists k, (calls c <= k < calls c')%nat /\ parsePage (http k) = inl page.
Proof.
  induction left as [|left IH]; intros marker lastErr c page c' H; simpl in H.
  - discriminate.
  - destruct (parsePage (http (calls c))) as [p|err] eqn:E.
    + injection H as <- <-. exists (calls c). simpl. split; [lia|assumption].
    + apply IH in H. destruct H as (k & Hk & Hp). simpl in Hk.
      exists k. split; [lia|assumption].
Qed.

(** When the next round trip succeeds, the first attempt returns its page. *)
Lemma retryLoop_first (left : nat) marker lastErr c page :
  parsePage (http (calls c)) = inl page ->
  retryLoop http (S left) marker lastErr c
  = (inl page, mkClient (S (calls c)) (buildRequest marker :: requests c)).
Proof. intros H. simpl. rewrite H. reflexivity. Qed.

End Fetcher.

(** ** The delivery channel *)

Section Delivery.

Import Syslog.

Variable net : Net.

Lemma Write_ok (message : string) (w w' : Writer) :
  Write net message w = (None, w') ->
  delivered w' = (message ++ newline) :: delivered w
  /\ reconnectCount w' = reconnectCount w /\ maxReconnects w' = maxReconnects w
  /\ dials w' = dials w /\ closes w' = closes w.
Proof.
  unfold Write. destruct (conn w) as [[|]|]; try discriminate.
  destruct (writeOk net (writes w)); [|discriminate].
  intros H. injection H as <-. simpl. auto.
Qed.

Lemma Write_failed (message : string) (w w' : Writer) (e : WriteError) :
  Write net message w = (Some e, w') ->
  delivered w' = delivered w
  /\ reconnectCount w' = reconnectCount w /\ maxReconnects w' = maxReconnects w
  /\ dials w' = dials w /\ closes w' = closes w.
Proof.
  unfold Write. destruct (conn w) as [[|]|].
  - destruct (writeOk net (writes w)); [discriminate|].
    intros H. injection H as _ <-. simpl. auto.
  - intros H. injection H as _ <-. auto.
  - intros H. injection H as _ <-. auto.
Qed.

Lemma Reconnect_delivered (w : Writer) :
  delivered (snd (Reconnect net w)) = delivered w.
Proof.
  unfold Reconnect.
  destruct (_ <? _); [reflexivity|].
  destruct (_ >=? _); [reflexivity|].
  destruct (dialOk net (dials w)); reflexivity.
Qed.

End Delivery.

(** ** One cycle *)

Section Cycle.

Import Processor.

Variable env : Env.
Variable cfg : Config.
Variable cefFormatter : Cef.Formatter.

Abbreviation send := (send env).
Abbreviation forwardLoop := (forwardLoop env cfg cefFormatter).
Abbreviation forwardEvents := (forwardEvents env cfg cefFormatter).
Abbreviation updateMarker := (updateMarker env).
Abbreviation finishPass := (finishPass env).
Abbreviation pass := (pass env cfg cefFormatter).
Abbreviation pageLoop := (pageLoop env cfg cefFormatter).
Abbreviation ProcessEvents := (ProcessEvents env cfg cefFormatter).
Abbreviation ProcessWithRecovery := (ProcessWithRecovery env cfg cefFormatter).
Abbreviation Tracked := (Tracked env).
Abbreviation PassCase := (PassCase env cfg cefFormatter).

Lemma send_ok (message : string) (wr wr' : Syslog.Writer) :
  send message wr = (None, wr') ->
  Syslog.delivered wr' = (message ++ Syslog.newline) :: Syslog.delivered wr.
Proof.
  unfold Processor.send.
  destruct (Syslog.Write (net env) message wr) as [[e|] wr1] eqn:W1.
  - destruct (Syslog.Reconnect (net env) wr1) as [[re|] wr2] eqn:R; [discriminate|].
    destruct (Syslog.Write (net env) message wr2) as [[e2|] wr3] eqn:W2; [discriminate|].
    intros H. injection H as <-.
    apply Write_ok in W2. apply Write_failed in W1.
    pose proof (Reconnect_delivered (net env) wr1) as D. rewrite R in D. simpl in D.
    destruct W2 as [-> _]. destruct W1 as [<- _]. rewrite D. reflexivity.
  - intros H. injection H as <-. apply Write_ok in W1. tauto.
Qed.

Lemma send_failed (message : string) (wr wr' : Syslog.Writer) (err : ForwardError) :
  send message wr = (Some err, wr') ->
  Syslog.delivered wr' = Syslog.delivered wr.
Proof.
  unfold Processor.send.
  destruct (Syslog.Write (net env) message wr) as [[e|] wr1] eqn:W1; [|discriminate].
  apply Write_failed in W1. destruct W1 as [D1 _].
  pose proof (Reconnect_delivered (net env) wr1) as D.
  destruct (Syslog.Reconnect (net env) wr1) as [[re|] wr2] eqn:R; simpl in D.
  - intros H. injection H as _ <-. congruence.
  - destruct (Syslog.Write (net env) message wr2) as [[e2|] wr3] eqn:W2; [|discriminate].
    apply Write_failed in W2. destruct W2 as [D2 _].
    intros H. injection H as _ <-. congruence.
Qed.

Lemma truncate_panics (m : string) : truncate (MaxMsgSize cfg) m = Panic -> MaxMsgSize cfg < 0.
Proof.
  unfold truncate. destruct (_ >? _); [|discriminate].
  destruct (Z.ltb_spec (MaxMsgSize cfg) 0); [auto|discriminate].
Qed.

(** What a batch leaves behind: only the writer and the timestamp count
    move, and the count returned is the number of lines delivered, also
    when the batch stops early. *)
Lemma forwardLoop_spec (events : list StrMap) :
  forall n w r w',
    forwardLoop events n w = (r, w') ->
    markerManager w' = markerManager w /\ apiClient w' = apiClient w
    /\ stats w' = stats w /\ fetches w' = fetches w /\ donePolls w' = donePolls w
    /\ match r with
       | Ret (k, None) =>
           k = (n + List.length events)%nat
           /\ deliveredCount w' = (deliveredCount w + List.length events)%nat
       | Ret (k, Some _) =>
           (n <= k < n + List.length events)%nat
           /\ deliveredCount w' = (deliveredCount w + (k - n))%nat
       | Panic => MaxMsgSize cfg < 0
       end.
Proof.
  induction events as [|fieldsMap rest IH]; intros n w r w' H; simpl in H.
  - injection H as <- <-. simpl. repeat split; lia.
  - destruct (truncate _ _) as [msg|] eqn:T.
    + destruct (send msg (syslogWriter w)) as [[err|] wr] eqn:S.
      * injection H as <- <-. apply send_failed in S. simpl in S.
        unfold deliveredCount. simpl. rewrite S.
        repeat split; try lia.
      * apply IH in H. apply send_ok in S. simpl in S.
        destruct H as (H1 & H2 & H3 & H4 & H5 & H6).
        simpl in H1, H2, H3, H4, H5.
        repeat (split; [assumption|]).
        unfold deliveredCount in *. simpl in H6. rewrite S in H6. simpl in H6.
        destruct r as [[k [e|]]|]; simpl; [lia | lia | assumption].
    + injection H as <- <-. apply truncate_panics in T. simpl. repeat split; auto.
Qed.

(** The marker step touches the manager only, and only through
    [Marker.Update] on the page's marker. *)
Lemma updateMarker_spec (page : Api.EventsPage) (l l' : Locals) (w w' : World) :
  updateMarker page l w = (l', w') ->
  apiClient w' = apiClient w /\ syslogWriter w' = syslogWriter w
  /\ stats w' = stats w /\ fetches w' = fetches w /\ donePolls w' = donePolls w
  /\ paginationCount l' = paginationCount l
  /\ totalEventsProcessed l' = totalEventsProcessed l
  /\ (markerManager w' = markerManager w
      \/ markerManager w'
         = snd (Marker.Update (fs env) (Api.NewMarker page) (markerManager w))).
Proof.
  unfold Processor.updateMarker.
  destruct (_ && _).
  - destruct (Marker.Update _ _ _) as [[e|] m] eqn:U;
      intros H; injection H as <- <-; simpl; repeat split; auto.
  - intros H; injection H as <- <-. repeat split; auto.
Qed.

Lemma finishPass_spec (page : Api.EventsPage) (l : Locals) (w : World) :
  exists l' w',
    updateMarker page l w = (l', w')
    /\ finishPass page l w
       = (Ret (if Api.HasMore page then Again l' else Stop (Completed l')), w').
Proof.
  unfold Processor.finishPass.
  destruct (updateMarker page l w) as [l' w'].
  exists l', w'. split; [reflexivity|].
  destruct (Api.HasMore page); reflexivity.
Qed.

Lemma has_events (A : Type) (events : list A) :
  (0 <? Z.of_nat (List.length events))
  = match events with [] => false | _ :: _ => true end.
Proof. destruct events; [reflexivity|]. apply Z.ltb_lt. simpl. lia. Qed.

Lemma pass_cases (l : Locals) (w : World) : PassCase l w (pass l w).
Proof.
  unfold Processor.pass.
  destruct (ctxDone env (donePolls w)) eqn:D.
  { now apply PassCancelled. }
  destruct (Api.FetchWithRetry _ _ _ _) as [[page|lastErr] c] eqn:F.
  2:{ eapply PassFetchFailed; eassumption. }
  rewrite has_events.
  destruct (Api.Events page) as [|ev evs] eqn:E.
  { eapply PassEmptyPage; eassumption. }
  rewrite <- E.
  assert (Api.Events page <> []) as NE by (rewrite E; discriminate).
  destruct (forwardEvents _ _) as [[[k [err|]]|] w2] eqn:FW.
  - eapply PassForwardFailed; eassumption.
  - eapply PassForwarded; eassumption.
  - eapply PassPanic; eassumption.
Qed.

(** *** Where the stored cursor comes from *)

Lemma Tracked_refl (w : World) : Tracked w w.
Proof.
  split; [lia|]. exists []. split; [reflexivity|]. split; [reflexivity|].
  intros x [].
Qed.

Lemma Tracked_frame (w0 w w' : World) :
  Tracked w0 w ->
  markerManager w' = markerManager w ->
  (Api.calls (apiClient w) <= Api.calls (apiClient w'))%nat ->
  Tracked w0 w'.
Proof.
  intros (Hc & saved & Hp & Hm & Hs) E Hle.
  split; [lia|]. exists saved. rewrite E.
  split; [assumption|]. split; [assumption|].
  intros x Hx. destruct (Hs x Hx) as (Hne & k & page & Hk & Hpage).
  split; [assumption|]. exists k, page. split; [lia|exact Hpage].
Qed.

Lemma Tracked_update (w0 w w' : World) (page : Api.EventsPage) (k : nat) :
  Tracked w0 w ->
  (Api.calls (apiClient w0) <= k < Api.calls (apiClient w))%nat ->
  Api.parsePage (http env k) = inl page ->
  apiClient w' = apiClient w ->
  markerManager w' = markerManager w
  \/ markerManager w'
     = snd (Marker.Update (fs env) (Api.NewMarker page) (markerManager w)) ->
  Tracked w0 w'.
Proof.
  intros T Hk Hpage Ec [Em|Em].
  - apply (Tracked_frame w0 w w' T Em). rewrite Ec. lia.
  - destruct T as (Hc & saved & Hp & Hm & Hs).
    split; [rewrite Ec; exact Hc|]. rewrite Ec, Em.
    destruct (Update_cases (fs env) (Api.NewMarker page) (markerManager w))
      as [[Um Up]|(Une & Um & Up)]; simpl in Um, Up.
    + exists saved. rewrite Um, Up. auto.
    + exists (Api.NewMarker page :: saved). rewrite Um, Up, Hp.
      split; [reflexivity|]. split; [reflexivity|].
      intros x [<-|Hx].
      * split; [assumption|]. exists k, page. auto.
      * apply (Hs x Hx).
Qed.

Lemma FetchWithRetry_page (l : Locals) (w : World) (page : Api.EventsPage) (c : Api.Client) :
  Api.FetchWithRetry (http env) (currentMarker l) (RetryAttempts cfg) (apiClient w)
  = (inl page, c) ->
  exists k, (Api.calls (apiClient w) <= k < Api.calls c)%nat
            /\ Api.parsePage (http env k) = inl page.
Proof. apply retryLoop_page. Qed.

Lemma FetchWithRetry_calls (l : Locals) (w : World) :
  let c := snd (Api.FetchWithRetry (http env) (currentMarker l) (RetryAttempts cfg)
                  (apiClient w)) in
  (Api.calls (apiClient w) <= Api.calls c
   <= Api.calls (apiClient w) + Z.to_nat (RetryAttempts cfg))%nat.
Proof. apply retryLoop_calls. Qed.

Lemma finishPass_Tracked (w0 w : World) (page : Api.EventsPage) (l : Locals) (k : nat) :
  Tracked w0 w ->
  (Api.calls (apiClient w0) <= k < Api.calls (apiClient w))%nat ->
  Api.parsePage (http env k) = inl page ->
  Tracked w0 (snd (finishPass page l w)).
Proof.
  intros T Hk Hpage.
  destruct (finishPass_spec page l w) as (l' & w' & U & ->). simpl.
  apply updateMarker_spec in U. destruct U as (Ec & _ & _ & _ & _ & _ & _ & Em).
  eapply Tracked_update; eassumption.
Qed.

Lemma pass_Tracked (w0 w : World) (l : Locals) :
  Tracked w0 w -> Tracked w0 (snd (pass l w)).
Proof.
  intros T. destruct (pass_cases l w) as
    [D | lastErr c D F | page c D F E | page c w2 D F E FW
     | page c k err w2 D F E FW | page c k w2 D F E FW]; simpl.
  - apply (Tracked_frame w0 w); auto.
  - pose proof (FetchWithRetry_calls l w) as Hc. rewrite F in Hc. simpl in Hc.
    apply (Tracked_frame w0 w); simpl; auto. lia.
  - pose proof (FetchWithRetry_calls l w) as Hc. rewrite F in Hc. simpl in Hc.
    destruct (FetchWithRetry_page l w page c F) as (j & Hj & Hpage).
    destruct T as [T0 T1].
    apply finishPass_Tracked with (k := j); simpl; [|lia|assumption].
    apply (Tracked_frame w0 w); simpl; [split; assumption|reflexivity|lia].
  - pose proof (FetchWithRetry_calls l w) as Hc. rewrite F in Hc. simpl in Hc.
    apply forwardLoop_spec in FW. destruct FW as (Em & Ec & _). simpl in Em, Ec.
    apply (Tracked_frame w0 w); auto. rewrite Ec. lia.
  - pose proof (FetchWithRetry_calls l w) as Hc. rewrite F in Hc. simpl in Hc.
    apply forwardLoop_spec in FW. destruct FW as (Em & Ec & _). simpl in Em, Ec.
    apply (Tracked_frame w0 w); auto. rewrite Ec. lia.
  - pose proof (FetchWithRetry_calls l w) as Hc. rewrite F in Hc. simpl in Hc.
    destruct (FetchWithRetry_page l w page c F) as (j & Hj & Hpage).
    apply forwardLoop_spec in FW. destruct FW as (Em & Ec & _). simpl in Em, Ec.
    destruct T as [T0 T1].
    apply finishPass_Tracked with (k := j); simpl; [|rewrite Ec; lia|assumption].
    apply (Tracked_frame w0 w); simpl; [split; assumption|assumption|rewrite Ec; lia].
Qed.

Lemma pageLoop_Tracked (w0 : World) (remaining : nat) :
  forall l w, Tracked w0 w -> Tracked w0 (snd (pageLoop remaining l w)).
Proof.
  induction remaining as [|remaining IH]; intros l w T; simpl.
  - exact T.
  - pose proof (pass_Tracked w0 w l T) as T'.
    destruct (pass l w) as [[[r|l']|] w']; simpl in *; auto.
Qed.

Lemma ProcessEvents_Tracked (w : World) : Tracked w (snd (ProcessEvents w)).
Proof.
  unfold Processor.ProcessEvents.
  apply pageLoop_Tracked. apply (Tracked_frame w w); simpl; auto using Tracked_refl.
Qed.

(** *** How many fetches a cycle makes *)

Lemma finishPass_counts (page : Api.EventsPage) (l : Locals) (w : World) :
  let w' := snd (finishPass page l w) in
  fetches w' = fetches w /\ apiClient w' = apiClient w.
Proof.
  destruct (finishPass_spec page l w) as (l' & w' & U & ->). simpl.
  apply updateMarker_spec in U. tauto.
Qed.

Lemma pass_counts (l : Locals) (w : World) :
  let w' := snd (pass l w) in
  (fetches w <= fetches w' <= fetches w + 1)%nat
  /\ (Api.calls (apiClient w) <= Api.calls (apiClient w')
      <= Api.calls (apiClient w) + Z.to_nat (RetryAttempts cfg))%nat.
Proof.
  pose proof (FetchWithRetry_calls l w) as Hc.
  destruct (pass_cases l w) as
    [D | lastErr c D F | page c D F E | page c w2 D F E FW
     | page c k err w2 D F E FW | page c k w2 D F E FW];
    try (rewrite F in Hc; simpl in Hc); simpl.
  - lia.
  - lia.
  - destruct (finishPass_counts page (fetched l) (afterFetch c (polled w))) as [-> ->].
    simpl. lia.
  - apply forwardLoop_spec in FW. destruct FW as (_ & -> & _ & -> & _). simpl. lia.
  - apply forwardLoop_spec in FW. destruct FW as (_ & -> & _ & -> & _). simpl. lia.
  - apply forwardLoop_spec in FW. destruct FW as (_ & Ec & _ & Ef & _).
    simpl in Ec, Ef.
    match goal with |- context [finishPass page ?l ?w] =>
      destruct (finishPass_counts page l w) as [-> ->] end.
    simpl. rewrite Ec, Ef. lia.
Qed.

Lemma pageLoop_counts (remaining : nat) :
  forall l w,
    let w' := snd (pageLoop remaining l w) in
    (fetches w' <= fetches w + remaining)%nat
    /\ (Api.calls (apiClient w')
        <= Api.calls (apiClient w) + remaining * Z.to_nat (RetryAttempts cfg))%nat.
Proof.
  induction remaining as [|remaining IH]; intros l w; simpl.
  - lia.
  - pose proof (pass_counts l w) as P. simpl in P.
    destruct (pass l w) as [[[r|l']|] w1]; simpl in *; try lia.
    specialize (IH l' w1). simpl in IH. lia.
Qed.

(** *** How a cycle can end *)

Lemma pass_cancelled_inv (l : Locals) (w w' : World) :
  pass l w = (Ret (Stop Cancelled), w') ->
  ctxDone env (donePolls w) = true /\ w' = polled w.
Proof.
  intros H. destruct (pass_cases l w) as
    [D | lastErr c D F | page c D F E | page c w2 D F E FW
     | page c k err w2 D F E FW | page c k w2 D F E FW]; try discriminate.
  - injection H as <-. auto.
  - destruct (finishPass_spec page (fetched l) (afterFetch c (polled w)))
      as (l1 & w1 & _ & R).
    rewrite R in H. destruct (Api.HasMore page); discriminate.
  - match type of H with finishPass page ?l ?w = _ =>
      destruct (finishPass_spec page l w) as (l1 & w1 & _ & R) end.
    rewrite R in H. destruct (Api.HasMore page); discriminate.
Qed.

Lemma pass_panic_inv (l : Locals) (w w' : World) :
  pass l w = (Panic, w') -> MaxMsgSize cfg < 0.
Proof.
  intros H. destruct (pass_cases l w) as
    [D | lastErr c D F | page c D F E | page c w2 D F E FW
     | page c k err w2 D F E FW | page c k w2 D F E FW]; try discriminate.
  - destruct (finishPass_spec page (fetched l) (afterFetch c (polled w)))
      as (l1 & w1 & _ & R).
    rewrite R in H. discriminate.
  - apply forwardLoop_spec in FW. tauto.
  - match type of H with finishPass page ?l ?w = _ =>
      destruct (finishPass_spec page l w) as (l1 & w1 & _ & R) end.
    rewrite R in H. discriminate.
Qed.

Lemma pageLoop_cancelled_inv (remaining : nat) :
  forall l w w',
    pageLoop remaining l w = (Ret Cancelled, w') ->
    exists k, ctxDone env k = true.
Proof.
  induction remaining as [|remaining IH]; intros l w w' H; simpl in H.
  - discriminate.
  - destruct (pass l w) as [[[r|l1]|] w1] eqn:P.
    + injection H as -> <-. apply pass_cancelled_inv in P.
      exists (donePolls w). tauto.
    + eapply IH; eassumption.
    + discriminate.
Qed.

Lemma pageLoop_panic_inv (remaining : nat) :
  forall l w w', pageLoop remaining l w = (Panic, w') -> MaxMsgSize cfg < 0.
Proof.
  induction remaining as [|remaining IH]; intros l w w' H; simpl in H.
  - discriminate.
  - destruct (pass l w) as [[[r|l1]|] w1] eqn:P.
    + discriminate.
    + eapply IH; eassumption.
    + eapply pass_panic_inv; eassumption.
Qed.

Lemma ProcessWithRecovery_result (w : World) :
  fst (ProcessWithRecovery w)
  = match fst (ProcessEvents w) with
    | Ret (Completed _) => true
    | _ => false
    end.
Proof.
  unfold Processor.ProcessWithRecovery.
  destruct (ProcessEvents w) as [[[|summary]|] w']; reflexivity.
Qed.

(** *** A server that always has more *)

Lemma hasMoreData_page (o : Api.HttpOutcome) :
  hasMoreData o ->
  exists page, Api.parsePage o = inl page /\ Api.HasMore page = true.
Proof.
  intros (response & m & -> & He & Hm & Hne & Hev).
  simpl. rewrite He, Hm. eexists. split; [reflexivity|]. simpl.
  rewrite has_events. destruct (Api.extractEvents response); [contradiction|].
  apply nonempty_true. assumption.
Qed.

(** A server whose every round trip has more data makes every fetch
    succeed, as long as one attempt is allowed. *)
Lemma fetch_succeeds_with_more :
  1 <= RetryAttempts cfg ->
  (forall k, hasMoreData (http env k)) ->
  forall marker c,
    exists page c',
      Api.FetchWithRetry (http env) marker (RetryAttempts cfg) c = (inl page, c')
      /\ Api.HasMore page = true.
Proof.
  intros Hone Hmore marker c.
  destruct (hasMoreData_page _ (Hmore (Api.calls c))) as (page & Hp & Hm).
  exists page. eexists. split; [|exact Hm].
  unfold Api.FetchWithRetry.
  destruct (Z.to_nat (RetryAttempts cfg)) as [|n] eqn:E; [lia|].
  apply retryLoop_first. assumption.
Qed.

Section Busy.

Hypothesis never_cancelled : forall k, ctxDone env k = false.
Hypothesis size_ok : 0 <= MaxMsgSize cfg.
Hypothesis always_more :
  forall marker c,
    exists page c',
      Api.FetchWithRetry (http env) marker (RetryAttempts cfg) c = (inl page, c')
      /\ Api.HasMore page = true.

Lemma busy_finishPass (page : Api.EventsPage) (l : Locals) (w : World) :
  Api.HasMore page = true ->
  exists l' w',
    finishPass page l w = (Ret (Again l'), w')
    /\ fetches w' = fetches w /\ paginationCount l' = paginationCount l.
Proof.
  intros Hm. destruct (finishPass_spec page l w) as (l' & w' & U & R).
  rewrite Hm in R. exists l', w'. split; [assumption|].
  apply updateMarker_spec in U. tauto.
Qed.

Lemma busy_pass (l : Locals) (w : World) :
  exists l' w',
    pass l w = (Ret (Again l'), w')
    /\ fetches w' = S (fetches w)
    /\ paginationCount l' = S (paginationCount l).
Proof.
  destruct (always_more (currentMarker l) (apiClient w)) as (page0 & c0 & F0 & Hm).
  destruct (pass_cases l w) as
    [D | lastErr c D F | page c D F E | page c w2 D F E FW
     | page c k err w2 D F E FW | page c k w2 D F E FW];
    try (rewrite never_cancelled in D; discriminate);
    rewrite F0 in F; try discriminate; injection F as -> ->.
  - apply busy_finishPass. assumption.
  - apply forwardLoop_spec in FW. lia.
  - apply forwardLoop_spec in FW. destruct FW as (_ & _ & _ & Ef & _).
    simpl in Ef. eauto.
  - apply forwardLoop_spec in FW. destruct FW as (_ & _ & _ & Ef & _).
    simpl in Ef.
    match goal with |- context [finishPass page ?l ?w] =>
      destruct (busy_finishPass page l w Hm) as (l' & w' & R & Hf & Hp) end.
    exists l', w'. split; [assumption|]. simpl in Hf, Hp. split; congruence.
Qed.

Lemma busy_pageLoop (remaining : nat) :
  forall l w,
    exists l' w',
      pageLoop remaining l w = (Ret (Completed l'), w')
      /\ fetches w' = (fetches w + remaining)%nat
      /\ paginationCount l' = (paginationCount l + remaining)%nat.
Proof.
  induction remaining as [|remaining IH]; intros l w; simpl.
  - exists l, w. repeat split; lia.
  - destruct (busy_pass l w) as (l1 & w1 & -> & Hf & Hp).
    destruct (IH l1 w1) as (l2 & w2 & -> & Hf2 & Hp2).
    exists l2, w2. repeat split; lia.
Qed.

End Busy.

End Cycle.

(** ** Reconnecting *)

Section Reconnecting.

Import Syslog.

Variable net : Net.

Abbreviation call := (call net).
Abbreviation after := (after net).
Abbreviation sinceLast := (sinceLast net).

Lemma Reconnect_in_cooldown (w : Writer) :
  sinceLast w < reconnectDelay w ->
  fst (Reconnect net w) = Some ErrRateLimited
  /\ onlyClockRead w (snd (Reconnect net w)).
Proof.
  intros H. unfold Reconnect. fold (sinceLast w).
  destruct (Z.ltb_spec (sinceLast w) (reconnectDelay w)); [|lia].
  split; reflexivity.
Qed.

Lemma Reconnect_at_ceiling (w : Writer) :
  maxReconnects w <= reconnectCount w ->
  (fst (Reconnect net w) = Some ErrRateLimited
   \/ fst (Reconnect net w) = Some ErrMaxReconnects)
  /\ onlyClockRead w (snd (Reconnect net w)).
Proof.
  intros H. unfold Reconnect.
  destruct (_ <? _); [split; [left|]; reflexivity|].
  destruct (Z.geb_spec (reconnectCount w) (maxReconnects w)); [|lia].
  split; [right|]; reflexivity.
Qed.

Lemma Reconnect_attempt (w : Writer) :
  reconnectDelay w <= sinceLast w ->
  reconnectCount w < maxReconnects w ->
  Reconnect net w
  = let closed := match conn w with Some _ => Some Closed | None => None end in
    let nclose := match conn w with Some _ => S (closes w) | None => closes w end in
    if dialOk net (dials w) then
      (None,
       mkWriter (Some Live) 0 (now net (S (clockReads w))) (maxReconnects w)
         (reconnectDelay w) (writes w) (S (dials w)) nclose (S (S (clockReads w)))
         (delivered w))
    else
      (Some ErrDialFailed,
       mkWriter closed (reconnectCount w + 1) 0 (maxReconnects w)
         (reconnectDelay w) (writes w) (S (dials w)) nclose (S (clockReads w))
         (delivered w)).
Proof.
  intros H1 H2. unfold Reconnect. fold (sinceLast w).
  destruct (Z.ltb_spec (sinceLast w) (reconnectDelay w)); [lia|].
  destruct (Z.geb_spec (reconnectCount w) (maxReconnects w)); [lia|].
  reflexivity.
Qed.

Lemma call_at_ceiling (w : Writer) (c : Call) :
  maxReconnects w <= reconnectCount w ->
  let w' := call w c in
  reconnectCount w' = reconnectCount w /\ maxReconnects w' = maxReconnects w
  /\ dials w' = dials w /\ closes w' = closes w.
Proof.
  intros H. destruct c as [message|]; simpl.
  - destruct (Write net message w) as [[e|] w'] eqn:W; simpl.
    + apply Write_failed in W. tauto.
    + apply Write_ok in W. tauto.
  - destruct (Reconnect_at_ceiling w H) as [_ ->]. simpl. auto.
Qed.

Lemma after_at_ceiling (cs : list Call) :
  forall w,
    maxReconnects w <= reconnectCount w ->
    let w' := after cs w in
    reconnectCount w' = reconnectCount w /\ maxReconnects w' = maxReconnects w
    /\ dials w' = dials w /\ closes w' = closes w.
Proof.
  induction cs as [|c cs IH]; intros w H; simpl.
  - auto.
  - destruct (call_at_ceiling w c H) as (E1 & E2 & E3 & E4).
    specialize (IH (call w c)). simpl in IH.
    rewrite <- E1, <- E2, <- E3, <- E4. apply IH. lia.
Qed.

(** A clock that has left the zero time behind by more than the largest
    [Duration] (any date after the year 293) is past every cooldown that
    starts at the zero time. *)
Lemma Sub_from_zero (t delay : Z) :
  maxInt64 <= t -> delay <= maxInt64 -> delay <= Sub t 0.
Proof. unfold Sub, maxInt64, minInt64. lia. Qed.

End Reconnecting.

(** ** The scheduler's backoff *)

Section Backoff.

Import Processor Main.

Variable cfg : Config.

Abbreviation delayAfter := (delayAfter cfg).

(** The configured ceiling is at least the base of one second, and small
    enough for twice the ceiling to fit the 64-bit [Duration]; the fetch
    interval is positive and fits as well. *)
Hypothesis ceiling_range : 1 <= MaxBackoffDelay cfg <= 4611686018.
Hypothesis interval_range : 1 <= FetchInterval cfg <= 9223372036.

Lemma wrap64_small (z : Z) : - 2 ^ 63 <= z < 2 ^ 63 -> wrap64 z = z.
Proof.
  intros H. unfold wrap64.
  rewrite Z.mod_small by lia. lia.
Qed.

Lemma maxBackoff_value : maxBackoff cfg = MaxBackoffDelay cfg * Second.
Proof. unfold maxBackoff, Second. apply wrap64_small. lia. Qed.

Lemma fetchInterval_value : fetchInterval cfg = FetchInterval cfg * Second.
Proof. unfold fetchInterval, Second. apply wrap64_small. lia. Qed.

Lemma delayAfter_range (k : nat) : Second <= delayAfter k <= maxBackoff cfg.
Proof.
  unfold Spec.delayAfter. rewrite maxBackoff_value. unfold Second.
  assert (0 < 2 ^ Z.of_nat k) by (apply Z.pow_pos_nonneg; lia).
  lia.
Qed.

Lemma delayAfter_step (k : nat) :
  (let doubled := wrap64 (delayAfter k * 2) in
   if doubled >? maxBackoff cfg then maxBackoff cfg else doubled)
  = delayAfter (S k).
Proof.
  pose proof (delayAfter_range k) as R.
  cbv zeta. rewrite wrap64_small.
  2:{ rewrite maxBackoff_value in R. unfold Second in *. lia. }
  unfold Spec.delayAfter in *.
  rewrite Nat2Z.inj_succ, Z.pow_succ_r by lia.
  unfold Second in *. set (p := 2 ^ Z.of_nat k) in *.
  destruct (Z.gtb_spec (Z.min (1000000000 * p) (maxBackoff cfg) * 2)
              (maxBackoff cfg)); lia.
Qed.

Lemma schedule_snoc (outcomes : list bool) (success : bool) :
  forall s,
    schedule cfg (outcomes ++ [success]) s
    = match schedule cfg outcomes s with
      | Ret s' => onCycle cfg success s'
      | Panic => Panic
      end.
Proof.
  induction outcomes as [|o outcomes IH]; intros s; simpl.
  - destruct (onCycle cfg success s); reflexivity.
  - destruct (onCycle cfg o s); [apply IH|reflexivity].
Qed.

Lemma streak_snoc (outcomes : list bool) (success : bool) :
  streak (outcomes ++ [success]) = if success then O else S (streak outcomes).
Proof. unfold streak. rewrite fold_left_app. reflexivity. Qed.

Lemma onCycle_success (s : Scheduler) :
  onCycle cfg true s = Ret (mkScheduler Second (fetchInterval cfg)).
Proof.
  unfold onCycle, resetTicker. rewrite fetchInterval_value.
  destruct (Z.leb_spec (FetchInterval cfg * Second) 0); [unfold Second in *; lia|].
  reflexivity.
Qed.

Lemma onCycle_failure (s : Scheduler) (k : nat) :
  backoffDelay s = delayAfter k ->
  onCycle cfg false s = Ret (mkScheduler (delayAfter (S k)) (delayAfter k)).
Proof.
  intros E. unfold onCycle, resetTicker. rewrite E.
  pose proof (delayAfter_range k) as R.
  destruct (Z.leb_spec (delayAfter k) 0); [unfold Second in *; lia|].
  pose proof (delayAfter_step k) as St. cbv zeta in St. rewrite St. reflexivity.
Qed.

Lemma delayAfter_zero : delayAfter 0 = Second.
Proof.
  unfold Spec.delayAfter. rewrite maxBackoff_value. unfold Second.
  change (2 ^ Z.of_nat 0) with 1. lia.
Qed.

(** The state after any run of timer cycles is fixed by the number of
    failures since the last success. *)
Lemma schedule_streak (outcomes : list bool) (s0 : Scheduler) :
  backoffDelay s0 = Second ->
  exists s,
    schedule cfg outcomes s0 = Ret s
    /\ backoffDelay s = delayAfter (streak outcomes)
    /\ match streak outcomes with
       | S k => period s = delayAfter k
       | O => outcomes = [] \/ period s = fetchInterval cfg
       end.
Proof.
  intros E0. induction outcomes as [|success outcomes IH] using rev_ind.
  - exists s0. split; [reflexivity|]. change (streak []) with O.
    rewrite delayAfter_zero. auto.
  - destruct IH as (s & Hs & Hd & Hp).
    rewrite schedule_snoc, Hs, streak_snoc. destruct success.
    + rewrite onCycle_success. eexists. split; [reflexivity|].
      cbn [backoffDelay period]. rewrite delayAfter_zero. auto.
    + rewrite (onCycle_failure s _ Hd). eexists. split; [reflexivity|].
      cbn [backoffDelay period]. auto.
Qed.

End Backoff.

(** ** The formatter: which orders matter *)

Section SortStrings.

Lemma ascii_compare_cases (a b : ascii) :
  CompareSpec (a = b) (N_of_ascii a < N_of_ascii b)%N
    (N_of_ascii b < N_of_ascii a)%N (Ascii.compare a b).
Proof.
  unfold Ascii.compare.
  destruct (N.compare_spec (N_of_ascii a) (N_of_ascii b)) as [E|L|G];
    constructor; try assumption.
  rewrite <- (ascii_N_embedding a), <- (ascii_N_embedding b), E. reflexivity.
Qed.

Lemma string_leb_trans (s1 : string) :
  forall s2 s3,
    String.leb s1 s2 = true -> String.leb s2 s3 = true -> String.leb s1 s3 = true.
Proof.
  unfold String.leb.
  induction s1 as [|a s1 IH]; intros [|b s2] [|c s3]; simpl; try congruence.
  destruct (ascii_compare_cases a b), (ascii_compare_cases b c),
    (ascii_compare_cases a c); subst; try congruence; try lia.
  apply IH.
Qed.

Lemma string_leb_false (s t : string) :
  String.leb s t = false -> String.leb t s = true.
Proof.
  intros H. destruct (String.leb_total s t) as [E|E]; congruence.
Qed.

Lemma insertSorted_comm (a b : string) (l : list string) :
  Cef.insertSorted a (Cef.insertSorted b l)
  = Cef.insertSorted b (Cef.insertSorted a l).
Proof.
  induction l as [|t l IH]; simpl.
  - destruct (String.leb a b) eqn:AB, (String.leb b a) eqn:BA; try reflexivity.
    + rewrite (String.leb_antisym a b AB BA). reflexivity.
    + apply string_leb_false in AB. congruence.
  - destruct (String.leb b t) eqn:BT, (String.leb a t) eqn:AT; simpl;
      rewrite ?BT, ?AT.
    + destruct (String.leb a b) eqn:AB, (String.leb b a) eqn:BA; try reflexivity.
      * rewrite (String.leb_antisym a b AB BA). reflexivity.
      * apply string_leb_false in AB. congruence.
    + destruct (String.leb a b) eqn:AB; [|reflexivity].
      rewrite (string_leb_trans a b t AB BT) in AT. discriminate.
    + destruct (String.leb b a) eqn:BA; [|reflexivity].
      rewrite (string_leb_trans b a t BA AT) in BT. discriminate.
    + rewrite IH. reflexivity.
Qed.

(** [sort.Strings] gives the same slice whatever the order in which the
    keys were collected from the map. *)
Lemma sortStrings_order (l l' : list string) :
  Permutation l l' -> Cef.sortStrings l = Cef.sortStrings l'.
Proof.
  unfold Cef.sortStrings.
  induction 1 as [|x l l' P IH|x y l|l l' l'' P1 IH1 P2 IH2]; simpl.
  - reflexivity.
  - rewrite IH. reflexivity.
  - apply insertSorted_comm.
  - congruence.
Qed.

End SortStrings.

Section MapFacts.

Lemma lookup_assign (k k' v : string) (m : StrMap) :
  lookup k (assign k' v m) = if String.eqb k' k then Some v else lookup k m.
Proof.
  induction m as [|[k0 v0] m IH]; simpl.
  - reflexivity.
  - destruct (String.eqb_spec k0 k') as [->|N]; simpl.
    + destruct (String.eqb_spec k' k); reflexivity.
    + destruct (String.eqb_spec k0 k) as [->|N'].
      * destruct (String.eqb_spec k' k); [congruence|reflexivity].
      * exact IH.
Qed.

Lemma lookup_remove_key (k k' : string) (m : StrMap) :
  lookup k (remove_key k' m) = if String.eqb k' k then None else lookup k m.
Proof.
  induction m as [|[k0 v0] m IH]; simpl.
  - destruct (String.eqb k' k); reflexivity.
  - destruct (String.eqb_spec k0 k') as [->|N]; simpl.
    + rewrite IH. destruct (String.eqb_spec k' k); reflexivity.
    + destruct (String.eqb_spec k0 k) as [->|N'].
      * destruct (String.eqb_spec k' k); [congruence|reflexivity].
      * exact IH.
Qed.

Lemma lookup_In_keys (k : string) (m : StrMap) :
  In k (keys m) <-> lookup k m <> None.
Proof.
  induction m as [|[k0 v0] m IH]; simpl.
  - split; [intros []|congruence].
  - destruct (String.eqb_spec k0 k) as [->|N].
    + split; [discriminate|auto].
    + rewrite <- IH. split; [intros [?|?]; [contradiction|assumption]|auto].
Qed.

Lemma In_keys_assign (x k v : string) (m : StrMap) :
  In x (keys (assign k v m)) <-> x = k \/ In x (keys m).
Proof.
  rewrite !lookup_In_keys, lookup_assign.
  destruct (String.eqb_spec k x) as [->|N].
  - split; [auto|discriminate].
  - split; [auto|intros [->|?]; [contradiction|assumption]].
Qed.

Lemma In_keys_remove_key (x k : string) (m : StrMap) :
  In x (keys (remove_key k m)) <-> x <> k /\ In x (keys m).
Proof.
  rewrite !lookup_In_keys, lookup_remove_key.
  destruct (String.eqb_spec k x) as [->|N].
  - split; [congruence|intros [? _]; congruence].
  - split; [intros ?; split; congruence|tauto].
Qed.

Lemma NoDup_assign (k v : string) (m : StrMap) :
  NoDup (keys m) -> NoDup (keys (assign k v m)).
Proof.
  induction m as [|[k0 v0] m IH]; simpl; intros H.
  - constructor; [intros []|constructor].
  - inversion H as [|? ? Hn Hd]; subst.
    destruct (String.eqb_spec k0 k) as [->|N]; simpl.
    + constructor; assumption.
    + constructor; [|auto].
      rewrite In_keys_assign. intros [->|?]; contradiction.
Qed.

Lemma NoDup_remove_key (k : string) (m : StrMap) :
  NoDup (keys m) -> NoDup (keys (remove_key k m)).
Proof.
  induction m as [|[k0 v0] m IH]; simpl; intros H.
  - constructor.
  - inversion H as [|? ? Hn Hd]; subst.
    destruct (String.eqb_spec k0 k) as [->|N]; simpl; [auto|].
    constructor; [|auto].
    rewrite In_keys_remove_key. tauto.
Qed.

(** With distinct keys, the order of the entries does not change the map. *)
Lemma Permutation_MapEq (m m' : StrMap) :
  Permutation m m' -> NoDup (keys m) -> MapEq m m'.
Proof.
  induction 1 as [|[k0 v0] l l' P IH|[k1 v1] [k2 v2] l|l l' l'' P1 IH1 P2 IH2];
    intros H k; simpl.
  - reflexivity.
  - inversion H; subst. rewrite IH by assumption. reflexivity.
  - inversion H as [|? ? Hn Hd]; subst. simpl in Hn.
    destruct (String.eqb_spec k1 k) as [->|], (String.eqb_spec k2 k) as [->|];
      try reflexivity.
    exfalso. apply Hn. left. reflexivity.
  - rewrite IH1 by assumption. apply IH2.
    apply (Permutation_NoDup (l := keys l)); [|assumption].
    apply Permutation_map. assumption.
Qed.

Lemma MapEq_keys (m m' : StrMap) :
  MapEq m m' -> NoDup (keys m) -> NoDup (keys m') -> Permutation (keys m) (keys m').
Proof.
  intros E H H'. apply NoDup_Permutation; try assumption.
  intros x. rewrite !lookup_In_keys, (E x). tauto.
Qed.

End MapFacts.

Section FoldAssign.

Variable A : Type.
Variables (key val : A -> string) (cond : A -> bool).

Abbreviation put := (put A key val cond).

Lemma put_MapEq (e e' : StrMap) (x : A) :
  MapEq e e' -> MapEq (put e x) (put e' x).
Proof.
  intros E k. unfold Spec.put. destruct (cond x); [|apply E].
  rewrite !lookup_assign, (E k). reflexivity.
Qed.

Lemma put_NoDup (e : StrMap) (x : A) : NoDup (keys e) -> NoDup (keys (put e x)).
Proof. unfold Spec.put. destruct (cond x); [apply NoDup_assign|auto]. Qed.

Lemma put_swap (e : StrMap) (x y : A) :
  key x <> key y -> MapEq (put (put e x) y) (put (put e y) x).
Proof.
  intros N k. unfold Spec.put.
  destruct (cond x), (cond y); rewrite ?lookup_assign; try reflexivity.
  destruct (String.eqb_spec (key y) k) as [Ey|], (String.eqb_spec (key x) k) as [Ex|];
    try reflexivity.
  congruence.
Qed.

Lemma fold_put_MapEq (l : list A) :
  forall e e', MapEq e e' -> MapEq (fold_left put l e) (fold_left put l e').
Proof.
  induction l as [|x l IH]; intros e e' E; simpl; [assumption|].
  apply IH, put_MapEq, E.
Qed.

Lemma fold_put_NoDup (l : list A) :
  forall e, NoDup (keys e) -> NoDup (keys (fold_left put l e)).
Proof.
  induction l as [|x l IH]; intros e H; simpl; [assumption|].
  apply IH, put_NoDup, H.
Qed.

(** Assignments to pairwise distinct keys can be made in any order. *)
Lemma fold_put_order (l l' : list A) :
  Permutation l l' -> NoDup (map key l) ->
  forall e e', MapEq e e' -> MapEq (fold_left put l e) (fold_left put l' e').
Proof.
  induction 1 as [|x l l' P IH|x y l|l l' l'' P1 IH1 P2 IH2]; intros H e e' E.
  - exact E.
  - simpl. inversion H; subst. apply IH; [assumption|]. apply put_MapEq, E.
  - simpl. apply fold_put_MapEq. intros k.
    inversion H as [|? ? Hn Hd]; subst.
    rewrite (put_swap e y x) by (intros Q; apply Hn; left; auto).
    apply put_MapEq, put_MapEq, E.
  - intros k. rewrite (IH1 H e e' E k). apply IH2; [|intros ?; reflexivity].
    apply (Permutation_NoDup (l := map key l)); [|assumption].
    apply Permutation_map. assumption.
Qed.

End FoldAssign.

Section FormatOrder.

Import Cef.

Lemma fold_left_pointwise (A B : Type) (f g : A -> B -> A) (l : list B) :
  (forall a b, f a b = g a b) -> forall a, fold_left f l a = fold_left g l a.
Proof.
  intros E. induction l as [|b l IH]; intros a; simpl; [reflexivity|].
  rewrite E. apply IH.
Qed.

(** The first loop depends on the event only as a map. *)
Lemma applyMappings_fields (table fields fields' ext : StrMap) :
  MapEq fields fields' ->
  applyMappings table fields ext = applyMappings table fields' ext.
Proof.
  intros E. unfold applyMappings. apply fold_left_pointwise.
  intros a st. rewrite (E (fst st)). reflexivity.
Qed.

Lemma applyMappings_as_put (table fields ext : StrMap) :
  applyMappings table fields ext
  = fold_left
      (put (string * string) snd
         (fun st => sanitizeValue (valueOf (fst st) fields))
         (fun st => match lookup (fst st) fields with
                    | Some value => nonempty value
                    | None => false
                    end))
      table ext.
Proof.
  unfold applyMappings. apply fold_left_pointwise.
  intros a st. unfold put, valueOf.
  destruct (lookup (fst st) fields); reflexivity.
Qed.

Lemma addUnmapped_as_put (table fields ext : StrMap) :
  addUnmapped table fields ext
  = fold_left
      (put (string * string) fst (fun kv => sanitizeValue (snd kv))
         (fun kv => negb (isMappedField (fst kv) table) && nonempty (snd kv)))
      fields ext.
Proof. reflexivity. Qed.

Lemma isMappedField_MapEq (table table' : StrMap) (k : string) :
  MapEq table table' -> isMappedField k table = isMappedField k table'.
Proof. intros E. unfold isMappedField. rewrite (E k). reflexivity. Qed.

Lemma addUnmapped_table (table table' fields ext : StrMap) :
  MapEq table table' ->
  addUnmapped table fields ext = addUnmapped table' fields ext.
Proof.
  intros E. unfold addUnmapped. apply fold_left_pointwise.
  intros a kv. rewrite (isMappedField_MapEq table table' _ E). reflexivity.
Qed.

Lemma extensionsOf_NoDup (table fields : StrMap) :
  NoDup (keys (extensionsOf table fields)).
Proof.
  unfold extensionsOf. rewrite addUnmapped_as_put, applyMappings_as_put.
  apply fold_put_NoDup, fold_put_NoDup. constructor.
Qed.

Lemma extensionsOf_fields (table fields fields' : StrMap) :
  NoDup (keys fields) -> Permutation fields fields' ->
  MapEq (extensionsOf table fields) (extensionsOf table fields').
Proof.
  intros H P. unfold extensionsOf.
  rewrite (applyMappings_fields table fields fields' [])
    by (apply Permutation_MapEq; assumption).
  rewrite !addUnmapped_as_put.
  apply fold_put_order; [assumption|assumption|intros k; reflexivity].
Qed.

Lemma extensionsOf_table (table table' fields : StrMap) :
  NoDup (keys table) -> NoDup (map snd table) -> Permutation table table' ->
  MapEq (extensionsOf table fields) (extensionsOf table' fields).
Proof.
  intros H Hinj P. unfold extensionsOf.
  rewrite (addUnmapped_table table table') by (apply Permutation_MapEq; assumption).
  rewrite !addUnmapped_as_put. apply fold_put_MapEq.
  rewrite !applyMappings_as_put.
  apply fold_put_order; [assumption|assumption|intros k; reflexivity].
Qed.

Lemma emitStep_MapEq (parts : list string) (e e' : StrMap) (field : string) :
  MapEq e e' -> NoDup (keys e) -> NoDup (keys e') ->
  fst (emitStep (parts, e) field) = fst (emitStep (parts, e') field)
  /\ MapEq (snd (emitStep (parts, e) field)) (snd (emitStep (parts, e') field))
  /\ NoDup (keys (snd (emitStep (parts, e) field)))
  /\ NoDup (keys (snd (emitStep (parts, e') field))).
Proof.
  intros E H H'. unfold emitStep. simpl. rewrite <- (E field).
  destruct (lookup field e); simpl.
  - repeat split; auto using NoDup_remove_key.
    intros k. rewrite !lookup_remove_key, (E k). reflexivity.
  - auto.
Qed.

Lemma emitOrdered_MapEq (ordered : list string) :
  forall parts e e',
    MapEq e e' -> NoDup (keys e) -> NoDup (keys e') ->
    let r := fold_left emitStep ordered (parts, e) in
    let r' := fold_left emitStep ordered (parts, e') in
    fst r = fst r' /\ MapEq (snd r) (snd r')
    /\ NoDup (keys (snd r)) /\ NoDup (keys (snd r')).
Proof.
  induction ordered as [|field ordered IH]; intros parts e e' E H H'; simpl.
  - auto.
  - destruct (emitStep_MapEq parts e e' field E H H') as (E1 & E2 & N1 & N2).
    destruct (emitStep (parts, e) field) as [p1 e1].
    destruct (emitStep (parts, e') field) as [p2 e2].
    simpl in *. subst p2. apply IH; assumption.
Qed.

Lemma emitRemaining_MapEq (e e' : StrMap) :
  MapEq e e' -> NoDup (keys e) -> NoDup (keys e') ->
  emitRemaining e = emitRemaining e'.
Proof.
  intros E H H'. unfold emitRemaining.
  rewrite (sortStrings_order (keys e) (keys e')) by (apply MapEq_keys; assumption).
  apply map_ext. intros field. unfold valueOf. rewrite (E field). reflexivity.
Qed.

Lemma header_MapEq (f : Formatter) (fields fields' : StrMap) :
  MapEq fields fields' -> header f fields = header f fields'.
Proof.
  intros E. unfold header, getMapValue. rewrite !E. reflexivity.
Qed.

(** The message as a function of the extension map. *)
Lemma Format_unfold (f : Formatter) (fields : StrMap) :
  Format f fields
  = let r := fold_left emitStep (orderedFields f)
               ([], extensionsOf (fieldMappings f) fields) in
    header f fields ++ String.concat " " (fst r ++ emitRemaining (snd r))%list.
Proof.
  unfold Format, emitOrdered, extensionsOf. cbv zeta.
  change (fun (acc : list string * StrMap) (field : string) =>
            match lookup field (snd acc) with
            | Some value =>
                ((fst acc ++ [pair_text field value])%list,
                 remove_key field (snd acc))
            | None => acc
            end) with emitStep.
  destruct (fold_left emitStep _ _) as [parts ext]. reflexivity.
Qed.

Lemma Format_of_extensions (f f' : Formatter) (fields fields' : StrMap) :
  orderedFields f = orderedFields f' ->
  header f fields = header f' fields' ->
  MapEq (extensionsOf (fieldMappings f) fields)
        (extensionsOf (fieldMappings f') fields') ->
  Format f fields = Format f' fields'.
Proof.
  intros Eo Eh E. rewrite !Format_unfold. cbv zeta. rewrite Eh, Eo.
  destruct (emitOrdered_MapEq (orderedFields f') [] _ _ E
              (extensionsOf_NoDup _ _) (extensionsOf_NoDup _ _))
    as (E1 & E2 & N1 & N2).
  cbv zeta in *. rewrite E1, (emitRemaining_MapEq _ _ E2 N1 N2). reflexivity.
Qed.

(** The output does not depend on the order in which the runtime iterates
    over the event's field map. *)
Lemma Format_fields_order (f : Formatter) (fields fields' : StrMap) :
  NoDup (keys fields) -> Permutation fields fields' ->
  Format f fields = Format f fields'.
Proof.
  intros H P. apply Format_of_extensions.
  - reflexivity.
  - apply header_MapEq, Permutation_MapEq; assumption.
  - apply extensionsOf_fields; assumption.
Qed.

(** Nor on the order of the rename table, as long as no two source fields
    are renamed to the same wire field. *)
Lemma Format_table_order (vendor product version : string)
    (table table' : StrMap) (ordered : list string) (fields : StrMap) :
  NoDup (keys table) -> NoDup (map snd table) -> Permutation table table' ->
  Format (mkFormatter vendor product version table ordered) fields
  = Format (mkFormatter vendor product version table' ordered) fields.
Proof.
  intros H Hinj P. apply Format_of_extensions.
  - reflexivity.
  - reflexivity.
  - apply extensionsOf_table; assumption.
Qed.

End FormatOrder.

(** The scheduler state the service loop reaches is the one [schedule]
    computes from the results of the timer's cycles; the cycle run at
    start-up has no part in it. *)
Lemma timerCycles_schedule
    (env : Processor.Env) (cfg : Processor.Config) (f : Cef.Formatter)
    (ticks : nat) :
  forall s w,
    fst (fst (Main.timerCycles env cfg f ticks s w))
    = Main.schedule cfg (snd (fst (Main.timerCycles env cfg f ticks s w))) s.
Proof.
  induction ticks as [|ticks IH]; intros s w; simpl.
  - reflexivity.
  - destruct (Processor.ProcessWithRecovery env cfg f w) as [success w1].
    destruct (Main.onCycle cfg success s) as [s1|] eqn:E; simpl.
    + specialize (IH s1 w1).
      destruct (Main.timerCycles env cfg f ticks s1 w1) as [[r outs] w2].
      simpl in *. rewrite E. exact IH.
    + rewrite E. reflexivity.
Qed.

(** * The claims *)

(** C1.  Marker store atomicity.  [Update new] with [new] empty or equal to
    the cursor in memory reports success and changes nothing.  Otherwise the
    cursor in memory becomes [new] exactly when the write succeeds; when
    creating the directory or writing the file fails, an error is returned
    and the cursor in memory is what it was.  Consequently, over a cycle,
    the values written to the marker file are non-empty markers of pages
    returned during the cycle, and the cursor in memory at the end is the
    last of them, or the cursor the cycle started with when none was
    written. *)
Theorem marker_store_atomicity
    (env : Processor.Env) (cfg : Processor.Config) (f : Cef.Formatter)
    (w : Processor.World) (new : string) :
  let m := Processor.markerManager w in
  let r := Marker.Update (Processor.fs env) new m in
  let w' := snd (Processor.ProcessEvents env cfg f w) in
  (new = "" \/ new = Marker.marker m -> r = (None, m))
  /\ (new <> "" -> new <> Marker.marker m ->
      Processor.fs env (Marker.fsCalls m) = Marker.WriteOk ->
      fst r = None /\ Marker.marker (snd r) = new
      /\ Marker.persisted (snd r) = new :: Marker.persisted m)
  /\ (new <> "" -> new <> Marker.marker m ->
      Processor.fs env (Marker.fsCalls m) <> Marker.WriteOk ->
      fst r <> None /\ Marker.marker (snd r) = Marker.marker m
      /\ Marker.persisted (snd r) = Marker.persisted m)
  /\ exists saved,
       Marker.persisted (Processor.markerManager w')
       = (saved ++ Marker.persisted m)%list
       /\ Marker.marker (Processor.markerManager w') = hd (Marker.marker m) saved
       /\ forall x, In x saved ->
            x <> ""
            /\ exists k page,
                 (Api.calls (Processor.apiClient w) <= k
                  < Api.calls (Processor.apiClient w'))%nat
                 /\ Api.parsePage (Processor.http env k) = inl page
                 /\ Api.NewMarker page = x.
Proof.
  cbv zeta. split; [|split; [|split]].
  - apply Update_noop.
  - intros Hne Hdiff Hok. rewrite Update_written by assumption. auto.
  - intros Hne Hdiff Hbad.
    destruct (Update_write_failure (Processor.fs env) new
                (Processor.markerManager w) Hne Hdiff Hbad) as [err ->].
    simpl. repeat split; congruence.
  - exact (proj2 (ProcessEvents_Tracked env cfg f w)).
Qed.

(** The marker file cannot be written while the store holds "m1": the
    update to "m2" reports the failure and "m1" stays. *)
Lemma marker_store_atomicity_witness :
  let m := Marker.mkManager "m1" O [] in
  let r := Marker.Update (fun _ => Marker.WriteFails) "m2" m in
  fst r <> None /\ Marker.marker (snd r) = "m1" /\ Marker.persisted (snd r) = [].
Proof.
  pose proof
    (marker_store_atomicity
       (Scenario.env (fun _ => Marker.WriteFails) Scenario.busyServer
          Scenario.goodNet (fun _ => false))
       Scenario.cfg Scenario.formatter (Scenario.fresh "m1") "m2") as H.
  cbv zeta in H. destruct H as (_ & _ & H & _).
  apply H; simpl; discriminate.
Defined.




(** C3.  The totals at the input where they go wrong: the page has two
    records, the collector takes the first and the second cannot be
    delivered.  [forwardEvents] returns the count 1 with its error, one line
    has reached the collector, but the cycle summary reports 0 events and
    the shared counter stays at 0. *)
Theorem partial_batch_is_not_counted :
  let net := Syslog.mkNet (fun k => Nat.eqb k 0) (fun _ => false)
               (fun k => Scenario.year2026 + Z.of_nat k) in
  let http := fun k =>
                match k with
                | O => Scenario.reply (Some "A") [Scenario.threat; Scenario.threat]
                | S _ => Scenario.reply None []
                end in
  let e := Scenario.env (fun _ => Marker.WriteOk) http net (fun _ => false) in
  let r := Processor.ProcessEvents e Scenario.cfg Scenario.formatter
             (Scenario.fresh "") in
  fst (Processor.forwardEvents e Scenario.cfg Scenario.formatter
         [Scenario.threat; Scenario.threat] (Scenario.fresh ""))
  = Processor.Ret (1%nat, Some (Processor.ErrReconnect Syslog.ErrDialFailed))
  /\ deliveredCount (snd r) = 1%nat
  /\ fst r = Processor.Ret (Processor.Completed (Processor.mkLocals 0 2 "" O 1))
  /\ Processor.TotalEventsForwarded (Processor.stats (snd r)) = 0.
Proof. vm_compute. repeat split; reflexivity. Qed.

(** C4.  A cycle calls the fetcher at most [MaxPagination] times, whatever
    the server answers (and so calls [FetchEventsPage] at most
    [MaxPagination * RetryAttempts] times); [ProcessEvents] is a total
    function, so the pagination ends.  When every fetch succeeds with a page
    whose [HasMore] is set (a non-empty marker and at least one event), in a
    cycle that is not cancelled and whose messages can be cut to size, the
    cycle makes exactly [MaxPagination] fetches and then completes. *)
Theorem pagination_bounded
    (env : Processor.Env) (cfg : Processor.Config) (f : Cef.Formatter)
    (w : Processor.World) :
  let bound := Z.to_nat (Processor.MaxPagination cfg) in
  let r := Processor.ProcessEvents env cfg f w in
  (Processor.fetches (snd r) <= Processor.fetches w + bound)%nat
  /\ (Api.calls (Processor.apiClient (snd r))
      <= Api.calls (Processor.apiClient w)
         + bound * Z.to_nat (Processor.RetryAttempts cfg))%nat
  /\ ((forall k, Processor.ctxDone env k = false) ->
      0 <= Processor.MaxMsgSize cfg ->
      (forall marker c,
          exists page c',
            Api.FetchWithRetry (Processor.http env) marker
              (Processor.RetryAttempts cfg) c = (inl page, c')
            /\ Api.HasMore page = true) ->
      Processor.fetches (snd r) = (Processor.fetches w + bound)%nat
      /\ exists summary,
           fst r = Processor.Ret (Processor.Completed summary)
           /\ Processor.paginationCount summary = bound).
Proof.
  cbv zeta. unfold Processor.ProcessEvents.
  match goal with |- context [Processor.pageLoop env cfg f ?n ?l ?w] =>
    pose proof (pageLoop_counts env cfg f n l w) as C;
    pose proof (fun a b c => busy_pageLoop env cfg f a b c n l w) as B
  end.
  cbv zeta in C. simpl in C. destruct C as [C1 C2].
  split; [exact C1|]. split; [exact C2|].
  intros H1 H2 H3. destruct (B H1 H2 H3) as (l' & w' & E & Hf & Hp).
  rewrite E. simpl in *. split; [exact Hf|]. exists l'. auto.
Qed.

(** Ceiling 10 and a server that always reports more data: ten fetches. *)
Lemma pagination_bounded_witness :
  let e := Scenario.env (fun _ => Marker.WriteOk) Scenario.busyServer
             Scenario.goodNet (fun _ => false) in
  let r := Processor.ProcessEvents e Scenario.cfg Scenario.formatter
             (Scenario.fresh "") in
  Processor.fetches (snd r) = 10%nat
  /\ exists summary,
       fst r = Processor.Ret (Processor.Completed summary)
       /\ Processor.paginationCount summary = 10%nat.
Proof.
  cbv zeta.
  pose proof
    (pagination_bounded
       (Scenario.env (fun _ => Marker.WriteOk) Scenario.busyServer
          Scenario.goodNet (fun _ => false))
       Scenario.cfg Scenario.formatter (Scenario.fresh "")) as H.
  cbv zeta in H. destruct H as (_ & _ & H).
  apply H.
  - intros k. reflexivity.
  - simpl. discriminate.
  - apply fetch_succeeds_with_more.
    + simpl. discriminate.
    + intros k. simpl. unfold Scenario.busyServer, Scenario.reply, hasMoreData.
      eexists. eexists. split; [reflexivity|]. simpl.
      repeat split; discriminate.
Defined.

(** C5, as claimed, fails: a reconnect attempt fails, and the next call,
    one nanosecond later and so well inside the five-second window of that
    attempt, is not refused: it closes and dials again. *)
Lemma reconnect_after_failure_is_not_rate_limited :
  let first := Syslog.Reconnect Scenario.deadNet Syslog.NewWriter in
  let second := Syslog.Reconnect Scenario.deadNet (snd first) in
  fst first = Some Syslog.ErrDialFailed
  /\ Syslog.now Scenario.deadNet 1 - Syslog.now Scenario.deadNet 0
     < Syslog.reconnectDelay (snd first)
  /\ fst second = Some Syslog.ErrDialFailed
  /\ Syslog.dials (snd first) = 1%nat
  /\ Syslog.dials (snd second) = 2%nat.
Proof. vm_compute. repeat split; reflexivity. Qed.

(** C5, amended.  [Reconnect] reads the clock and then:
    - within the cooldown window counted from [lastReconnect], the time of
      the last successful reconnect, it refuses with no network operation;
    - with the failure counter at its ceiling it refuses with no network
      operation, and since no call changes the counter or the ceiling then,
      it refuses after every later sequence of writes and reconnects;
    - otherwise it dials: a success sets the counter to zero and
      [lastReconnect] to the time read after the dial; a failure adds one to
      the counter, reports the failure and sets [lastReconnect] back to the
      zero time, so that the call after a failed attempt is not held back
      by the cooldown once the clock is past the zero time by the largest
      [Duration]. *)
Theorem reconnect_guarded (net : Syslog.Net) (w : Syslog.Writer) :
  let r := Syslog.Reconnect net w in
  (sinceLast net w < Syslog.reconnectDelay w ->
   fst r = Some Syslog.ErrRateLimited /\ onlyClockRead w (snd r))
  /\ (Syslog.maxReconnects w <= Syslog.reconnectCount w ->
      forall cs,
        let w' := after net cs w in
        let r' := Syslog.Reconnect net w' in
        (fst r' = Some Syslog.ErrRateLimited \/ fst r' = Some Syslog.ErrMaxReconnects)
        /\ onlyClockRead w' (snd r')
        /\ Syslog.dials (snd r') = Syslog.dials w
        /\ Syslog.closes (snd r') = Syslog.closes w)
  /\ (Syslog.reconnectDelay w <= sinceLast net w ->
      Syslog.reconnectCount w < Syslog.maxReconnects w ->
      Syslog.dials (snd r) = S (Syslog.dials w)
      /\ (Syslog.dialOk net (Syslog.dials w) = true ->
          fst r = None
          /\ Syslog.conn (snd r) = Some Syslog.Live
          /\ Syslog.reconnectCount (snd r) = 0
          /\ Syslog.lastReconnect (snd r) = Syslog.now net (S (Syslog.clockReads w)))
      /\ (Syslog.dialOk net (Syslog.dials w) = false ->
          fst r = Some Syslog.ErrDialFailed
          /\ Syslog.reconnectCount (snd r) = Syslog.reconnectCount w + 1
          /\ Syslog.lastReconnect (snd r) = 0
          /\ (maxInt64 <= Syslog.now net (Syslog.clockReads (snd r)) ->
              Syslog.reconnectDelay w <= maxInt64 ->
              Syslog.reconnectDelay (snd r) <= sinceLast net (snd r)))).
Proof.
  cbv zeta. split; [|split].
  - apply Reconnect_in_cooldown.
  - intros H cs.
    destruct (after_at_ceiling net cs w H) as (E1 & E2 & E3 & E4).
    destruct (Reconnect_at_ceiling net (after net cs w)) as [Hr Hq]; [lia|].
    split; [exact Hr|]. split; [exact Hq|].
    rewrite Hq. simpl. auto.
  - intros H1 H2. rewrite (Reconnect_attempt net w H1 H2). cbv zeta.
    destruct (Syslog.dialOk net (Syslog.dials w)); simpl.
    + split; [reflexivity|]. split; [auto|]. discriminate.
    + split; [reflexivity|]. split; [discriminate|].
      intros _. repeat split. intros Hnow Hdelay.
      unfold sinceLast. simpl. apply Sub_from_zero; assumption.
Qed.

(** Ceiling 10 and cooldown 5 s: a reconnect succeeds, and the call one
    second later is refused without a second dial. *)
Lemma reconnect_guarded_witness :
  let first := Syslog.Reconnect Scenario.goodNet Syslog.NewWriter in
  let second := Syslog.Reconnect Scenario.goodNet (snd first) in
  fst first = None
  /\ fst second = Some Syslog.ErrRateLimited
  /\ Syslog.dials (snd second) = 1%nat.
Proof.
  cbv zeta.
  destruct (reconnect_guarded Scenario.goodNet Syslog.NewWriter) as (_ & _ & H1).
  destruct H1 as (_ & H1 & _); [vm_compute; discriminate | reflexivity |].
  destruct (H1 eq_refl) as (E1 & _).
  destruct (reconnect_guarded Scenario.goodNet
              (snd (Syslog.Reconnect Scenario.goodNet Syslog.NewWriter)))
    as (H2 & _).
  destruct H2 as (E2 & Q); [vm_compute; reflexivity|].
  split; [exact E1|]. split; [exact E2|].
  rewrite Q. reflexivity.
Defined.

(** C6, as claimed, fails: with the backoff ceiling left out of the
    configuration file, so that it is zero, which [Validate] accepts, the
    delay stored after the first failed timer cycle is the ceiling, zero,
    below the base of one second; and the second failure in a row is not
    given the base doubled once, held at the ceiling: the scheduler
    panics. *)
Lemma backoff_falls_below_base :
  let cfg := Configuration.processorConfig sparseConfig in
  let s0 := Main.mkScheduler (1 * Second) (60 * Second) in
  Configuration.Validate sparseConfig = None
  /\ Main.start cfg = Processor.Ret s0
  /\ Main.schedule cfg [false] s0 = Processor.Ret (Main.mkScheduler 0 (1 * Second))
  /\ 0 < 1 * Second
  /\ Main.schedule cfg [false; false] s0 = Processor.Panic.
Proof. vm_compute. repeat split; reflexivity. Qed.

(** C6, amended.  With a ceiling of at least the base of one second (and a
    ceiling and a fetch interval that fit the 64-bit duration), after any
    sequence of timer-cycle results the scheduler has not panicked and its
    stored delay lies between the base and the ceiling; it is the base
    doubled once per failure since the last success, held at the ceiling;
    the delay the ticker was given after the (k+1)-th failure in a row is
    the base doubled k times, held at the ceiling; and after a success the
    stored delay is the base again.  The service loop follows this schedule
    on the results of its timer cycles. *)
Theorem backoff_schedule (cfg : Processor.Config) (outcomes : list bool) :
  1 <= Processor.MaxBackoffDelay cfg <= 4611686018 ->
  1 <= Processor.FetchInterval cfg <= 9223372036 ->
  let base := 1 * Second in
  let ceiling := Processor.MaxBackoffDelay cfg * Second in
  exists s0 s,
    Main.start cfg = Processor.Ret s0
    /\ Main.backoffDelay s0 = base
    /\ Main.schedule cfg outcomes s0 = Processor.Ret s
    /\ base <= Main.backoffDelay s <= ceiling
    /\ Main.backoffDelay s = Z.min (base * 2 ^ Z.of_nat (streak outcomes)) ceiling
    /\ (forall k, streak outcomes = S k ->
                  Main.period s = Z.min (base * 2 ^ Z.of_nat k) ceiling)
    /\ (streak outcomes = O -> Main.backoffDelay s = base)
    /\ (forall env f ticks w,
          fst (fst (Main.serve env cfg f ticks w))
          = Main.schedule cfg (snd (fst (Main.serve env cfg f ticks w))) s0).
Proof.
  intros Hc Hi. cbv zeta.
  pose proof (fetchInterval_value cfg Hi) as Ef.
  pose proof (maxBackoff_value cfg Hc) as Em.
  assert (Main.start cfg
          = Processor.Ret (Main.mkScheduler (1 * Second) (Main.fetchInterval cfg)))
    as Estart.
  { unfold Main.start, Main.resetTicker. rewrite Ef.
    destruct (Z.leb_spec (Processor.FetchInterval cfg * Second) 0);
      [unfold Second in *; lia|reflexivity]. }
  destruct (schedule_streak cfg Hc Hi outcomes
              (Main.mkScheduler (1 * Second) (Main.fetchInterval cfg)) eq_refl)
    as (s & Hs & Hd & Hp).
  exists (Main.mkScheduler (1 * Second) (Main.fetchInterval cfg)), s.
  pose proof (delayAfter_range cfg Hc (streak outcomes)) as R.
  unfold delayAfter in *. rewrite Em in *.
  change (1 * Second) with Second.
  repeat split; try assumption; try lia.
  - intros k E. rewrite E in Hp. exact Hp.
  - intros E. rewrite Hd, E. change (2 ^ Z.of_nat 0) with 1.
    unfold Second in *. lia.
  - intros env f ticks w. unfold Main.serve. rewrite Estart.
    destruct (Processor.ProcessWithRecovery env cfg f w) as [initial w1].
    apply timerCycles_schedule.
Qed.

(** Base 1 s, ceiling 300 s: the ticker is given 1 s, 2 s and 4 s after
    the first three failures and 8 s is stored for the fourth. *)
Lemma backoff_schedule_witness :
  exists s,
    Main.schedule Scenario.cfg [false; false; false]
      (Main.mkScheduler Second (60 * Second)) = Processor.Ret s
    /\ Main.period s = 4 * Second /\ Main.backoffDelay s = 8 * Second.
Proof.
  destruct (backoff_schedule Scenario.cfg [false; false; false])
    as (s0 & s & E0 & _ & Es & _ & Hd & Hp & _).
  - simpl. split; discriminate.
  - simpl. split; discriminate.
  - vm_compute in E0. injection E0 as <-.
    exists s. split; [exact Es|].
    split; [apply (Hp 2%nat); reflexivity|exact Hd].
Defined.

Example backoff_delays_used :
  map
    (fun n =>
       match Main.schedule Scenario.cfg (repeat false n)
               (Main.mkScheduler Second (60 * Second)) with
       | Processor.Ret s => Main.period s / Second
       | Processor.Panic => -1
       end)
    [1; 2; 3; 4; 8; 9; 10; 11]%nat
  = [1; 2; 4; 8; 128; 256; 300; 300].
Proof. vm_compute. reflexivity. Qed.

Example backoff_reset_on_success :
  Main.schedule Scenario.cfg [false; false; false; true]
    (Main.mkScheduler Second (60 * Second))
  = Processor.Ret (Main.mkScheduler Second (60 * Second)).
Proof. vm_compute. reflexivity. Qed.

(** C7, as claimed, fails: a cycle that finds the context cancelled before
    its first page is reported as failed, the failed-request counter goes
    from 0 to 1, and the scheduler takes its failure branch (the ticker is
    given the backoff delay of one second and the delay is doubled). *)
Lemma cancellation_is_counted_as_failure :
  let e := Scenario.env (fun _ => Marker.WriteOk) Scenario.busyServer
             Scenario.goodNet (fun _ => true) in
  let r := Processor.ProcessWithRecovery e Scenario.cfg Scenario.formatter
             (Scenario.fresh "") in
  fst (Processor.ProcessEvents e Scenario.cfg Scenario.formatter (Scenario.fresh ""))
  = Processor.Ret Processor.Cancelled
  /\ fst r = false
  /\ Processor.FailedAPIRequests (Processor.stats (Scenario.fresh "")) = 0
  /\ Processor.FailedAPIRequests (Processor.stats (snd r)) = 1
  /\ Main.onCycle Scenario.cfg (fst r) (Main.mkScheduler Second (60 * Second))
     = Processor.Ret (Main.mkScheduler (2 * Second) Second).
Proof. vm_compute. repeat split; reflexivity. Qed.

(** C7, amended.  When the poll before a page finds the context cancelled,
    the cycle stops there with the cancellation error and nothing else
    happens in that pass, so the counters keep what the earlier passes
    added.  [ProcessWithRecovery] treats the cancellation error like any
    other failure: it adds one to the failed-request counter, leaves the
    events-forwarded total alone and returns [false], on which the
    scheduler takes its failure branch (backoff). *)
Theorem cancellation_aborts_and_fails
    (env : Processor.Env) (cfg : Processor.Config) (f : Cef.Formatter) :
  (forall remaining l w,
      Processor.ctxDone env (Processor.donePolls w) = true ->
      Processor.pageLoop env cfg f (S remaining) l w
      = (Processor.Ret Processor.Cancelled, Processor.polled w))
  /\ (forall w w',
        Processor.ProcessEvents env cfg f w = (Processor.Ret Processor.Cancelled, w') ->
        Processor.ProcessWithRecovery env cfg f w
        = (false,
           Processor.withStats
             (Processor.IncrementFailedAPIRequests (Processor.stats w')) w')
        /\ Processor.TotalEventsForwarded
             (Processor.stats (snd (Processor.ProcessWithRecovery env cfg f w)))
           = Processor.TotalEventsForwarded (Processor.stats w')
        /\ forall s,
             Main.onCycle cfg (fst (Processor.ProcessWithRecovery env cfg f w)) s
             = let doubled := wrap64 (Main.backoffDelay s * 2) in
               Main.resetTicker (Main.backoffDelay s)
                 (if doubled >? Main.maxBackoff cfg then Main.maxBackoff cfg
                  else doubled)).
Proof.
  split.
  - intros remaining l w D. simpl. unfold Processor.pass. rewrite D. reflexivity.
  - intros w w' E. unfold Processor.ProcessWithRecovery. rewrite E. simpl.
    repeat split; reflexivity.
Qed.

(** Cancellation arrives after the first page: its event stays counted,
    and the cycle is reported as failed. *)
Lemma cancellation_aborts_and_fails_witness :
  let e := Scenario.env (fun _ => Marker.WriteOk) Scenario.busyServer
             Scenario.goodNet (fun k => Nat.eqb k 1) in
  let r := Processor.ProcessWithRecovery e Scenario.cfg Scenario.formatter
             (Scenario.fresh "") in
  fst r = false
  /\ Processor.TotalEventsForwarded (Processor.stats (snd r)) = 1
  /\ Processor.FailedAPIRequests (Processor.stats (snd r)) = 1.
Proof.
  cbv zeta.
  destruct
    (cancellation_aborts_and_fails
       (Scenario.env (fun _ => Marker.WriteOk) Scenario.busyServer
          Scenario.goodNet (fun k => Nat.eqb k 1))
       Scenario.cfg Scenario.formatter) as [_ H].
  destruct (Processor.ProcessEvents
              (Scenario.env (fun _ => Marker.WriteOk) Scenario.busyServer
                 Scenario.goodNet (fun k => Nat.eqb k 1))
              Scenario.cfg Scenario.formatter (Scenario.fresh "")) as [r w'] eqn:E.
  vm_compute in E. injection E as <- <-.
  destruct (H (Scenario.fresh "") _ eq_refl) as (-> & _ & _).
  vm_compute. repeat split; reflexivity.
Defined.

(** C8.  A successful fetch comes from a 200 response with a well-formed
    body, and the page it returns has [HasMore] set exactly when the
    response carries a marker that is not empty and the page holds at least
    one extracted event; so an empty page or an absent marker gives
    [HasMore = false]. *)
Theorem has_more_iff
    (http : nat -> Api.HttpOutcome) (marker : string) (c c' : Api.Client)
    (page : Api.EventsPage) :
  Api.FetchEventsPage http marker c = (inl page, c') ->
  exists response,
    http (Api.calls c) = Api.Reply 200 (Some response)
    /\ Api.Events page = Api.extractEvents response
    /\ (Api.HasMore page = true <->
        (exists m, Api.Marker response = Some m /\ m <> "")
        /\ (1 <= List.length (Api.Events page))%nat)
    /\ (Api.Events page = [] -> Api.HasMore page = false)
    /\ (Api.Marker response = None -> Api.HasMore page = false).
Proof.
  unfold Api.FetchEventsPage. intros H. injection H as H _.
  destruct (http (Api.calls c)) as [| |status [response|]]; simpl in H;
    try discriminate.
  - destruct (Z.eqb_spec status 200) as [->|]; simpl in H; [|discriminate].
    destruct (Api.Errors response); [|discriminate].
    exists response. split; [reflexivity|].
    destruct (Api.Marker response) as [m|]; injection H as <-; simpl.
    + rewrite has_events. split; [reflexivity|].
      destruct (Api.extractEvents response) as [|ev evs]; simpl.
      * repeat split; try discriminate; try lia; intros [_ ?]; lia.
      * rewrite nonempty_true. repeat split; try discriminate; try lia.
        -- exists m. auto.
        -- intros [[m' [E Hm]] _]. congruence.
    + repeat split; try discriminate; auto.
      intros [[m [? _]] _]. discriminate.
  - destruct (status =? 200); discriminate.
Qed.

(** The first answer of the busy server: one event and the marker "A". *)
Lemma has_more_iff_witness :
  let page := Api.mkPage [Scenario.threat] "A" true in
  exists response,
    Scenario.busyServer 0 = Api.Reply 200 (Some response)
    /\ Api.Events page = Api.extractEvents response
    /\ (Api.HasMore page = true <->
        (exists m, Api.Marker response = Some m /\ m <> "")
        /\ (1 <= List.length (Api.Events page))%nat)
    /\ (Api.Events page = [] -> Api.HasMore page = false)
    /\ (Api.Marker response = None -> Api.HasMore page = false).
Proof.
  exact (has_more_iff Scenario.busyServer "" (Api.mkClient 0 [])
           (Api.mkClient 1 [None]) (Api.mkPage [Scenario.threat] "A" true)
           eq_refl).
Defined.

(** C9.  The formatter at an input where its output is not determined: the
    rename table of the README's configuration example sends both
    [event_sub_type] and [action] to [act], and the event has both.  Two
    orders in which the runtime may iterate over that table give two
    different messages.  (What does hold is [Format_fields_order] and
    [Format_table_order] above.) *)
Theorem format_depends_on_rename_table_order :
  let f := Cef.mkFormatter "Cato Networks" "SASE Platform" "1.0"
             Scenario.readmeMappings Scenario.readmeOrdered in
  let f' := Cef.mkFormatter "Cato Networks" "SASE Platform" "1.0"
              (rev Scenario.readmeMappings) Scenario.readmeOrdered in
  Permutation (Cef.fieldMappings f) (Cef.fieldMappings f')
  /\ NoDup (keys (Cef.fieldMappings f))
  /\ NoDup (keys Scenario.blocked)
  /\ Cef.Format f Scenario.blocked
     = "CEF:0|Cato Networks|SASE Platform|1.0|Security|Security - Internet Firewall|8|src=10.0.0.7 act=Block cat=Security"
  /\ Cef.Format f' Scenario.blocked
     = "CEF:0|Cato Networks|SASE Platform|1.0|Security|Security - Internet Firewall|8|src=10.0.0.7 act=Internet Firewall cat=Security".
Proof.
  cbv zeta. split; [apply Permutation_rev|]. split; [|split].
  - simpl. repeat constructor; simpl; intuition discriminate.
  - simpl. repeat constructor; simpl; intuition discriminate.
  - split; vm_compute; reflexivity.
Qed.

(** C10.  [ProcessWithRecovery] returns [false] only when [ProcessEvents]
    returned its cancellation error or panicked; the first needs a poll of
    the context that found it cancelled, the second a negative message
    size.  Without those the cycle completes and reports success whatever
    the fetches, the writes, the reconnects and the marker file do, and the
    scheduler takes its success branch: the ticker goes back to the fetch
    interval and the backoff delay to one second. *)
Theorem cycle_fails_only_on_cancel_or_panic
    (env : Processor.Env) (cfg : Processor.Config) (f : Cef.Formatter)
    (w : Processor.World) :
  let r := fst (Processor.ProcessEvents env cfg f w) in
  let success := fst (Processor.ProcessWithRecovery env cfg f w) in
  (success = false <-> r = Processor.Ret Processor.Cancelled \/ r = Processor.Panic)
  /\ (r = Processor.Ret Processor.Cancelled ->
      exists k, Processor.ctxDone env k = true)
  /\ (r = Processor.Panic -> Processor.MaxMsgSize cfg < 0)
  /\ ((forall k, Processor.ctxDone env k = false) ->
      0 <= Processor.MaxMsgSize cfg ->
      success = true
      /\ forall s,
           Main.onCycle cfg success s
           = Main.resetTicker (Main.fetchInterval cfg) (1 * Second)).
Proof.
  cbv zeta. rewrite ProcessWithRecovery_result.
  assert (fst (Processor.ProcessEvents env cfg f w)
          = Processor.Ret Processor.Cancelled ->
          exists k, Processor.ctxDone env k = true) as HC.
  { unfold Processor.ProcessEvents.
    destruct (Processor.pageLoop _ _ _ _ _ _) as [r w'] eqn:E. simpl.
    intros ->. eapply pageLoop_cancelled_inv; eassumption. }
  assert (fst (Processor.ProcessEvents env cfg f w) = Processor.Panic ->
          Processor.MaxMsgSize cfg < 0) as HP.
  { unfold Processor.ProcessEvents.
    destruct (Processor.pageLoop _ _ _ _ _ _) as [r w'] eqn:E. simpl.
    intros ->. eapply pageLoop_panic_inv; eassumption. }
  split; [|split; [exact HC|split; [exact HP|]]].
  - destruct (fst (Processor.ProcessEvents env cfg f w)) as [[|summary]|];
      (split; [intros ?; (discriminate || auto)
              | intros [?|?]; (discriminate || reflexivity)]).
  - intros Hdone Hsize.
    destruct (fst (Processor.ProcessEvents env cfg f w)) as [[|summary]|].
    + destruct HC as [k Hk]; [reflexivity|]. rewrite Hdone in Hk. discriminate.
    + split; reflexivity.
    + specialize (HP eq_refl). lia.
Qed.

(** Every round trip fails and the collector is gone: the cycle still
    reports success. *)
Lemma cycle_fails_only_on_cancel_or_panic_witness :
  fst (Processor.ProcessWithRecovery
         (Scenario.env (fun _ => Marker.WriteFails) (fun _ => Api.CannotSend)
            Scenario.deadNet (fun _ => false))
         Scenario.cfg Scenario.formatter (Scenario.fresh "")) = true.
Proof.
  pose proof
    (cycle_fails_only_on_cancel_or_panic
       (Scenario.env (fun _ => Marker.WriteFails) (fun _ => Api.CannotSend)
          Scenario.deadNet (fun _ => false))
       Scenario.cfg Scenario.formatter (Scenario.fresh "")) as H.
  cbv zeta in H. destruct H as (_ & _ & _ & H).
  apply H.
  - intros k. reflexivity.
  - simpl. discriminate.
Defined.

(** * Further properties *)

(** ** Strings *)

Lemma append_assoc (a b c : string) : (a ++ b) ++ c = a ++ (b ++ c).
Proof. induction a as [|x a IH]; simpl; [reflexivity|]. rewrite IH. reflexivity. Qed.

Lemma length_append (a b : string) :
  String.length (a ++ b) = (String.length a + String.length b)%nat.
Proof. induction a as [|x a IH]; simpl; [reflexivity|]. rewrite IH. reflexivity. Qed.

Lemma bytes_append (a b : string) : bytes (a ++ b) = (bytes a ++ bytes b)%list.
Proof.
  unfold bytes. induction a as [|x a IH]; simpl; [reflexivity|].
  rewrite IH. reflexivity.
Qed.

Lemma length_substring_0 (n : nat) (s : string) :
  String.length (substring 0 n s) = Nat.min n (String.length s).
Proof.
  revert s. induction n as [|n IH]; intros [|c s]; simpl; try reflexivity.
  rewrite IH. reflexivity.
Qed.

(** ** Escaping of values *)

Section Escaping.

Import Cef.

Lemma replaceAll_app (old : ascii) (new a b : string) :
  replaceAll old new (a ++ b) = replaceAll old new a ++ replaceAll old new b.
Proof.
  induction a as [|c a IH]; simpl; [reflexivity|].
  destruct (Ascii.eqb c old); simpl; rewrite IH; [|reflexivity].
  symmetry. apply append_assoc.
Qed.

Lemma sanitizeValue_app (a b : string) :
  sanitizeValue (a ++ b) = sanitizeValue a ++ sanitizeValue b.
Proof. unfold sanitizeValue. rewrite !replaceAll_app. reflexivity. Qed.

Lemma sanitizeValue_byte (c : ascii) :
  sanitizeValue (String c EmptyString) = escape c.
Proof.
  unfold escape.
  destruct (Ascii.eqb_spec c backslash) as [->|N1]; [reflexivity|].
  destruct (Ascii.eqb_spec c "="%char) as [->|N2]; [reflexivity|].
  destruct (Ascii.eqb_spec c "|"%char) as [->|N3]; [reflexivity|].
  destruct (Ascii.eqb_spec c LF) as [->|N4]; [reflexivity|].
  destruct (Ascii.eqb_spec c CR) as [->|N5]; [reflexivity|].
  unfold sanitizeValue. simpl.
  apply Ascii.eqb_neq in N1, N2, N3, N4, N5.
  rewrite N1. simpl. rewrite N2. simpl. rewrite N3. simpl. rewrite N4. simpl.
  rewrite N5. reflexivity.
Qed.

(** The five replacement passes amount to one pass that escapes each byte
    on its own: a backslash put in by one pass is not escaped again by a
    later one. *)
Lemma sanitizeValue_escapeAll (s : string) : sanitizeValue s = escapeAll s.
Proof.
  induction s as [|c s IH]; [reflexivity|].
  change (String c s) with (String c EmptyString ++ s).
  rewrite sanitizeValue_app, sanitizeValue_byte, IH. reflexivity.
Qed.

Lemma unescape_escape (c : ascii) (rest : string) :
  unescape (escape c ++ rest) = String c (unescape rest).
Proof.
  unfold escape.
  destruct (Ascii.eqb_spec c backslash) as [->|N1]; [reflexivity|].
  destruct (Ascii.eqb_spec c "="%char) as [->|N2]; [reflexivity|].
  destruct (Ascii.eqb_spec c "|"%char) as [->|N3]; [reflexivity|].
  destruct (Ascii.eqb_spec c LF) as [->|N4]; [reflexivity|].
  destruct (Ascii.eqb_spec c CR) as [->|N5]; [reflexivity|].
  simpl. apply Ascii.eqb_neq in N1. rewrite N1. reflexivity.
Qed.

Lemma escape_no_line_break (c x : ascii) :
  In x (bytes (escape c)) -> x <> LF /\ x <> CR.
Proof.
  unfold escape.
  destruct (Ascii.eqb_spec c backslash) as [->|N1];
    [simpl; intros [<-|[<-|[]]]; split; discriminate|].
  destruct (Ascii.eqb_spec c "="%char) as [->|N2];
    [simpl; intros [<-|[<-|[]]]; split; discriminate|].
  destruct (Ascii.eqb_spec c "|"%char) as [->|N3];
    [simpl; intros [<-|[<-|[]]]; split; discriminate|].
  destruct (Ascii.eqb_spec c LF) as [->|N4];
    [simpl; intros [<-|[<-|[]]]; split; discriminate|].
  destruct (Ascii.eqb_spec c CR) as [->|N5];
    [simpl; intros [<-|[<-|[]]]; split; discriminate|].
  simpl. intros [<-|[]]. split; assumption.
Qed.

End Escaping.

(** X1.  A sanitized value can be read back: undoing the escape pairs
    returns the original value, so [sanitizeValue] loses nothing and two
    different values never get the same sanitized form. *)
Theorem sanitizeValue_round_trip (value other : string) :
  unescape (Cef.sanitizeValue value) = value
  /\ (Cef.sanitizeValue value = Cef.sanitizeValue other -> value = other).
Proof.
  assert (forall s, unescape (Cef.sanitizeValue s) = s) as R.
  { intros s. rewrite sanitizeValue_escapeAll.
    induction s as [|c s IH]; [reflexivity|].
    simpl. rewrite unescape_escape, IH. reflexivity. }
  split; [apply R|].
  intros E. rewrite <- (R value), <- (R other), E. reflexivity.
Qed.

(** X2.  A sanitized value holds no line feed and no carriage return, and
    it is at least as long as the value. *)
Theorem sanitizeValue_no_line_break (value : string) :
  (forall x, In x (bytes (Cef.sanitizeValue value)) -> x <> Cef.LF /\ x <> Cef.CR)
  /\ (String.length value <= String.length (Cef.sanitizeValue value))%nat.
Proof.
  rewrite sanitizeValue_escapeAll. split.
  - induction value as [|c s IH]; simpl; [intros x []|].
    intros x. rewrite bytes_append, in_app_iff.
    intros [H|H]; [eapply escape_no_line_break; eassumption|auto].
  - induction value as [|c s IH]; simpl; [lia|].
    rewrite length_append.
    assert (1 <= String.length (escape c))%nat; [|lia].
    unfold escape.
    repeat match goal with |- context [if ?b then _ else _] => destruct b end;
      simpl; lia.
Qed.

(** X3.  The severity put in the header is between 1 and 10 for every
    event type, known or not. *)
Theorem severity_in_range (eventType : string) :
  1 <= Cef.mapEventTypeToSeverity eventType <= 10.
Proof.
  unfold Cef.mapEventTypeToSeverity.
  destruct (find _ Cef.severityMap) as [[name severity]|] eqn:F; [|lia].
  apply find_some in F. destruct F as [F _].
  simpl in F.
  repeat (destruct F as [F|F]; [injection F as _ <-; lia|]).
  contradiction.
Qed.

(** ** The order and the content of the extension *)

Section Sorting.

Import Cef.

Lemma insertSorted_perm (s : string) (l : list string) :
  Permutation (s :: l) (insertSorted s l).
Proof.
  induction l as [|t l IH]; simpl; [reflexivity|].
  destruct (String.leb s t); [reflexivity|].
  rewrite perm_swap. apply perm_skip, IH.
Qed.

Lemma sortStrings_perm (l : list string) : Permutation l (sortStrings l).
Proof.
  induction l as [|s l IH]; simpl; [reflexivity|].
  rewrite <- insertSorted_perm. apply perm_skip, IH.
Qed.

Lemma insertSorted_sorted (s : string) (l : list string) :
  StronglySorted ascending l -> StronglySorted ascending (insertSorted s l).
Proof.
  induction 1 as [|t l Hs IH Hall]; simpl.
  - repeat constructor.
  - destruct (String.leb s t) eqn:E.
    + constructor; [constructor; assumption|].
      constructor; [exact E|].
      eapply Forall_impl; [|exact Hall].
      intros u Hu. unfold ascending in *. eapply string_leb_trans; eassumption.
    + constructor; [exact IH|].
      apply (Permutation_Forall (insertSorted_perm s l)).
      constructor; [|assumption].
      apply string_leb_false. assumption.
Qed.

Lemma sortStrings_sorted (l : list string) : StronglySorted ascending (sortStrings l).
Proof.
  induction l as [|s l IH]; simpl; [constructor|].
  apply insertSorted_sorted, IH.
Qed.

End Sorting.

Section Emitting.

Import Cef.

Lemma Format_parts (f : Formatter) (fields : StrMap) :
  Format f fields = header f fields ++ String.concat " " (partsOf f fields).
Proof. rewrite Format_unfold. reflexivity. Qed.

Lemma emitStep_keeps (acc : list string * StrMap) (field x : string) :
  In x (fst acc) -> In x (fst (emitStep acc field)).
Proof.
  unfold emitStep. destruct (lookup field (snd acc)); simpl; [|auto].
  intros H. apply in_or_app. auto.
Qed.

Lemma emitted_stays (ordered : list string) :
  forall acc x, In x (fst acc) -> In x (fst (fold_left emitStep ordered acc)).
Proof.
  induction ordered as [|field ordered IH]; intros acc x H; simpl; [assumption|].
  apply IH, emitStep_keeps, H.
Qed.

(** Every entry of the extension map is emitted by the loop over the
    ordered fields or is still in the map after it. *)
Lemma emitted_or_left (ordered : list string) :
  forall acc k v,
    lookup k (snd acc) = Some v ->
    In (pair_text k v) (fst (fold_left emitStep ordered acc))
    \/ lookup k (snd (fold_left emitStep ordered acc)) = Some v.
Proof.
  induction ordered as [|field ordered IH]; intros acc k v H; simpl; [auto|].
  unfold emitStep at 2 4.
  destruct (lookup field (snd acc)) as [value|] eqn:L; [|apply IH, H].
  destruct (String.eqb_spec field k) as [->|N].
  - left. apply emitted_stays. simpl. apply in_or_app. right.
    rewrite H in L. injection L as <-. left. reflexivity.
  - apply IH. simpl. rewrite lookup_remove_key.
    destruct (String.eqb_spec field k); [contradiction|assumption].
Qed.

Lemma emitRemaining_all (e : StrMap) (k v : string) :
  lookup k e = Some v -> In (pair_text k v) (emitRemaining e).
Proof.
  intros H. unfold emitRemaining.
  replace v with (valueOf k e) by (unfold valueOf; rewrite H; reflexivity).
  apply (in_map (fun field => pair_text field (valueOf field e))).
  apply (Permutation_in _ (sortStrings_perm (keys e))).
  apply lookup_In_keys. congruence.
Qed.

Lemma extension_emitted (f : Formatter) (fields : StrMap) (k v : string) :
  lookup k (extensionsOf (fieldMappings f) fields) = Some v ->
  In (pair_text k v) (partsOf f fields).
Proof.
  intros H. unfold partsOf. cbv zeta. apply in_or_app.
  destruct (emitted_or_left (orderedFields f)
              ([], extensionsOf (fieldMappings f) fields) k v H) as [E|E].
  - left. exact E.
  - right. apply emitRemaining_all, E.
Qed.

End Emitting.

Section Assigned.

Variable A : Type.
Variables (key val : A -> string) (cond : A -> bool).

Abbreviation put := (put A key val cond).

Lemma fold_put_other (l : list A) (k : string) :
  (forall y, In y l -> cond y = true -> key y <> k) ->
  forall e, lookup k (fold_left put l e) = lookup k e.
Proof.
  induction l as [|y l IH]; intros H e; simpl; [reflexivity|].
  rewrite IH by (intros z Hz; apply H; right; assumption).
  unfold Spec.put. destruct (cond y) eqn:C; [|reflexivity].
  rewrite lookup_assign.
  destruct (String.eqb_spec (key y) k) as [E|]; [|reflexivity].
  exfalso. apply (H y); auto. left. reflexivity.
Qed.

(** Among assignments to pairwise distinct keys, each one stands at the
    end. *)
Lemma fold_put_lookup (l : list A) :
  NoDup (map key l) ->
  forall x e,
    In x l -> cond x = true ->
    lookup (key x) (fold_left put l e) = Some (val x).
Proof.
  induction l as [|y l IH]; intros H x e Hx C; [contradiction|].
  simpl. inversion H as [|? ? Hn Hd]; subst.
  destruct Hx as [->|Hx].
  - rewrite fold_put_other.
    + unfold Spec.put. rewrite C, lookup_assign, String.eqb_refl. reflexivity.
    + intros z Hz _ E. apply Hn. rewrite <- E. apply in_map. assumption.
  - apply IH; assumption.
Qed.

End Assigned.

Lemma lookup_In (k v : string) (m : StrMap) :
  NoDup (keys m) -> lookup k m = Some v -> In (k, v) m.
Proof.
  induction m as [|[k0 v0] m IH]; simpl; intros H L; [discriminate|].
  destruct (String.eqb_spec k0 k) as [->|N].
  - injection L as ->. left. reflexivity.
  - right. inversion H; subst. auto.
Qed.

(** X4.  A field of the event that the rename table does not mention and
    whose value is not empty is never dropped: the message carries it under
    its own name with its sanitized value.  The message is the header
    followed by the pieces joined by single spaces. *)
Theorem unmapped_field_is_emitted
    (f : Cef.Formatter) (fields : StrMap) (k v : string) :
  NoDup (keys fields) ->
  lookup k fields = Some v ->
  v <> "" ->
  Cef.isMappedField k (Cef.fieldMappings f) = false ->
  In (Cef.pair_text k (Cef.sanitizeValue v)) (partsOf f fields)
  /\ Cef.Format f fields
     = Cef.header f fields ++ String.concat " " (partsOf f fields).
Proof.
  intros Hn L Hv Hm. split; [|apply Format_parts].
  apply extension_emitted. unfold extensionsOf.
  rewrite addUnmapped_as_put.
  apply (fold_put_lookup (string * string) fst (fun kv => Cef.sanitizeValue (snd kv))
           (fun kv => negb (Cef.isMappedField (fst kv) (Cef.fieldMappings f))
                      && nonempty (snd kv))
           fields Hn (k, v)).
  - apply lookup_In; assumption.
  - simpl. rewrite Hm. simpl. apply nonempty_true. assumption.
Qed.

Lemma unmapped_field_is_emitted_witness :
  In "event_type=Threat" (partsOf Scenario.formatter Scenario.threat).
Proof.
  apply (unmapped_field_is_emitted Scenario.formatter Scenario.threat
           "event_type" "Threat").
  - simpl. repeat constructor; simpl; intuition discriminate.
  - reflexivity.
  - discriminate.
  - reflexivity.
Defined.

(** X5.  When no two source fields are renamed to the same wire field, a
    renamed field whose value is not empty is emitted under its wire name
    with its sanitized value, provided the event has no field of its own
    with that wire name outside the rename table. *)
Theorem renamed_field_is_emitted
    (f : Cef.Formatter) (fields : StrMap) (source target v : string) :
  NoDup (map snd (Cef.fieldMappings f)) ->
  In (source, target) (Cef.fieldMappings f) ->
  lookup source fields = Some v ->
  v <> "" ->
  (lookup target fields = None
   \/ Cef.isMappedField target (Cef.fieldMappings f) = true) ->
  In (Cef.pair_text target (Cef.sanitizeValue v)) (partsOf f fields).
Proof.
  intros Hinj Hin L Hv Hfree.
  apply extension_emitted. unfold extensionsOf.
  rewrite addUnmapped_as_put, fold_put_other.
  - rewrite applyMappings_as_put.
    pose proof
      (fold_put_lookup (string * string) snd
         (fun st => Cef.sanitizeValue (Cef.valueOf (fst st) fields))
         (fun st => match lookup (fst st) fields with
                    | Some value => nonempty value
                    | None => false
                    end)
         (Cef.fieldMappings f) Hinj (source, target) [] Hin) as P.
    simpl in P. unfold Cef.valueOf in P. rewrite L in P.
    apply P, nonempty_true. assumption.
  - intros [k' v'] Hy C E. simpl in C, E. subst k'.
    apply andb_prop in C. destruct C as [C1 C2].
    destruct Hfree as [Hnone|Hmapped].
    + assert (In target (keys fields)) as Hk
        by (apply (in_map fst fields (target, v')); assumption).
      apply lookup_In_keys in Hk. contradiction.
    + rewrite Hmapped in C1. discriminate.
Qed.

Lemma renamed_field_is_emitted_witness :
  In "src=1.2.3.4" (partsOf Scenario.formatter Scenario.threat).
Proof.
  apply (renamed_field_is_emitted Scenario.formatter Scenario.threat
           "src_ip" "src" "1.2.3.4").
  - simpl. repeat constructor; simpl; intuition.
  - left. reflexivity.
  - reflexivity.
  - discriminate.
  - left. reflexivity.
Defined.

Section Layout.

Import Cef.

Lemma keys_remove_key (k : string) (m : StrMap) :
  keys (remove_key k m) = filter (fun x => negb (String.eqb x k)) (keys m).
Proof.
  induction m as [|[k0 v0] m IH]; simpl; [reflexivity|].
  destruct (String.eqb k0 k); simpl; [exact IH|]. rewrite IH. reflexivity.
Qed.

Lemma present_remove_key (k field : string) (m : StrMap) :
  present (remove_key field m) k = negb (String.eqb k field) && present m k.
Proof.
  unfold present. rewrite lookup_remove_key, (String.eqb_sym k field).
  destruct (String.eqb field k); reflexivity.
Qed.

Lemma filter_twice (A : Type) (p q : A -> bool) (l : list A) :
  filter p (filter q l) = filter (fun x => q x && p x) l.
Proof.
  induction l as [|x l IH]; simpl; [reflexivity|].
  destruct (q x); simpl; [destruct (p x)|]; rewrite IH; reflexivity.
Qed.

(** The loop over the ordered fields: it emits the ordered fields that are
    keys of the map, each once and where the list first has it, and leaves
    the other entries as they were, in their order. *)
Lemma emitOrdered_layout (ordered : list string) :
  forall acc e,
    let r := fold_left emitStep ordered (acc, e) in
    fst r
    = (acc ++ map (fun k => pair_text k (valueOf k e))
                (filter (present e) (firstOccurrences ordered)))%list
    /\ keys (snd r) = filter (fun k => negb (listed ordered k)) (keys e)
    /\ forall k, listed ordered k = false -> lookup k (snd r) = lookup k e.
Proof.
  induction ordered as [|field ordered IH]; intros acc e; cbv zeta.
  - simpl. rewrite app_nil_r. split; [reflexivity|]. split; [|reflexivity].
    induction (keys e) as [|k l IHl]; simpl; [reflexivity|]. rewrite <- IHl.
    reflexivity.
  - cbn [fold_left firstOccurrences filter]. unfold emitStep at 2 4 6.
    cbn [fst snd]. unfold present at 1 3.
    destruct (lookup field e) as [value|] eqn:L.
    + specialize (IH (acc ++ [pair_text field value])%list (remove_key field e)).
      cbv zeta in IH. destruct IH as (If & Ik & Il).
      split; [|split].
      * rewrite If, <- app_assoc. f_equal. cbn [app map]. f_equal.
        { unfold valueOf. rewrite L. reflexivity. }
        rewrite filter_twice.
        rewrite (filter_ext (present (remove_key field e))
                   (fun x => negb (String.eqb x field) && present e x))
          by (intros k; apply present_remove_key).
        apply map_ext_in. intros k Hk. apply filter_In in Hk.
        destruct Hk as [_ Hk]. apply andb_prop in Hk. destruct Hk as [Hk _].
        unfold valueOf. rewrite lookup_remove_key, (String.eqb_sym field k).
        apply negb_true_iff in Hk. rewrite Hk. reflexivity.
      * rewrite Ik, keys_remove_key, filter_twice. apply filter_ext.
        intros k. unfold listed. cbn [existsb].
        rewrite negb_orb. reflexivity.
      * intros k Hk. unfold listed in Hk. cbn [existsb] in Hk.
        apply orb_false_iff in Hk. destruct Hk as [Hf Hr].
        rewrite (Il k Hr), lookup_remove_key, (String.eqb_sym field k), Hf.
        reflexivity.
    + specialize (IH acc e). cbv zeta in IH. destruct IH as (If & Ik & Il).
      split; [|split].
      * rewrite If. f_equal. f_equal. rewrite filter_twice.
        apply filter_ext_in. intros k _.
        destruct (String.eqb_spec k field) as [->|N]; [|reflexivity].
        unfold present. rewrite L. reflexivity.
      * rewrite Ik. apply filter_ext_in. intros k Hk.
        unfold listed. cbn [existsb].
        destruct (String.eqb_spec k field) as [->|N]; [|reflexivity].
        apply lookup_In_keys in Hk. congruence.
      * intros k Hk. unfold listed in Hk. cbn [existsb] in Hk.
        apply orb_false_iff in Hk. destruct Hk as [_ Hr]. apply Il, Hr.
Qed.

End Layout.

(** X6.  The layout of the extension.  After the header, [Format] emits one
    [key=value] piece for every key of the extension map, joined by single
    spaces: first the ordered fields that are keys of the map, in the order
    of the ordered list (a field listed twice is emitted where it comes
    first), then the keys outside the ordered list, in ascending byte
    order. *)
Theorem Format_ordered_then_sorted (f : Cef.Formatter) (fields : StrMap) :
  let extensions := extensionsOf (Cef.fieldMappings f) fields in
  let piece := fun k => Cef.pair_text k (Cef.valueOf k extensions) in
  let first :=
    filter (present extensions) (firstOccurrences (Cef.orderedFields f)) in
  exists rest,
    Cef.Format f fields
    = Cef.header f fields ++ String.concat " " (map piece (first ++ rest))
    /\ Permutation rest
         (filter (fun k => negb (listed (Cef.orderedFields f) k)) (keys extensions))
    /\ StronglySorted ascending rest.
Proof.
  cbv zeta. rewrite Format_unfold. cbv zeta.
  destruct (emitOrdered_layout (Cef.orderedFields f) []
              (extensionsOf (Cef.fieldMappings f) fields)) as (Ef & Ek & El).
  set (r := fold_left emitStep (Cef.orderedFields f)
              ([], extensionsOf (Cef.fieldMappings f) fields)) in *.
  exists (Cef.sortStrings (keys (snd r))).
  split; [|split].
  - f_equal. f_equal. rewrite map_app, Ef. cbn [app]. f_equal.
    unfold Cef.emitRemaining. apply map_ext_in. intros k Hk.
    apply (Permutation_in _ (Permutation_sym (sortStrings_perm (keys (snd r)))))
      in Hk.
    rewrite Ek in Hk. apply filter_In in Hk. destruct Hk as [_ Hk].
    apply negb_true_iff in Hk. unfold Cef.valueOf. rewrite (El k Hk). reflexivity.
  - rewrite <- Ek. apply Permutation_sym, sortStrings_perm.
  - apply sortStrings_sorted.
Qed.

(** ** Fetching with retries *)

Section Retrying.

Import Api.

Variable http : nat -> HttpOutcome.

Lemma retryLoop_requests (left : nat) :
  forall marker lastErr c,
    let c' := snd (retryLoop http left marker lastErr c) in
    exists n,
      calls c' = (calls c + n)%nat
      /\ requests c' = (repeat (buildRequest marker) n ++ requests c)%list.
Proof.
  induction left as [|left IH]; intros marker lastErr c; simpl.
  - exists O. split; [lia|reflexivity].
  - destruct (parsePage (http (calls c))) as [page|err]; simpl.
    + exists 1%nat. split; [lia|reflexivity].
    + destruct (IH marker (Some err)
                  (mkClient (S (calls c)) (buildRequest marker :: requests c)))
        as (n & Hc & Hr).
      simpl in Hc, Hr. exists (S n). split; [lia|].
      rewrite Hr.
      change (buildRequest marker :: requests c)
        with ([buildRequest marker] ++ requests c)%list.
      rewrite app_assoc, <- repeat_cons. reflexivity.
Qed.

Lemma retryLoop_first_success (left : nat) :
  forall marker lastErr c,
    let r := retryLoop http left marker lastErr c in
    match firstSuccess http (calls c) left with
    | Some k =>
        exists page,
          parsePage (http k) = inl page /\ fst r = inl page
          /\ calls (snd r) = S k
    | None =>
        calls (snd r) = (calls c + left)%nat
        /\ match left with
           | O => fst r = inr lastErr
           | S _ =>
               exists err,
                 parsePage (http (calls c + left - 1)%nat) = inr err
                 /\ fst r = inr (Some err)
           end
    end.
Proof.
  induction left as [|left IH]; intros marker lastErr c; simpl.
  - split; [lia|reflexivity].
  - destruct (parsePage (http (calls c))) as [page|err] eqn:E; simpl.
    + exists page. auto.
    + specialize (IH marker (Some err)
                    (mkClient (S (calls c)) (buildRequest marker :: requests c))).
      simpl in IH.
      destruct (firstSuccess http (S (calls c)) left) as [k|]; [exact IH|].
      destruct IH as [Hc Hr]. split; [lia|].
      destruct left as [|left'].
      * exists err. replace (calls c + 1 - 1)%nat with (calls c) by lia. auto.
      * destruct Hr as (e & He & Hr). exists e.
        replace (calls c + S (S left') - 1)%nat
          with (S (calls c) + S left' - 1)%nat by lia.
        auto.
Qed.

End Retrying.

(** X7.  [FetchWithRetry] stops at the first attempt that succeeds and
    returns its page without a further request; when all [maxAttempts]
    attempts fail it has made exactly that many requests and reports the
    error of the last one; with no attempt allowed it makes no request and
    fails with no underlying error.  Every request it sends carries the same
    marker. *)
Theorem FetchWithRetry_first_success
    (http : nat -> Api.HttpOutcome) (marker : string) (maxAttempts : Z)
    (c : Api.Client) :
  let attempts := Z.to_nat maxAttempts in
  let r := Api.FetchWithRetry http marker maxAttempts c in
  match firstSuccess http (Api.calls c) attempts with
  | Some k =>
      exists page,
        Api.parsePage (http k) = inl page /\ fst r = inl page
        /\ Api.calls (snd r) = S k
  | None =>
      Api.calls (snd r) = (Api.calls c + attempts)%nat
      /\ match attempts with
         | O => fst r = inr None
         | S _ =>
             exists err,
               Api.parsePage (http (Api.calls c + attempts - 1)%nat) = inr err
               /\ fst r = inr (Some err)
         end
  end
  /\ Api.requests (snd r)
     = (repeat (Api.buildRequest marker) (Api.calls (snd r) - Api.calls c)
        ++ Api.requests c)%list.
Proof.
  cbv zeta. unfold Api.FetchWithRetry. split.
  - apply retryLoop_first_success.
  - destruct (retryLoop_requests http (Z.to_nat maxAttempts) marker None c)
      as (n & Hc & Hr).
    cbv zeta in Hc, Hr. rewrite Hr, Hc.
    replace (Api.calls c + n - Api.calls c)%nat with n by lia. reflexivity.
Qed.

(** X8.  The events of a page are the records of the accounts that report
    no error, in the order of the response; the records of an account with
    an error string are left out, and the other accounts' records are
    kept. *)
Theorem extractEvents_skips_failed_accounts
    (response : Api.EventsFeedResponse) (event : StrMap) :
  (In event (Api.extractEvents response) <->
   exists account,
     In account (Api.Accounts response)
     /\ Api.ErrorString account = ""
     /\ In event (Api.Records account))
  /\ Api.extractEvents response
     = List.concat
         (map Api.Records
            (filter (fun account => String.eqb (Api.ErrorString account) "")
               (Api.Accounts response))).
Proof.
  unfold Api.extractEvents. split.
  - rewrite in_flat_map. split.
    + intros (account & Ha & He). exists account.
      destruct (nonempty (Api.ErrorString account)) eqn:N; [contradiction|].
      apply nonempty_false in N. auto.
    + intros (account & Ha & Hs & He). exists account. split; [assumption|].
      rewrite (proj2 (nonempty_false _) Hs). assumption.
  - induction (Api.Accounts response) as [|account accounts IH]; simpl;
      [reflexivity|].
    rewrite IH. unfold nonempty.
    destruct (String.eqb (Api.ErrorString account) ""); reflexivity.
Qed.

(** ** The host name of a message *)




(** ** The writer over its lifetime *)

Section WriterLifetime.

Import Syslog.

Variable net : Net.

Lemma call_keeps (w : Writer) (c : Call) :
  countInRange w ->
  countInRange (call net w c)
  /\ maxReconnects (call net w c) = maxReconnects w
  /\ reconnectDelay (call net w c) = reconnectDelay w
  /\ exists new, delivered (call net w c) = (new ++ delivered w)%list.
Proof.
  unfold countInRange. intros H. destruct c as [message|]; simpl.
  - unfold Write. destruct (conn w) as [[|]|]; simpl.
    + destruct (writeOk net (writes w)); simpl;
        (repeat split; try lia);
        [exists [(message ++ newline)%string]|exists []]; reflexivity.
    + repeat split; try lia. exists []. reflexivity.
    + repeat split; try lia. exists []. reflexivity.
  - unfold Reconnect.
    destruct (_ <? _); simpl; [repeat split; try lia; exists []; reflexivity|].
    destruct (Z.geb_spec (reconnectCount w) (maxReconnects w)); simpl;
      [repeat split; try lia; exists []; reflexivity|].
    destruct (dialOk net (dials w)); simpl;
      repeat split; try lia; exists []; reflexivity.
Qed.

End WriterLifetime.

(** X10.  Whatever sequence of writes and reconnects a writer goes through,
    its failure counter stays between zero and the ceiling, the ceiling and
    the cooldown stay as they were set, and the lines the collector has
    accepted are only added to, never changed or removed. *)
Theorem writer_invariants (net : Syslog.Net) (cs : list Call) (w : Syslog.Writer) :
  countInRange w ->
  countInRange (after net cs w)
  /\ Syslog.maxReconnects (after net cs w) = Syslog.maxReconnects w
  /\ Syslog.reconnectDelay (after net cs w) = Syslog.reconnectDelay w
  /\ exists new,
       Syslog.delivered (after net cs w) = (new ++ Syslog.delivered w)%list.
Proof.
  revert w. induction cs as [|c cs IH]; intros w H; simpl.
  - repeat split; try apply H. exists []. reflexivity.
  - destruct (call_keeps net w c H) as (H1 & H2 & H3 & new1 & H4).
    destruct (IH (call net w c) H1) as (I1 & I2 & I3 & new2 & I4).
    unfold after in *. simpl.
    split; [exact I1|]. split; [congruence|]. split; [congruence|].
    exists (new2 ++ new1)%list. rewrite I4, H4, app_assoc. reflexivity.
Qed.

(** After ten failed reconnects in a row the counter of a new writer is at
    its ceiling of 10. *)
Lemma writer_invariants_witness :
  countInRange (after Scenario.deadNet (repeat CallReconnect 12) Syslog.NewWriter).
Proof.
  apply (writer_invariants Scenario.deadNet (repeat CallReconnect 12)
           Syslog.NewWriter).
  unfold countInRange. simpl. split; discriminate.
Defined.

(** ** What a cycle sends and counts *)

Section CycleEffects.

Import Processor.

Variable env : Env.
Variable cfg : Config.
Variable cefFormatter : Cef.Formatter.

Abbreviation forwardLoop := (forwardLoop env cfg cefFormatter).
Abbreviation pass := (pass env cfg cefFormatter).
Abbreviation pageLoop := (pageLoop env cfg cefFormatter).
Abbreviation ProcessEvents := (ProcessEvents env cfg cefFormatter).
Abbreviation PassCase := (PassCase env cfg cefFormatter).

Abbreviation fits := (fits cfg).
Abbreviation addsFitting := (addsFitting cfg).

Lemma addsFitting_refl (w w' : World) :
  syslogWriter w' = syslogWriter w -> addsFitting w w'.
Proof. intros E. exists []. rewrite E. split; [reflexivity|constructor]. Qed.

Lemma addsFitting_trans (w1 w2 w3 : World) :
  addsFitting w1 w2 -> addsFitting w2 w3 -> addsFitting w1 w3.
Proof.
  intros (n1 & E1 & F1) (n2 & E2 & F2). exists (n2 ++ n1)%list.
  rewrite E2, E1, app_assoc. split; [reflexivity|].
  apply Forall_app. auto.
Qed.

Lemma truncate_fits (syslogMessage t : string) :
  0 <= MaxMsgSize cfg ->
  truncate (MaxMsgSize cfg) syslogMessage = Ret t ->
  (String.length t <= Z.to_nat (MaxMsgSize cfg))%nat.
Proof.
  intros H. unfold truncate.
  destruct (Z.gtb_spec (Z.of_nat (String.length syslogMessage)) (MaxMsgSize cfg)).
  - destruct (Z.ltb_spec (MaxMsgSize cfg) 0); [lia|].
    intros E. injection E as <-. rewrite length_substring_0. lia.
  - intros E. injection E as <-. lia.
Qed.

Lemma forwardLoop_fits (events : list StrMap) :
  0 <= MaxMsgSize cfg ->
  forall n w, addsFitting w (snd (forwardLoop events n w)).
Proof.
  intros H. induction events as [|fieldsMap rest IH]; intros n w; simpl.
  - apply addsFitting_refl. reflexivity.
  - destruct (truncate _ _) as [t|] eqn:T; [|apply addsFitting_refl; reflexivity].
    apply truncate_fits in T; [|assumption].
    destruct (send env t (syslogWriter w)) as [[err|] wr] eqn:S; simpl.
    + apply send_failed in S. exists []. simpl. rewrite S.
      split; [reflexivity|constructor].
    + apply send_ok in S.
      eapply addsFitting_trans; [|apply IH].
      exists [(t ++ Syslog.newline)%string]. simpl. rewrite S.
      split; [reflexivity|]. constructor; [|constructor].
      exists t. auto.
Qed.

Lemma finishPass_writer (page : Api.EventsPage) (l : Locals) (w : World) :
  syslogWriter (snd (finishPass env page l w)) = syslogWriter w.
Proof.
  destruct (finishPass_spec env page l w) as (l' & w' & U & ->). simpl.
  apply updateMarker_spec in U. tauto.
Qed.

Lemma pass_fits (l : Locals) (w : World) :
  0 <= MaxMsgSize cfg -> addsFitting w (snd (pass l w)).
Proof.
  intros H. destruct (pass_cases env cfg cefFormatter l w) as
    [D | lastErr c D F | page c D F E | page c w2 D F E FW
     | page c k err w2 D F E FW | page c k w2 D F E FW]; simpl.
  - apply addsFitting_refl. reflexivity.
  - apply addsFitting_refl. reflexivity.
  - apply addsFitting_refl. rewrite finishPass_writer. reflexivity.
  - pose proof (forwardLoop_fits (Api.Events page) H O (afterFetch c (polled w))) as P.
    unfold Processor.forwardEvents in FW. rewrite FW in P. exact P.
  - pose proof (forwardLoop_fits (Api.Events page) H O (afterFetch c (polled w))) as P.
    unfold Processor.forwardEvents in FW. rewrite FW in P. exact P.
  - pose proof (forwardLoop_fits (Api.Events page) H O (afterFetch c (polled w))) as P.
    unfold Processor.forwardEvents in FW. rewrite FW in P.
    eapply addsFitting_trans; [exact P|].
    apply addsFitting_refl. rewrite finishPass_writer. reflexivity.
Qed.

Lemma pageLoop_fits (remaining : nat) :
  0 <= MaxMsgSize cfg ->
  forall l w, addsFitting w (snd (pageLoop remaining l w)).
Proof.
  intros H. induction remaining as [|remaining IH]; intros l w; simpl.
  - apply addsFitting_refl. reflexivity.
  - pose proof (pass_fits l w H) as P.
    destruct (pass l w) as [[[r|l']|] w1]; simpl in *; try exact P.
    eapply addsFitting_trans; [exact P|apply IH].
Qed.

End CycleEffects.

(** X11.  With a message size that is not negative, every line a cycle
    delivers to the collector is one message of at most [MaxMsgSize] bytes
    followed by a line feed: an oversized message is cut, never split over
    several lines, and the lines delivered before the cycle stay in
    place. *)
Theorem delivered_lines_fit
    (env : Processor.Env) (cfg : Processor.Config) (f : Cef.Formatter)
    (w : Processor.World) :
  0 <= Processor.MaxMsgSize cfg ->
  let w' := snd (Processor.ProcessEvents env cfg f w) in
  exists new,
    Syslog.delivered (Processor.syslogWriter w')
    = (new ++ Syslog.delivered (Processor.syslogWriter w))%list
    /\ forall line,
         In line new ->
         exists message,
           line = message ++ Syslog.newline
           /\ (String.length message <= Z.to_nat (Processor.MaxMsgSize cfg))%nat.
Proof.
  intros H. cbv zeta. unfold Processor.ProcessEvents.
  match goal with |- context [Processor.pageLoop env cfg f ?n ?l ?w0] =>
    destruct (pageLoop_fits env cfg f n H l w0) as (new & E & F) end.
  exists new. split; [exact E|].
  intros line Hl. exact (proj1 (Forall_forall _ _) F line Hl).
Qed.

(** A configuration that cuts messages to 40 bytes. *)
Lemma delivered_lines_fit_witness :
  let e := Scenario.env (fun _ => Marker.WriteOk) Scenario.busyServer
             Scenario.goodNet (fun _ => false) in
  let cfg := Processor.mkConfig 40 false "collector" 60 2 3 2 300 in
  let w' := snd (Processor.ProcessEvents e cfg Scenario.formatter (Scenario.fresh "")) in
  exists new,
    Syslog.delivered (Processor.syslogWriter w') = (new ++ [])%list
    /\ forall line,
         In line new ->
         exists message,
           line = message ++ Syslog.newline
           /\ (String.length message <= 40)%nat.
Proof.
  cbv zeta.
  apply (delivered_lines_fit
           (Scenario.env (fun _ => Marker.WriteOk) Scenario.busyServer
              Scenario.goodNet (fun _ => false))
           (Processor.mkConfig 40 false "collector" 60 2 3 2 300)
           Scenario.formatter (Scenario.fresh "")).
  simpl. discriminate.
Defined.

Section CycleCounters.

Import Processor.

Variable env : Env.
Variable cfg : Config.
Variable cefFormatter : Cef.Formatter.

Abbreviation pass := (pass env cfg cefFormatter).
Abbreviation pageLoop := (pageLoop env cfg cefFormatter).

Lemma finishPass_requests (page : Api.EventsPage) (l : Locals) (w : World) :
  let w' := snd (finishPass env page l w) in
  TotalAPIRequests (stats w') = TotalAPIRequests (stats w)
  /\ FailedAPIRequests (stats w') = FailedAPIRequests (stats w).
Proof.
  destruct (finishPass_spec env page l w) as (l' & w' & U & ->). simpl.
  apply updateMarker_spec in U. destruct U as (_ & _ & -> & _). auto.
Qed.

Lemma pass_requests (l : Locals) (w : World) :
  let w' := snd (pass l w) in
  TotalAPIRequests (stats w') = TotalAPIRequests (stats w)
  /\ FailedAPIRequests (stats w') = FailedAPIRequests (stats w).
Proof.
  destruct (pass_cases env cfg cefFormatter l w) as
    [D | lastErr c D F | page c D F E | page c w2 D F E FW
     | page c k err w2 D F E FW | page c k w2 D F E FW]; simpl; auto.
  - apply (finishPass_requests page (fetched l) (afterFetch c (polled w))).
  - apply (forwardLoop_spec env cfg cefFormatter) in FW. destruct FW as (_ & _ & -> & _). auto.
  - apply (forwardLoop_spec env cfg cefFormatter) in FW. destruct FW as (_ & _ & -> & _). auto.
  - apply (forwardLoop_spec env cfg cefFormatter) in FW. destruct FW as (_ & _ & Es & _). simpl in Es.
    match goal with |- context [finishPass env page ?l ?w] =>
      destruct (finishPass_requests page l w) as [-> ->] end.
    simpl. rewrite Es. auto.
Qed.

Lemma pageLoop_requests (remaining : nat) :
  forall l w,
    let w' := snd (pageLoop remaining l w) in
    TotalAPIRequests (stats w') = TotalAPIRequests (stats w)
    /\ FailedAPIRequests (stats w') = FailedAPIRequests (stats w).
Proof.
  induction remaining as [|remaining IH]; intros l w; simpl; [auto|].
  pose proof (pass_requests l w) as P. simpl in P.
  destruct (pass l w) as [[[r|l']|] w1]; simpl in *; try exact P.
  destruct (IH l' w1) as [-> ->]. exact P.
Qed.

(** How the marker step changes the error count. *)
Lemma updateMarker_errors (page : Api.EventsPage) (l l' : Locals) (w w' : World) :
  updateMarker env page l w = (l', w') ->
  (numErrors l <= numErrors l')%nat.
Proof.
  unfold Processor.updateMarker. destruct (_ && _).
  - destruct (Marker.Update _ _ _) as [[e|] m];
      intros H; injection H as <- <-; simpl; lia.
  - intros H; injection H as <- <-. lia.
Qed.

Lemma finishPass_step (page : Api.EventsPage) (l : Locals) (w : World) :
  exists l' w',
    (finishPass env page l w = (Ret (Again l'), w')
     \/ finishPass env page l w = (Ret (Stop (Completed l')), w'))
    /\ totalEventsProcessed l' = totalEventsProcessed l
    /\ (numErrors l <= numErrors l')%nat
    /\ syslogWriter w' = syslogWriter w.
Proof.
  destruct (finishPass_spec env page l w) as (l' & w' & U & R).
  exists l', w'. split; [destruct (Api.HasMore page); auto|].
  pose proof (updateMarker_errors page l l' w w' U).
  apply updateMarker_spec in U. tauto.
Qed.

Lemma forwardLoop_grows (events : list StrMap) :
  forall n w,
    (deliveredCount w
     <= deliveredCount (snd (Processor.forwardLoop env cfg cefFormatter events n w)))%nat.
Proof.
  induction events as [|fieldsMap rest IH]; intros n w; simpl; [lia|].
  destruct (truncate _ _) as [t|]; [|unfold deliveredCount; simpl; lia].
  destruct (send env t (syslogWriter w)) as [[err|] wr] eqn:S; simpl.
  - apply send_failed in S. unfold deliveredCount. simpl. rewrite S. lia.
  - apply send_ok in S.
    eapply Nat.le_trans; [|apply IH].
    unfold deliveredCount. simpl. rewrite S. simpl. lia.
Qed.

Lemma pass_grows (l : Locals) (w : World) :
  (deliveredCount w <= deliveredCount (snd (pass l w)))%nat.
Proof.
  destruct (pass_cases env cfg cefFormatter l w) as
    [D | lastErr c D F | page c D F E | page c w2 D F E FW
     | page c k err w2 D F E FW | page c k w2 D F E FW]; simpl.
  - unfold deliveredCount. simpl. lia.
  - unfold deliveredCount. simpl. lia.
  - unfold deliveredCount. rewrite finishPass_writer. simpl. lia.
  - pose proof (forwardLoop_grows (Api.Events page) O (afterFetch c (polled w))) as G.
    unfold Processor.forwardEvents in FW. rewrite FW in G. exact G.
  - pose proof (forwardLoop_grows (Api.Events page) O (afterFetch c (polled w))) as G.
    unfold Processor.forwardEvents in FW. rewrite FW in G. exact G.
  - pose proof (forwardLoop_grows (Api.Events page) O (afterFetch c (polled w))) as G.
    unfold Processor.forwardEvents in FW. rewrite FW in G.
    unfold deliveredCount in *. rewrite finishPass_writer. exact G.
Qed.

Lemma pageLoop_grows (remaining : nat) :
  forall l w, (deliveredCount w <= deliveredCount (snd (pageLoop remaining l w)))%nat.
Proof.
  induction remaining as [|remaining IH]; intros l w; simpl; [lia|].
  pose proof (pass_grows l w) as P.
  destruct (pass l w) as [[[r|l']|] w1]; simpl in *; try exact P.
  eapply Nat.le_trans; [exact P|apply IH].
Qed.

(** One pass that goes on or completes: what it adds to the event total is
    at most what it adds to the collector's lines, and exactly that when it
    counts no error. *)
Lemma pass_accounted (l l' : Locals) (w w' : World) (again : bool) :
  pass l w = (Ret (if again then Again l' else Stop (Completed l')), w') ->
  0 <= totalEventsProcessed l <= Z.of_nat (deliveredCount w) ->
  Z.of_nat (deliveredCount w') < 2 ^ 63 ->
  accounted l l' w w'.
Proof.
  intros P Hl Hb. unfold accounted. cbv zeta.
  destruct (pass_cases env cfg cefFormatter l w) as
    [D | lastErr c D F | page c D F E | page c w2 D F E FW
     | page c k err w2 D F E FW | page c k w2 D F E FW].
  - destruct again; discriminate.
  - destruct again; [discriminate|]. injection P as <- <-.
    unfold deliveredCount. simpl. lia.
  - destruct (finishPass_step page (fetched l) (afterFetch c (polled w)))
      as (l1 & w1 & R & Ht & He & Ew).
    assert (l1 = l' /\ w1 = w') as [-> ->]
      by (destruct R as [R|R]; rewrite R in P; destruct again;
          try discriminate; injection P as <- <-; auto).
    unfold deliveredCount. rewrite Ew, Ht. simpl in *. lia.
  - destruct again; discriminate.
  - destruct again; [|discriminate]. injection P as <- <-.
    apply (forwardLoop_spec env cfg cefFormatter) in FW. destruct FW as (_ & _ & _ & _ & _ & Hk & Hd).
    unfold deliveredCount in *. simpl in *. lia.
  - apply (forwardLoop_spec env cfg cefFormatter) in FW. destruct FW as (_ & _ & _ & _ & _ & Hk & Hd).
    match type of P with finishPass env page ?l0 ?w0 = _ =>
      destruct (finishPass_step page l0 w0) as (l1 & w1 & R & Ht & He & Ew) end.
    assert (l1 = l' /\ w1 = w') as [-> ->]
      by (destruct R as [R|R]; rewrite R in P; destruct again;
          try discriminate; injection P as <- <-; auto).
    unfold deliveredCount in *. simpl in *. rewrite Ew in *. simpl in *.
    rewrite Ht. rewrite Hd in *.
    rewrite wrap64_small by lia. lia.
Qed.

Lemma accounted_trans (l1 l2 l3 : Locals) (w1 w2 w3 : World) :
  accounted l1 l2 w1 w2 -> accounted l2 l3 w2 w3 -> accounted l1 l3 w1 w3.
Proof. unfold accounted. cbv zeta. lia. Qed.

Lemma pageLoop_accounted (remaining : nat) :
  forall l w summary w',
    pageLoop remaining l w = (Ret (Completed summary), w') ->
    0 <= totalEventsProcessed l <= Z.of_nat (deliveredCount w) ->
    Z.of_nat (deliveredCount w') < 2 ^ 63 ->
    accounted l summary w w'.
Proof.
  induction remaining as [|remaining IH]; intros l w summary w' H Hl Hb;
    simpl in H.
  - injection H as <- <-. unfold accounted. cbv zeta. lia.
  - destruct (pass l w) as [[[r|l1]|] w1] eqn:P; try discriminate.
    + injection H as -> <-.
      apply (pass_accounted l summary w w1 false P Hl Hb).
    + pose proof (pageLoop_grows remaining l1 w1) as G. rewrite H in G. simpl in G.
      assert (accounted l l1 w w1) as A1
        by (apply (pass_accounted l l1 w w1 true P Hl); lia).
      eapply accounted_trans; [exact A1|].
      apply (IH l1 w1 summary w' H); [|assumption].
      unfold accounted in A1. cbv zeta in A1. lia.
Qed.

(** The first request of a run of passes. *)
Lemma pass_first_request (l : Locals) (w : World) :
  exists n,
    Api.requests (apiClient (snd (pass l w)))
    = (repeat (Api.buildRequest (currentMarker l)) n
       ++ Api.requests (apiClient w))%list
    /\ (forall l', fst (pass l w) = Ret (Again l') -> (1 <= n)%nat).
Proof.
  pose proof (retryLoop_requests (http env) (Z.to_nat (RetryAttempts cfg))
                (currentMarker l) None (apiClient w)) as (n & Hc & Hr).
  cbv zeta in Hc, Hr. fold (Api.FetchWithRetry (http env) (currentMarker l)
                              (RetryAttempts cfg) (apiClient w)) in Hc, Hr.
  destruct (pass_cases env cfg cefFormatter l w) as
    [D | lastErr c D F | page c D F E | page c w2 D F E FW
     | page c k err w2 D F E FW | page c k w2 D F E FW];
    try (rewrite F in Hc, Hr; simpl in Hc, Hr);
    try (destruct (FetchWithRetry_page env cfg l w page c F) as (j & Hj & _)).
  - exists O. simpl. split; [reflexivity|discriminate].
  - exists n. simpl. split; [exact Hr|discriminate].
  - exists n. destruct (finishPass_counts env page (fetched l) (afterFetch c (polled w)))
      as [_ ->]. simpl. split; [exact Hr|]. intros; lia.
  - exists n. apply (forwardLoop_spec env cfg cefFormatter) in FW.
    destruct FW as (_ & Ec & _). simpl in Ec. simpl. rewrite Ec.
    split; [exact Hr|]. intros; lia.
  - exists n. apply (forwardLoop_spec env cfg cefFormatter) in FW.
    destruct FW as (_ & Ec & _). simpl in Ec. simpl. rewrite Ec.
    split; [exact Hr|]. intros; lia.
  - exists n. apply (forwardLoop_spec env cfg cefFormatter) in FW. destruct FW as (_ & Ec & _).
    match goal with |- context [finishPass env page ?l0 ?w0] =>
      destruct (finishPass_counts env page l0 w0) as [_ ->] end.
    simpl. rewrite Ec. simpl. split; [exact Hr|]. intros; lia.
Qed.

Lemma pageLoop_first_request (remaining : nat) :
  forall l w,
    exists new,
      Api.requests (apiClient (snd (pageLoop remaining l w)))
      = (new ++ Api.requests (apiClient w))%list
      /\ (new = []
          \/ last new None = Api.buildRequest (currentMarker l)).
Proof.
  induction remaining as [|remaining IH]; intros l w; simpl.
  - exists []. auto.
  - destruct (pass_first_request l w) as (n & Hr & Hn).
    destruct (pass l w) as [[[r|l1]|] w1]; simpl in *.
    + exists (repeat (Api.buildRequest (currentMarker l)) n).
      split; [exact Hr|].
      destruct n as [|n]; [auto|right].
      cbn [repeat]. rewrite repeat_cons, last_last. reflexivity.
    + destruct (IH l1 w1) as (new & Hnew & _).
      specialize (Hn l1 eq_refl).
      exists (new ++ repeat (Api.buildRequest (currentMarker l)) n)%list.
      rewrite Hnew, Hr, app_assoc. split; [reflexivity|right].
      destruct n as [|n]; [lia|].
      cbn [repeat]. rewrite repeat_cons, app_assoc, last_last. reflexivity.
    + exists (repeat (Api.buildRequest (currentMarker l)) n).
      split; [exact Hr|].
      destruct n as [|n]; [auto|right].
      cbn [repeat]. rewrite repeat_cons, last_last. reflexivity.
Qed.

End CycleCounters.

(** X12.  Whatever happens in it, a cycle adds exactly one to the counter
    of API requests, however many requests it sends, and leaves the counter
    of failed requests alone: fetches that fail after all their retries are
    not counted there. *)
Theorem cycle_request_counters
    (env : Processor.Env) (cfg : Processor.Config) (f : Cef.Formatter)
    (w : Processor.World) :
  let w' := snd (Processor.ProcessEvents env cfg f w) in
  Processor.TotalAPIRequests (Processor.stats w')
  = wrap64 (Processor.TotalAPIRequests (Processor.stats w) + 1)
  /\ Processor.FailedAPIRequests (Processor.stats w')
     = Processor.FailedAPIRequests (Processor.stats w).
Proof.
  cbv zeta. unfold Processor.ProcessEvents.
  match goal with |- context [Processor.pageLoop env cfg f ?n ?l ?w0] =>
    destruct (pageLoop_requests env cfg f n l w0) as [-> ->] end.
  split; reflexivity.
Qed.

(** X13.  For a cycle that completes, the number of events its summary
    reports is never more than the number of lines it delivered to the
    collector, and it is exactly that number when the summary reports no
    error (as long as the collector's line count fits 63 bits). *)
Theorem counted_at_most_delivered
    (env : Processor.Env) (cfg : Processor.Config) (f : Cef.Formatter)
    (w w' : Processor.World) (summary : Processor.Locals) :
  Processor.ProcessEvents env cfg f w
  = (Processor.Ret (Processor.Completed summary), w') ->
  Z.of_nat (deliveredCount w') < 2 ^ 63 ->
  let sent := Z.of_nat (deliveredCount w') - Z.of_nat (deliveredCount w) in
  0 <= Processor.totalEventsProcessed summary <= sent
  /\ (Processor.numErrors summary = O ->
      Processor.totalEventsProcessed summary = sent).
Proof.
  unfold Processor.ProcessEvents. intros H Hb.
  apply pageLoop_accounted in H; [|simpl; unfold deliveredCount; simpl; lia|assumption].
  unfold accounted in H. cbv zeta in *. simpl in H.
  unfold deliveredCount in *. simpl in *. lia.
Qed.

Lemma counted_at_most_delivered_witness :
  let e := Scenario.env (fun _ => Marker.WriteOk) Scenario.busyServer
             Scenario.goodNet (fun _ => false) in
  let r := Processor.ProcessEvents e Scenario.cfg Scenario.formatter
             (Scenario.fresh "") in
  exists summary,
    fst r = Processor.Ret (Processor.Completed summary)
    /\ Processor.totalEventsProcessed summary
       = Z.of_nat (deliveredCount (snd r)) - 0.
Proof.
  cbv zeta.
  destruct (Processor.ProcessEvents
              (Scenario.env (fun _ => Marker.WriteOk) Scenario.busyServer
                 Scenario.goodNet (fun _ => false))
              Scenario.cfg Scenario.formatter (Scenario.fresh "")) as [r w'] eqn:E.
  pose proof
    (fun summary =>
       counted_at_most_delivered
         (Scenario.env (fun _ => Marker.WriteOk) Scenario.busyServer
            Scenario.goodNet (fun _ => false))
         Scenario.cfg Scenario.formatter (Scenario.fresh "") w' summary) as H.
  rewrite E in H. vm_compute in E. injection E as <- <-.
  eexists. split; [reflexivity|].
  apply (H _ eq_refl); [vm_compute; reflexivity|reflexivity].
Defined.

(** X14.  A cycle resumes from the stored cursor: the oldest request it
    sends carries the marker the manager held when the cycle began (none
    when that marker is empty), and the requests sent before the cycle stay
    in the log. *)
Theorem cycle_resumes_from_stored_cursor
    (env : Processor.Env) (cfg : Processor.Config) (f : Cef.Formatter)
    (w : Processor.World) :
  let w' := snd (Processor.ProcessEvents env cfg f w) in
  exists new,
    Api.requests (Processor.apiClient w')
    = (new ++ Api.requests (Processor.apiClient w))%list
    /\ (new = []
        \/ last new None
           = Api.buildRequest (Marker.marker (Processor.markerManager w))).
Proof.
  cbv zeta. unfold Processor.ProcessEvents.
  match goal with |- context [Processor.pageLoop env cfg f ?n ?l ?w0] =>
    destruct (pageLoop_first_request env cfg f n l w0) as (new & E & H) end.
  exists new. split; [exact E|exact H].
Qed.

(** X15.  With no retry attempt allowed ([RetryAttempts] zero or less, which
    the validation accepts for zero), a cycle that is not cancelled sends no
    request and delivers nothing, counts one error in its summary, and is
    still reported as a success. *)
Theorem no_attempts_no_requests
    (env : Processor.Env) (cfg : Processor.Config) (f : Cef.Formatter)
    (w : Processor.World) :
  Processor.RetryAttempts cfg <= 0 ->
  1 <= Processor.MaxPagination cfg ->
  Processor.ctxDone env (Processor.donePolls w) = false ->
  let r := Processor.ProcessEvents env cfg f w in
  fst r
  = Processor.Ret
      (Processor.Completed
         (Processor.mkLocals 0 O (Marker.marker (Processor.markerManager w)) O 1))
  /\ Processor.apiClient (snd r) = Processor.apiClient w
  /\ Processor.syslogWriter (snd r) = Processor.syslogWriter w
  /\ Processor.markerManager (snd r) = Processor.markerManager w
  /\ fst (Processor.ProcessWithRecovery env cfg f w) = true.
Proof.
  intros Hr Hp Hd. cbv zeta.
  assert (Processor.ProcessEvents env cfg f w
          = (Processor.Ret
               (Processor.Completed
                  (Processor.mkLocals 0 O
                     (Marker.marker (Processor.markerManager w)) O 1)),
             Processor.afterFetch (Processor.apiClient w)
               (Processor.polled
                  (Processor.withStats
                     (Processor.IncrementAPIRequests (Processor.stats w)) w))))
    as E.
  { unfold Processor.ProcessEvents.
    destruct (Z.to_nat (Processor.MaxPagination cfg)) as [|n] eqn:N; [lia|].
    simpl. unfold Processor.pass. simpl. rewrite Hd.
    unfold Api.FetchWithRetry.
    replace (Z.to_nat (Processor.RetryAttempts cfg)) with O by lia.
    reflexivity. }
  unfold Processor.ProcessWithRecovery. rewrite E. simpl. auto.
Qed.

Lemma no_attempts_no_requests_witness :
  let e := Scenario.env (fun _ => Marker.WriteOk) Scenario.busyServer
             Scenario.goodNet (fun _ => false) in
  let cfg := Processor.mkConfig 8192 false "collector" 60 10 0 2 300 in
  fst (Processor.ProcessWithRecovery e cfg Scenario.formatter (Scenario.fresh "m7"))
  = true
  /\ Api.calls
       (Processor.apiClient
          (snd (Processor.ProcessEvents e cfg Scenario.formatter (Scenario.fresh "m7"))))
     = O.
Proof.
  cbv zeta.
  destruct (no_attempts_no_requests
              (Scenario.env (fun _ => Marker.WriteOk) Scenario.busyServer
                 Scenario.goodNet (fun _ => false))
              (Processor.mkConfig 8192 false "collector" 60 10 0 2 300)
              Scenario.formatter (Scenario.fresh "m7"))
    as (_ & Hc & _ & _ & Hs).
  - simpl. discriminate.
  - simpl. discriminate.
  - reflexivity.
  - split; [exact Hs|]. rewrite Hc. reflexivity.
Defined.

(** ** The configuration *)

Section Validation.

Import Configuration.

Lemma isTrueIn_In (valid : list string) (key : string) :
  isTrueIn valid key = true <-> In key valid.
Proof.
  unfold isTrueIn. rewrite existsb_exists. split.
  - intros (x & Hx & E). apply String.eqb_eq in E. subst. assumption.
  - intros H. exists key. split; [assumption|apply String.eqb_refl].
Qed.

Lemma appendIf_nil (cond : bool) (name : string) (missing : list string) :
  appendIf cond name missing = [] <-> cond = false /\ missing = [].
Proof.
  unfold appendIf. destruct cond.
  - split; [intros H; destruct missing; discriminate|intros [H _]; discriminate].
  - tauto.
Qed.

Lemma missingFields_nil (c : Config) :
  missingFields c = [] <->
  CatoAPIKey c <> "" /\ CatoAccountID c <> "" /\ SyslogServer c <> ""
  /\ 0 < SyslogPort c /\ SyslogProtocol c <> "" /\ FieldMappings c <> [].
Proof.
  unfold missingFields. cbv zeta. rewrite !appendIf_nil.
  rewrite !String.eqb_neq, Z.leb_gt, Nat.eqb_neq.
  destruct (FieldMappings c); simpl; intuition (try discriminate; try lia).
Qed.

Lemma In_appendIf (cond : bool) (name x : string) (missing : list string) :
  In x (appendIf cond name missing) <-> In x missing \/ (cond = true /\ x = name).
Proof.
  unfold appendIf. destruct cond.
  - rewrite in_app_iff. simpl. intuition.
  - intuition discriminate.
Qed.

End Validation.

Lemma Validate_log_names (c : Configuration.Config) :
  Configuration.Validate c = None ->
  In (Configuration.LogLevel c) ["debug"; "info"; "warn"; "error"]
  /\ In (Configuration.LogFormat c) ["json"; "text"].
Proof.
  unfold Configuration.Validate. cbv zeta. rewrite <- !isTrueIn_In.
  destruct (0 <? _); [discriminate|].
  destruct (Configuration.isTrueIn ["debug"; "info"; "warn"; "error"]
              (Configuration.LogLevel c)); cbn [negb]; [|discriminate].
  destruct (Configuration.isTrueIn ["json"; "text"]
              (Configuration.LogFormat c)); cbn [negb]; [|discriminate].
  auto.
Qed.

(** X16.  [Validate] accepts a configuration exactly when the required
    settings are present, the log level, log format and syslog protocol are
    among the known names, the fetch interval is at least 10, the events per
    request are between 1 and 5000, at least one page is allowed, the retry
    attempts are not negative and the connection timeout is at least 1.  It
    puts no condition on the message size, the retry delay or the backoff
    ceiling. *)
Theorem Validate_accepts_iff (c : Configuration.Config) :
  Configuration.Validate c = None <-> wellFormed c.
Proof.
  unfold Configuration.Validate, wellFormed. cbv zeta.
  rewrite <- !isTrueIn_In.
  pose proof (missingFields_nil c) as M.
  destruct (Configuration.missingFields c) as [|name rest] eqn:E.
  - destruct (proj1 M eq_refl) as (H1 & H2 & H3 & H4 & H5 & H6).
    change (0 <? Z.of_nat (List.length (@nil string))) with false. cbv iota.
    destruct (Configuration.isTrueIn ["debug"; "info"; "warn"; "error"]
                (Configuration.LogLevel c)); cbn [negb];
      [|split; [discriminate|intros W; decompose [and] W; discriminate]].
    destruct (Configuration.isTrueIn ["json"; "text"]
                (Configuration.LogFormat c)); cbn [negb];
      [|split; [discriminate|intros W; decompose [and] W; discriminate]].
    destruct (Configuration.isTrueIn ["tcp"; "udp"]
                (Configuration.SyslogProtocol c)); cbn [negb];
      [|split; [discriminate|intros W; decompose [and] W; discriminate]].
    destruct (Z.ltb_spec (Configuration.FetchInterval c) 10);
      [split; [discriminate|intros W; decompose [and] W; lia]|].
    destruct (Z.ltb_spec (Configuration.MaxEvents c) 1); cbn [orb];
      [split; [discriminate|intros W; decompose [and] W; lia]|].
    destruct (Z.gtb_spec (Configuration.MaxEvents c) 5000);
      [split; [discriminate|intros W; decompose [and] W; lia]|].
    destruct (Z.ltb_spec (Configuration.MaxPagination c) 1);
      [split; [discriminate|intros W; decompose [and] W; lia]|].
    destruct (Z.ltb_spec (Configuration.RetryAttempts c) 0);
      [split; [discriminate|intros W; decompose [and] W; lia]|].
    destruct (Z.ltb_spec (Configuration.ConnTimeout c) 1);
      [split; [discriminate|intros W; decompose [and] W; lia]|].
    split; [intros _|reflexivity].
    repeat split; auto; lia.
  - replace (0 <? Z.of_nat (List.length (name :: rest))) with true
      by (symmetry; apply Z.ltb_lt; simpl List.length; lia).
    split; [discriminate|].
    intros (H1 & H2 & H3 & H4 & H5 & H6 & H7 & H8 & _).
    assert (name :: rest = []) as Bad; [|discriminate].
    apply M. repeat split; auto.
    intros P. rewrite P in H8. discriminate.
Qed.

(** X17.  When a required setting is missing, [Validate] reports the
    missing settings before anything else, and the report names exactly the
    settings that are missing. *)
Theorem Validate_reports_missing (c : Configuration.Config) (name : string) :
  (Configuration.missingFields c <> [] ->
   Configuration.Validate c
   = Some (Configuration.ErrMissing (Configuration.missingFields c)))
  /\ (In name (Configuration.missingFields c) <->
      (name = "cato.api_key" /\ Configuration.CatoAPIKey c = "")
      \/ (name = "cato.account_id" /\ Configuration.CatoAccountID c = "")
      \/ (name = "syslog.server" /\ Configuration.SyslogServer c = "")
      \/ (name = "syslog.port" /\ Configuration.SyslogPort c <= 0)
      \/ (name = "syslog.protocol" /\ Configuration.SyslogProtocol c = "")
      \/ (name = "cef.field_mappings" /\ Configuration.FieldMappings c = [])).
Proof.
  split.
  - unfold Configuration.Validate. cbv zeta.
    destruct (Configuration.missingFields c) as [|n rest]; [congruence|].
    intros _. simpl. reflexivity.
  - unfold Configuration.missingFields. cbv zeta.
    rewrite !In_appendIf, !String.eqb_eq, Z.leb_le, Nat.eqb_eq.
    simpl. rewrite length_zero_iff_nil. intuition.
Qed.

Lemma Validate_reports_missing_witness :
  Configuration.Validate
    (Configuration.mkConfig "" "" "acct" "" 0 "tcp" 0 false "" "" "" "" [] []
       0 0 0 0 0 0 0 "" "" "" "" false "")
  = Some (Configuration.ErrMissing
            ["cato.api_key"; "syslog.server"; "syslog.port"; "cef.field_mappings"]).
Proof.
  apply (proj1 (Validate_reports_missing
                  (Configuration.mkConfig "" "" "acct" "" 0 "tcp" 0 false "" ""
                     "" "" [] [] 0 0 0 0 0 0 0 "" "" "" "" false "")
                  "")).
  simpl. discriminate.
Defined.

(** ** Log levels and formats *)

Lemma level_names_round_trip_aux (s : string) :
  snd (Logging.ParseLevel s) = true ->
  Logging.levelString (fst (Logging.ParseLevel s)) = s.
Proof.
  unfold Logging.ParseLevel, Logging.levelString, Logging.DEBUG, Logging.INFO,
    Logging.WARN, Logging.ERROR.
  destruct (String.eqb_spec s "debug"); [subst; reflexivity|].
  destruct (String.eqb_spec s "info"); [subst; reflexivity|].
  destruct (String.eqb_spec s "warn"); [subst; reflexivity|].
  destruct (String.eqb_spec s "error"); [subst; reflexivity|].
  discriminate.
Qed.

(** X18.  The names of the log levels round-trip: a name [ParseLevel]
    accepts is the name [String] gives to the level it returns, and each of
    the four levels is parsed back from its name without an error. *)
Theorem level_names_round_trip (s : string) (l : Logging.Level) :
  (snd (Logging.ParseLevel s) = true ->
   Logging.levelString (fst (Logging.ParseLevel s)) = s)
  /\ (Logging.DEBUG <= l <= Logging.ERROR ->
      Logging.ParseLevel (Logging.levelString l) = (l, true))
  /\ (snd (Logging.ParseLevel s) = false ->
      Logging.levelString (fst (Logging.ParseLevel s)) = "info").
Proof.
  split; [|split].
  - apply level_names_round_trip_aux.
  - unfold Logging.DEBUG, Logging.ERROR. intros H.
    assert (l = 0 \/ l = 1 \/ l = 2 \/ l = 3) as [E | [E | [E | E]]] by lia;
      subst; reflexivity.
  - unfold Logging.ParseLevel.
    destruct (String.eqb s "debug"); [discriminate|].
    destruct (String.eqb s "info"); [discriminate|].
    destruct (String.eqb s "warn"); [discriminate|].
    destruct (String.eqb s "error"); [discriminate|].
    reflexivity.
Qed.

(** X19.  A logger made from a configuration that [Validate] accepts has
    exactly the configured level and format: the silent fallbacks of [New]
    to INFO and TEXT are not taken.  Such a logger always writes the
    messages of [Error], and it writes those of [Debug] exactly when the
    configured level is "debug". *)
Theorem validated_logger_level (c : Configuration.Config) (opens : bool)
    (logger : Logging.Logger) :
  Configuration.Validate c = None ->
  Logging.New (Configuration.LogLevel c) (Configuration.LogFormat c)
    (Configuration.LogOutput c) opens = Some logger ->
  Logging.ParseLevel (Configuration.LogLevel c) = (Logging.level logger, true)
  /\ Logging.ParseFormat (Configuration.LogFormat c) = (Logging.format logger, true)
  /\ Logging.levelString (Logging.level logger) = Configuration.LogLevel c
  /\ Logging.writes logger Logging.ERROR = true
  /\ (Logging.writes logger Logging.DEBUG = true
      <-> Configuration.LogLevel c = "debug").
Proof.
  intros V N. apply Validate_log_names in V. destruct V as [Hl Hf].
  assert (Logging.level logger = fst (Logging.ParseLevel (Configuration.LogLevel c))
          /\ Logging.format logger
             = fst (Logging.ParseFormat (Configuration.LogFormat c))
          /\ snd (Logging.ParseLevel (Configuration.LogLevel c)) = true
          /\ snd (Logging.ParseFormat (Configuration.LogFormat c)) = true)
    as (El & Ef & Pl & Pf).
  { assert (snd (Logging.ParseLevel (Configuration.LogLevel c)) = true) as Pl.
    { simpl in Hl. destruct Hl as [E | [E | [E | [E | []]]]]; rewrite <- E; reflexivity. }
    assert (snd (Logging.ParseFormat (Configuration.LogFormat c)) = true) as Pf.
    { simpl in Hf. destruct Hf as [E | [E | []]]; rewrite <- E; reflexivity. }
    unfold Logging.New in N. cbv zeta in N. rewrite Pl, Pf in N.
    destruct (_ || _); [injection N as <-; auto|].
    destruct (String.eqb _ "stderr"); [injection N as <-; auto|].
    destruct opens; [injection N as <-; auto|discriminate]. }
  split; [|split; [|split; [|split]]].
  - rewrite El, <- Pl. apply surjective_pairing.
  - rewrite Ef, <- Pf. apply surjective_pairing.
  - rewrite El. apply (level_names_round_trip_aux _ Pl).
  - unfold Logging.writes. rewrite El.
    simpl in Hl. destruct Hl as [E | [E | [E | [E | []]]]]; rewrite <- E; reflexivity.
  - unfold Logging.writes. rewrite El.
    simpl in Hl. destruct Hl as [E | [E | [E | [E | []]]]]; rewrite <- E;
      split; (reflexivity || discriminate).
Qed.

Lemma validated_logger_level_witness :
  Logging.levelString (Logging.level (Logging.mkLogger Logging.INFO Logging.JSON Logging.Stdout))
  = Configuration.LogLevel readmeConfig.
Proof.
  apply (validated_logger_level readmeConfig true
           (Logging.mkLogger Logging.INFO Logging.JSON Logging.Stdout));
    reflexivity.
Defined.

(** ** The pre-flight checks *)

Section PreflightResults.

Import Preflight.

Lemma HasFailures_exists (results : list CheckResult) :
  HasFailures results = true <-> exists r, In r results /\ Passed r = false.
Proof.
  induction results as [|result rest IH]; simpl.
  - split; [discriminate|intros (r & [] & _)].
  - destruct (Passed result) eqn:P; simpl.
    + rewrite IH. split.
      * intros (r & Hr & F). exists r. auto.
      * intros (r & [E | Hr] & F); [subst; congruence|exists r; auto].
    + split; [intros _; exists result; auto|reflexivity].
Qed.

Lemma failureLines_nil (results : list CheckResult) :
  failureLines results = [] <-> HasFailures results = false.
Proof.
  unfold failureLines.
  induction results as [|result rest IH]; simpl; [tauto|].
  destruct (Passed result); simpl; [exact IH|].
  split; discriminate.
Qed.

Lemma fold_join (sep : string) (rest : list string) :
  forall first,
    fold_left (fun result s => result ++ sep ++ s) rest first
    = String.concat sep (first :: rest).
Proof.
  induction rest as [|x rest IH]; intros first; [reflexivity|].
  cbn [fold_left]. rewrite IH.
  change (String.concat sep (first :: x :: rest))
    with (first ++ sep ++ String.concat sep (x :: rest)).
  destruct rest as [|y rest].
  - reflexivity.
  - change (String.concat sep ((first ++ sep ++ x) :: y :: rest))
      with ((first ++ sep ++ x) ++ sep ++ String.concat sep (y :: rest)).
    change (String.concat sep (x :: y :: rest))
      with (x ++ sep ++ String.concat sep (y :: rest)).
    rewrite !append_assoc. reflexivity.
Qed.

Lemma joinStrings_concat (strs : list string) (sep : string) :
  joinStrings strs sep = String.concat sep strs.
Proof.
  destruct strs as [|first rest]; [reflexivity|]. apply fold_join.
Qed.

End PreflightResults.

(** X20.  The failure report agrees with the failure test: [HasFailures]
    holds exactly when some result has not passed, [FormatFailures] returns
    the empty string exactly when [HasFailures] does not hold, and otherwise
    it is the heading followed by one line per failed check, in the order of
    the checks, separated by line feeds. *)
Theorem failures_reported (results : list Preflight.CheckResult) :
  (Preflight.HasFailures results = true
   <-> exists r, In r results /\ Preflight.Passed r = false)
  /\ (Preflight.FormatFailures results = ""
      <-> Preflight.HasFailures results = false)
  /\ (Preflight.HasFailures results = true ->
      Preflight.FormatFailures results
      = "Pre-flight checks failed:" ++ Syslog.newline
          ++ String.concat Syslog.newline
               (map (fun r => "  - " ++ Preflight.Name r ++ ": "
                                ++ Preflight.Message r)
                  (filter (fun r => negb (Preflight.Passed r)) results))).
Proof.
  split; [apply HasFailures_exists|].
  pose proof (failureLines_nil results) as N.
  assert (Preflight.failureLines results
          = map (fun r => "  - " ++ Preflight.Name r ++ ": " ++ Preflight.Message r)
              (filter (fun r => negb (Preflight.Passed r)) results)) as L.
  { unfold Preflight.failureLines.
    induction results as [|result rest IH]; [reflexivity|]. simpl.
    destruct (Preflight.Passed result); simpl.
    - apply IH. apply failureLines_nil.
    - f_equal. apply IH. apply failureLines_nil. }
  unfold Preflight.FormatFailures. cbv zeta. rewrite joinStrings_concat, <- L.
  destruct (Preflight.failureLines results) as [|line lines].
  - split.
    + split; [intros _; apply N; reflexivity|reflexivity].
    + intros H. rewrite (proj1 N eq_refl) in H. discriminate.
  - split.
    + split; [discriminate|].
      intros H. apply N in H. discriminate.
    + reflexivity.
Qed.

(** X21.  [RunAll] returns the marker-file, syslog and API results in that
    order, and each of them has passed exactly when it carries no error. *)
Theorem RunAll_results (apiURL accountID syslogProtocol syslogAddress : string)
    (dir markerFile : string) (checks : Preflight.Checks) (file : MarkerFile.File) :
  let results :=
    fst (Preflight.RunAll apiURL accountID syslogProtocol syslogAddress dir
           markerFile checks file) in
  map Preflight.Name results
  = ["Marker File Access"; "Syslog Connectivity"; "Cato API Connectivity"]
  /\ forall r, In r results ->
       (Preflight.Passed r = true <-> Preflight.Error r = None).
Proof.
  cbv zeta. unfold Preflight.RunAll.
  destruct (Preflight.CheckMarkerFileAccess dir markerFile
              (Preflight.markerIO checks) file) as [markerResult file'] eqn:M.
  cbn [fst map].
  assert (Preflight.Name markerResult = "Marker File Access"
          /\ (Preflight.Passed markerResult = true
              <-> Preflight.Error markerResult = None)) as [Mn Mp].
  { unfold Preflight.CheckMarkerFileAccess in M. cbv zeta in M.
    destruct (negb _);
      [injection M as <- <-; simpl; split; [reflexivity|split; discriminate]|].
    destruct (Preflight.writeTest _);
      [|injection M as <- <-; simpl; split; [reflexivity|split; discriminate]].
    destruct (MarkerFile.ReadFile _ _);
      try (injection M as <- <-; simpl; split; [reflexivity|split; discriminate]).
    destruct (negb _); injection M as <- <-; simpl;
      (split; [reflexivity|split; (discriminate || reflexivity)]). }
  split.
  - rewrite Mn. f_equal.
    destruct (Preflight.syslogOutcome checks); simpl; f_equal;
      destruct (Preflight.apiOutcome checks) as [| | | |code body]; simpl;
      try reflexivity;
      unfold Preflight.CheckAPIConnectivity; cbv zeta;
      destruct (code =? 401); try reflexivity;
      destruct (code =? 403); try reflexivity;
      destruct (negb _); try reflexivity;
      destruct body as [[[|errMsg errs] n]|]; try reflexivity;
      destruct (n <? 0); reflexivity.
  - intros r [E | [E | [E | []]]]; subst r.
    + exact Mp.
    + destruct (Preflight.syslogOutcome checks); simpl;
        split; (discriminate || reflexivity).
    + unfold Preflight.CheckAPIConnectivity. cbv zeta.
      destruct (Preflight.apiOutcome checks) as [| | | |code body]; simpl;
        try (split; discriminate).
      destruct (code =? 401); simpl; [split; discriminate|].
      destruct (code =? 403); simpl; [split; discriminate|].
      destruct (negb _); simpl; [split; discriminate|].
      destruct body as [[[|errMsg errs] n]|]; simpl; try (split; discriminate).
      destruct (n <? 0); simpl; split; (discriminate || reflexivity).
Qed.

(** X22.  The API check passes exactly when the answer has status 200, its
    body can be decoded, it lists no GraphQL error and its [fetchedCount] is
    not negative; the marker of the answer and the number of events play no
    part. *)
Theorem CheckAPIConnectivity_passes (apiURL accountID : string)
    (o : Preflight.ApiOutcome) :
  Preflight.Passed (Preflight.CheckAPIConnectivity apiURL accountID o) = true
  <-> exists fetchedCount,
        o = Preflight.Status 200 (Some ([], fetchedCount)) /\ 0 <= fetchedCount.
Proof.
  unfold Preflight.CheckAPIConnectivity. cbv zeta.
  destruct o as [| | | |code body]; simpl;
    try (split; [discriminate|intros (n & E & _); discriminate]).
  destruct (Z.eqb_spec code 401) as [E|N1]; simpl.
  { split; [discriminate|intros (n & H & _)]. injection H as -> _. discriminate. }
  destruct (Z.eqb_spec code 403) as [E|N2]; simpl.
  { split; [discriminate|intros (n & H & _)]. injection H as -> _. discriminate. }
  destruct (Z.eqb_spec code 200) as [E|N3]; simpl.
  2:{ split; [discriminate|intros (n & H & _)]. injection H as -> _. congruence. }
  subst code.
  destruct body as [[[|errMsg errs] n]|]; simpl;
    try (split; [discriminate|intros (k & H & _); discriminate]).
  destruct (Z.ltb_spec n 0) as [Neg|Pos]; simpl.
  - split; [discriminate|intros (k & H & Hk)]. injection H as ->. lia.
  - split; [intros _; exists n; split; [reflexivity|assumption]|reflexivity].
Qed.

(** ** The marker file across a restart *)

Section Trimming.

Variable trimUnicode : string -> string.
Variable trimRightUnicode : string -> string.

Abbreviation TrimSpace := (GoStrings.TrimSpace trimUnicode trimRightUnicode).



Lemma TrimSpace_empty : TrimSpace "" = "".
Proof. reflexivity. Qed.

End Trimming.



(** X24.  [marker.New] fails only when the marker file exists and cannot be
    read.  Without a file the service starts with the empty cursor, and with
    a readable file the cursor is the trimmed content, so a file holding
    only ASCII white space gives the empty cursor as well. *)
Theorem New_cases (trimUnicode trimRightUnicode : string -> string)
    (readable : bool) (file : MarkerFile.File) :
  let started :=
    MarkerFile.New trimUnicode trimRightUnicode (MarkerFile.ReadFile readable file) in
  (started = None <-> (file <> None /\ readable = false))
  /\ (file = None -> option_map Marker.Get started = Some "")
  /\ (forall data, file = Some data -> readable = true ->
        option_map Marker.Get started
        = Some (GoStrings.TrimSpace trimUnicode trimRightUnicode data))
  /\ (forall data, file = Some data -> readable = true ->
        forallb GoStrings.asciiSpace (bytes data) = true ->
        option_map Marker.Get started = Some "").
Proof.
  cbv zeta. unfold MarkerFile.New, MarkerFile.Load, MarkerFile.ReadFile.
  destruct file as [data|]; [destruct readable|]; simpl.
  - split; [split; [discriminate|intros [_ H]; discriminate]|].
    split; [discriminate|]. split.
    + intros d E _. injection E as <-. reflexivity.
    + intros d E _ Sp. injection E as <-. f_equal. unfold Marker.Get. simpl.
      unfold GoStrings.TrimSpace.
      assert (GoStrings.trimLeft trimUnicode data = inl "") as ->; [|reflexivity].
      unfold bytes in Sp. induction data as [|c s IH]; [reflexivity|].
      simpl in Sp. apply andb_prop in Sp. destruct Sp as [Sc Ss].
      cbn [GoStrings.trimLeft]. rewrite Sc.
      assert (GoStrings.isASCII c = true) as ->.
      { unfold GoStrings.asciiSpace in Sc.
        repeat (apply orb_prop in Sc; destruct Sc as [Sc|Sc]);
          apply Ascii.eqb_eq in Sc; subst c; reflexivity. }
      cbn [negb]. apply IH. assumption.
  - split; [split; [intros _; split; [discriminate|reflexivity]|reflexivity]|].
    split; [discriminate|]. split; intros d _ H; discriminate.
  - split; [split; [discriminate|intros [H _]; congruence]|].
    split; [reflexivity|]. split; intros d H; discriminate.
Qed.

(** ** Start-up *)

(** X25.  Start-up forgets the stored cursor.  When [main] gets as far as a
    marker manager and the pre-flight check could clear its test data, the
    manager starts with the empty cursor and the marker file is empty,
    whatever the file held before: the marker-file check writes its test
    data over the marker file and then clears it, and only then is the
    marker loaded. *)
Theorem startup_forgets_stored_cursor
    (trimUnicode trimRightUnicode : string -> string)
    (c : Configuration.Config) (dir : string) (checks : Preflight.Checks)
    (readable : bool) (file : MarkerFile.File) (manager : Marker.Manager) :
  fst (Startup.initialize trimUnicode trimRightUnicode c dir checks readable file)
  = Some manager ->
  Preflight.writeClear (Preflight.markerIO checks) = MarkerFile.Written ->
  Marker.Get manager = ""
  /\ snd (Startup.initialize trimUnicode trimRightUnicode c dir checks readable file)
     = Some "".
Proof.
  unfold Startup.initialize, Preflight.RunAll.
  destruct (Configuration.Validate c); [discriminate|].
  destruct (Preflight.CheckMarkerFileAccess dir (Configuration.MarkerFile c)
              (Preflight.markerIO checks) file) as [markerResult file'] eqn:M.
  cbn [Preflight.HasFailures].
  destruct (Preflight.Passed markerResult) eqn:P; cbn [negb]; [|discriminate].
  destruct (if negb (Preflight.Passed _) then true else _); [discriminate|].
  cbn [fst snd]. intros N Wc.
  assert (file' = Some "") as ->.
  { unfold Preflight.CheckMarkerFileAccess in M. cbv zeta in M.
    destruct (negb _); [injection M as <- <-; discriminate|].
    destruct (Preflight.writeTest _); [|injection M as <- <-; discriminate].
    destruct (MarkerFile.ReadFile _ _); try (injection M as <- <-; discriminate).
    destruct (negb _); injection M as <- <-; [discriminate|].
    rewrite Wc. reflexivity. }
  split; [|reflexivity].
  unfold MarkerFile.New, MarkerFile.Load, MarkerFile.ReadFile in N.
  destruct readable; [|discriminate].
  injection N as <-. reflexivity.
Qed.

Lemma startup_forgets_stored_cursor_witness :
  let checks :=
    Preflight.mkChecks
      (Preflight.mkMarkerIO true MarkerFile.Written true MarkerFile.Written)
      Preflight.TestWritten (Preflight.Status 200 (Some ([], 0))) in
  fst (Startup.initialize (fun s => s) (fun s => s) readmeConfig
         "/etc/cato-logger" checks true (Some "eyJtIjoxfQ=="))
  = Some (Marker.mkManager "" O [])
  /\ snd (Startup.initialize (fun s => s) (fun s => s) readmeConfig
            "/etc/cato-logger" checks true (Some "eyJtIjoxfQ=="))
     = Some "".
Proof.
  cbv zeta. split; [reflexivity|].
  apply (startup_forgets_stored_cursor (fun s => s) (fun s => s) readmeConfig
           "/etc/cato-logger"
           (Preflight.mkChecks
              (Preflight.mkMarkerIO true MarkerFile.Written true MarkerFile.Written)
              Preflight.TestWritten (Preflight.Status 200 (Some ([], 0))))
           true (Some "eyJtIjoxfQ==") (Marker.mkManager "" O []));
    reflexivity.
Defined.

(** ** Settings [Validate] does not check *)

Section Unchecked.

Import Processor.

Variable env : Env.
Variable cfg : Config.
Variable cefFormatter : Cef.Formatter.

Hypothesis negative : MaxMsgSize cfg < 0.

Lemma truncate_negative (m : string) : truncate (MaxMsgSize cfg) m = Panic.
Proof.
  unfold truncate.
  destruct (Z.gtb_spec (Z.of_nat (String.length m)) (MaxMsgSize cfg)); [|lia].
  destruct (Z.ltb_spec (MaxMsgSize cfg) 0); [reflexivity|lia].
Qed.

Lemma forwardLoop_negative (events : list StrMap) (n : nat) (w : World) :
  events <> [] ->
  forwardLoop env cfg cefFormatter events n w = (Panic, stamped w).
Proof.
  destruct events as [|fieldsMap rest]; [congruence|]. intros _.
  cbn [forwardLoop]. cbv zeta. rewrite truncate_negative. reflexivity.
Qed.

Lemma pass_negative (l : Locals) (w : World) :
  let w' := snd (pass env cfg cefFormatter l w) in
  syslogWriter w' = syslogWriter w /\ stats w' = stats w.
Proof.
  destruct (pass_cases env cfg cefFormatter l w) as
    [D | lastErr c D F | page c D F E | page c w2 D F E FW
     | page c k err w2 D F E FW | page c k w2 D F E FW]; cbv zeta.
  - split; reflexivity.
  - split; reflexivity.
  - destruct (finishPass_spec env page (fetched l) (afterFetch c (polled w)))
      as (l' & w' & U & ->).
    apply updateMarker_spec in U. simpl. split; [tauto|].
    destruct U as (_ & _ & -> & _). reflexivity.
  - unfold forwardEvents in FW. rewrite (forwardLoop_negative _ _ _ E) in FW.
    injection FW as <-. split; reflexivity.
  - unfold forwardEvents in FW. rewrite (forwardLoop_negative _ _ _ E) in FW.
    discriminate.
  - unfold forwardEvents in FW. rewrite (forwardLoop_negative _ _ _ E) in FW.
    discriminate.
Qed.

Lemma pageLoop_negative (remaining : nat) :
  forall l w,
    let w' := snd (pageLoop env cfg cefFormatter remaining l w) in
    syslogWriter w' = syslogWriter w /\ stats w' = stats w.
Proof.
  induction remaining as [|remaining IH]; intros l w; cbv zeta.
  - split; reflexivity.
  - cbn [pageLoop]. pose proof (pass_negative l w) as P. cbv zeta in P.
    destruct (pass env cfg cefFormatter l w) as [[[r|l']|] w1];
      cbn [snd] in *; try exact P.
    destruct P as [Pw Ps]. specialize (IH l' w1). cbv zeta in IH.
    destruct IH as [Iw Is]. rewrite Iw, Is. auto.
Qed.

End Unchecked.

(** X26.  With a negative [max_message_size], which [Validate] lets
    through, forwarding panics on the first event of any batch before
    anything is written, so a cycle never sends a line: the writer is as it
    was before the cycle and the count of forwarded events does not move. *)
Theorem negative_size_limit_sends_nothing (env : Processor.Env)
    (cfg : Processor.Config) (cefFormatter : Cef.Formatter)
    (events : list StrMap) (w : Processor.World) :
  Processor.MaxMsgSize cfg < 0 ->
  (events <> [] ->
   Processor.forwardEvents env cfg cefFormatter events w
   = (Processor.Panic, Processor.stamped w))
  /\ (let w' := snd (Processor.ProcessWithRecovery env cfg cefFormatter w) in
      Processor.syslogWriter w' = Processor.syslogWriter w
      /\ Processor.TotalEventsForwarded (Processor.stats w')
         = Processor.TotalEventsForwarded (Processor.stats w)).
Proof.
  intros N. split.
  - apply forwardLoop_negative. assumption.
  - cbv zeta. unfold Processor.ProcessWithRecovery, Processor.ProcessEvents.
    match goal with |- context [Processor.pageLoop _ _ _ ?n ?l ?w0] =>
      pose proof (pageLoop_negative env cfg cefFormatter N n l w0) as P end.
    cbv zeta in P.
    destruct (Processor.pageLoop _ _ _ _ _ _) as [[[|summary]|] w1];
      cbn [snd] in *; destruct P as [Pw Ps]; simpl; rewrite ?Pw, ?Ps; simpl; auto.
Qed.

Lemma negative_size_limit_sends_nothing_witness :
  let e := Scenario.env (fun _ => Marker.WriteOk) Scenario.busyServer
             Scenario.goodNet (fun _ => false) in
  let cfg := Processor.mkConfig (-1) false "collector" 60 10 3 2 300 in
  fst (Processor.ProcessWithRecovery e cfg Scenario.formatter (Scenario.fresh ""))
  = false
  /\ Processor.syslogWriter
       (snd (Processor.ProcessWithRecovery e cfg Scenario.formatter
               (Scenario.fresh "")))
     = Processor.syslogWriter (Scenario.fresh "").
Proof.
  cbv zeta. split; [reflexivity|].
  apply (negative_size_limit_sends_nothing
           (Scenario.env (fun _ => Marker.WriteOk) Scenario.busyServer
              Scenario.goodNet (fun _ => false))
           (Processor.mkConfig (-1) false "collector" 60 10 3 2 300)
           Scenario.formatter [] (Scenario.fresh "")).
  simpl. lia.
Defined.

(** X27.  With a backoff ceiling that is not positive (the setting left
    out of the file is zero, and [Validate] does not look at it), the second
    failed cycle in a row stops the service: the first failure leaves the
    ceiling in [backoffDelay], and the second hands it to [ticker.Reset],
    which panics on a period that is not positive. *)
Theorem nonpositive_ceiling_panics (cfg : Processor.Config)
    (s : Main.Scheduler) (later : list bool) :
  - 9223372036 <= Processor.MaxBackoffDelay cfg <= 0 ->
  0 < Main.backoffDelay s <= 2 ^ 61 ->
  Main.schedule cfg (false :: false :: later) s = Processor.Panic.
Proof.
  intros B S.
  assert (Main.maxBackoff cfg <= 0) as M.
  { unfold Main.maxBackoff. rewrite wrap64_small; unfold Second; lia. }
  cbn [Main.schedule]. unfold Main.onCycle at 1. unfold Main.resetTicker at 1.
  destruct (Z.leb_spec (Main.backoffDelay s) 0); [lia|].
  rewrite wrap64_small by lia.
  destruct (Z.gtb_spec (Main.backoffDelay s * 2) (Main.maxBackoff cfg)); [|lia].
  cbn [Main.schedule]. unfold Main.onCycle, Main.resetTicker. simpl Main.backoffDelay.
  destruct (Z.leb_spec (Main.maxBackoff cfg) 0); [reflexivity|lia].
Qed.

Lemma nonpositive_ceiling_panics_witness :
  Configuration.Validate sparseConfig = None
  /\ Main.start (Configuration.processorConfig sparseConfig)
     = Processor.Ret (Main.mkScheduler Second (60 * Second))
  /\ Main.schedule (Configuration.processorConfig sparseConfig) [false; false]
       (Main.mkScheduler Second (60 * Second))
     = Processor.Panic.
Proof.
  split; [reflexivity|]. split; [reflexivity|].
  apply (nonpositive_ceiling_panics (Configuration.processorConfig sparseConfig)
           (Main.mkScheduler Second (60 * Second)) []).
  - simpl. lia.
  - unfold Second. simpl. lia.
Defined.
